(** * The orchestration layer of the Gaussian rasterizer

    A shallow embedding of [cuda_rasterizer/rasterizer_impl.cu]: the
    host helper [getHigherMsb], the kernels [checkFrustum],
    [duplicateWithKeys] and [identifyTileRanges] with their launches, the
    three [fromChunk] layouts and the host functions [markVisible],
    [forward] and [backward].

    Conventions.
    - A [uint32_t], [int] or [uint64_t] is a [Z]; every operation that can
      wrap in the source is followed by its reduction ([wrap32], [wrap64]).
    - A [float] that is only moved around or reinterpreted (the depth) is
      its IEEE-754 binary32 bit pattern, a [Z] below [2^32].
    - A device array is a list; an index is a [nat] obtained by [Z.to_nat].
    - A kernel is run thread by thread in increasing order of the thread
      rank.  On the inputs the theorems are about, no two threads of a
      launch store to the same cell, so the order does not matter. *)

From Stdlib Require Import ZArith List Lia QArith Qround String Sorted Permutation.
From stdpp Require Import base list sorting.
Import ListNotations.

Local Open Scope Z_scope.

(** ** Machine integers *)

Definition wrap32 (z : Z) : Z := z mod 2 ^ 32.
Definition wrap64 (z : Z) : Z := z mod 2 ^ 64.

(** Reading the four bytes of a [uint32_t] as an [int]. *)
Definition as_int (z : Z) : Z := if z <? 2 ^ 31 then z else z - 2 ^ 32.

Definition INT_MAX : Z := 2 ^ 31 - 1.

(** ** [getHigherMsb] *)

(** The body of [while (step > 1)].  [step] is never zero, so it is kept
    as a [positive]: [step > 1] holds exactly when [step] is not [xH], and
    [step /= 2] drops the last binary digit. *)
Fixpoint getHigherMsb_loop (step : positive) (n msb : Z) : Z :=
  match step with
  | xH => msb
  | xO step' | xI step' =>
      if negb (Z.shiftr n msb =? 0)
      then getHigherMsb_loop step' n (wrap32 (msb + Z.pos step'))
      else getHigherMsb_loop step' n (wrap32 (msb - Z.pos step'))
  end.

Definition getHigherMsb (n : Z) : Z :=
  let msb := 4 * 4 in
  let msb := getHigherMsb_loop (Z.to_pos msb) n msb in
  if negb (Z.shiftr n msb =? 0) then wrap32 (msb + 1) else msb.

(** ** Launches *)

(** [<<<(n + 255) / 256, 256>>>]: the number of blocks is computed in
    [int] arithmetic, where the division truncates, and becomes the
    [unsigned] first dimension of the grid. *)
Definition launch_blocks (n : Z) : Z := wrap32 ((n + 255) ÷ 256).

(** [cg::this_grid().thread_rank()] over a one-dimensional launch: the
    ranks [0 .. blocks * threads - 1]. *)
Definition thread_ranks (blocks threads : Z) : list nat :=
  seq 0 (Z.to_nat (blocks * threads)).

(** [if (idx >= P) return;].  The rank is an [unsigned long long], so the
    [int] on the right is converted to that type for the comparison. *)
Definition rank_guard (P : Z) (idx : nat) : bool := wrap64 P <=? Z.of_nat idx.

(** A kernel whose body starts with the rank guard, on the launch
    [<<<(P + 255) / 256, 256>>>]. *)
Definition launch_guarded {S : Type} (P : Z) (body : S -> nat -> S) (s : S) : S :=
  foldl (fun s idx => if rank_guard P idx then s else body s idx) s
        (thread_ranks (launch_blocks P) 256).

(** ** [checkFrustum] and [markVisible] *)

Section Frustum.

(** The coarse frustum test [in_frustum] of [auxiliary.h] is external:
    it is a parameter, and so are the types of the point array and of
    the two matrices, which [checkFrustum] only hands on.  The view-space
    point that the test also computes is dropped by [checkFrustum]. *)
Variables points matrix : Type.
Variable in_frustum : Z -> points -> matrix -> matrix -> bool -> bool.

(** One thread of [checkFrustum]. *)
Definition checkFrustum (P : Z) (orig_points : points) (viewmatrix projmatrix : matrix)
    (present : list bool) (idx : nat) : list bool :=
  if rank_guard P idx then present
  else <[idx := in_frustum (Z.of_nat idx) orig_points viewmatrix projmatrix false]> present.

(** [markVisible]: the launch of [checkFrustum] on [(P + 255) / 256]
    blocks of 256 threads. *)
Definition markVisible (P : Z) (means3D : points) (viewmatrix projmatrix : matrix)
    (present : list bool) : list bool :=
  foldl (checkFrustum P means3D viewmatrix projmatrix) present
        (thread_ranks (launch_blocks P) 256).

End Frustum.

(** ** Vector types and compile-time constants *)

Record uint2 := Uint2 { ux : Z; uy : Z }.
Record dim3 := Dim3 { gx : Z; gy : Z; gz : Z }.

(** A screen position.  Its two [float] coordinates are carried as exact
    rationals; only [getRect] computes with them. *)
Record float2 := Float2 { fx : Q; fy : Q }.

(** Modelled from the spec: the tile size [BLOCK_X] x [BLOCK_Y] is a
    constant of [config.h], which is not part of the sources at hand.  The
    spec's scenarios use 16 x 16 pixel tiles, and [identifyTileRanges]
    writes the same 16 literally. *)
Definition BLOCK_X : Z := 16.
Definition BLOCK_Y : Z := 16.

(** [dim3 tile_grid((width + BLOCK_X - 1) / BLOCK_X,
                    (height + BLOCK_Y - 1) / BLOCK_Y, 1)]:
    [int] division truncates, then the result becomes an [unsigned].
    The two sums are those of the source's [int]s for sides of at most
    [INT_MAX - 15]; above, the sums of the source overflow. *)
Definition tile_grid (width height : Z) : dim3 :=
  Dim3 (wrap32 ((width + BLOCK_X - 1) ÷ BLOCK_X))
       (wrap32 ((height + BLOCK_Y - 1) ÷ BLOCK_Y)) 1.

(** [tile_grid.x * tile_grid.y], a product of two [unsigned]. *)
Definition tile_count (grid : dim3) : Z := wrap32 (gx grid * gy grid).

(** The conversion [(int) f] of a [float]: truncation towards zero. *)
Definition to_int (q : Q) : Z := if Qle_bool 0 q then Qfloor q else Qceiling q.

(** Modelled from the spec: [getRect] of [auxiliary.h], which is not part
    of the sources at hand.  "The integer tile-rectangle its screen
    bounding box overlaps (clamped to the grid)": the box is
    [p - max_radius, p + max_radius] on both axes, the rectangle is
    half-open, and every corner coordinate is clamped to [0, grid]. *)
Definition getRect (p : float2) (max_radius : Z) (grid : dim3) : uint2 * uint2 :=
  let r := inject_Z max_radius in
  let clamp (limit : Z) (t : Q) := Z.min limit (Z.max 0 (to_int t)) in
  (Uint2 (clamp (gx grid) ((fx p - r) / inject_Z BLOCK_X)%Q)
         (clamp (gy grid) ((fy p - r) / inject_Z BLOCK_Y)%Q),
   Uint2 (clamp (gx grid) ((fx p + r + inject_Z (BLOCK_X - 1)) / inject_Z BLOCK_X)%Q)
         (clamp (gy grid) ((fy p + r + inject_Z (BLOCK_Y - 1)) / inject_Z BLOCK_Y)%Q)).

(** ** What the projection stage leaves in the geometry state

    [FORWARD::preprocess] is an external stage.  Of what it writes, this
    file reads four arrays of [P] entries each: [means2D], [depths],
    [radii] and [tiles_touched].  They are kept together, one record per
    primitive, so that they have the same length by construction. *)
Record gaussian := Gaussian {
  g_xy : float2;          (* means2D[idx] *)
  g_depth : Z;            (* the bits of depths[idx] *)
  g_radius : Z;           (* radii[idx], an int *)
  g_tiles_touched : Z     (* tiles_touched[idx], a uint32_t *)
}.

(** ** Prefix sum *)

(** [cub::DeviceScan::InclusiveSum] over [uint32_t]: running totals that
    wrap at [2^32]. *)
Fixpoint InclusiveSum_from (acc : Z) (d_in : list Z) : list Z :=
  match d_in with
  | [] => []
  | c :: rest =>
      let acc' := wrap32 (acc + c) in acc' :: InclusiveSum_from acc' rest
  end.

Definition InclusiveSum (d_in : list Z) : list Z := InclusiveSum_from 0 d_in.

(** [cudaMemcpy(&num_rendered, src + index, sizeof(int), ...)]: reads one
    [uint32_t] of the device array as an [int]; there is nothing to read
    outside the array. *)
Definition memcpy_int (src : list Z) (index : Z) : option Z :=
  if index <? 0 then None else as_int <$> src !! Z.to_nat index.

(** ** [duplicateWithKeys] *)

(** The two output arrays of the kernel. *)
Record unsorted := Unsorted {
  gaussian_keys_unsorted : list Z;
  gaussian_values_unsorted : list Z
}.

(** [key = y * grid.x + x; key <<= 32; key |= depth bits].  The tile index
    is computed in [unsigned] arithmetic before it is widened. *)
Definition pack_key (grid : dim3) (depth : Z) (y x : Z) : Z :=
  let key := wrap32 (wrap32 (y * gx grid) + x) in
  let key := wrap64 (Z.shiftl key 32) in
  Z.lor key depth.

(** The body of the inner loop: two stores at [off], then [off++]. *)
Definition emit (grid : dim3) (depth : Z) (idx : nat) (y : Z)
    (st : unsorted * Z) (x : Z) : unsorted * Z :=
  let '(b, off) := st in
  (Unsorted (<[Z.to_nat off := pack_key grid depth y x]> (gaussian_keys_unsorted b))
            (<[Z.to_nat off := Z.of_nat idx]> (gaussian_values_unsorted b)),
   wrap32 (off + 1)).

(** [for (int i = lo; i < hi; i++)] visits [lo, lo+1, ..., hi-1], for
    bounds that fit an [int]. *)
Definition for_range (lo hi : Z) : list Z := seqZ lo (hi - lo).

(** [off = (idx == 0) ? 0 : offsets[idx - 1]]. *)
Definition start_offset (offsets : list Z) (idx : nat) : Z :=
  if (idx =? 0)%nat then 0 else default 0 (offsets !! (idx - 1)%nat).

(** One thread of the kernel. *)
Definition duplicateWithKeys_thread (geom : list gaussian) (offsets : list Z)
    (grid : dim3) (b : unsorted) (idx : nat) : unsorted :=
  match geom !! idx with
  | None => b
  | Some g =>
      if 0 <? g_radius g then
        let off := start_offset offsets idx in
        let '(rect_min, rect_max) := getRect (g_xy g) (g_radius g) grid in
        fst (foldl (fun st y =>
                      foldl (emit grid (g_depth g) idx y) st
                            (for_range (ux rect_min) (ux rect_max)))
                   (b, off)
                   (for_range (uy rect_min) (uy rect_max)))
      else b
  end.

(** The launch: threads [0 .. P-1]; the ranks at or above [P] return at
    once. *)
Definition duplicateWithKeys (P : nat) (geom : list gaussian) (offsets : list Z)
    (b : unsorted) (grid : dim3) : unsorted :=
  foldl (duplicateWithKeys_thread geom offsets grid) b (seq 0 P).

(** ** Sorting *)

(** [cub::DeviceRadixSort::SortPairs(..., num_items, begin_bit, end_bit)]
    is a library routine: a stable least-significant-digit radix sort of
    the key/value pairs that looks at the key bits [begin_bit, end_bit)
    only.  One pass per bit: the pairs whose bit is clear, in their
    order, then the pairs whose bit is set, in their order. *)
Definition key_bit (b : Z) (kv : Z * Z) : bool := Z.testbit (fst kv) b.

Definition radix_pass (items : list (Z * Z)) (b : Z) : list (Z * Z) :=
  List.filter (fun kv => negb (key_bit b kv)) items ++ List.filter (key_bit b) items.

Definition SortPairs (d_keys_in d_values_in : list Z) (num_items : Z)
    (begin_bit end_bit : Z) : list Z * list Z :=
  let items := take (Z.to_nat num_items) (zip d_keys_in d_values_in) in
  let sorted := foldl radix_pass items (for_range begin_bit end_bit) in
  (sorted.*1, sorted.*2).

(** The two fields of an instance key. *)
Definition key_tile (key : Z) : Z := wrap32 (Z.shiftr key 32).
Definition key_depth (key : Z) : Z := Z.land key (Z.ones 32).

(** ** [identifyTileRanges] *)

Definition set_x (v : Z) (r : uint2) : uint2 := Uint2 v (uy r).
Definition set_y (v : Z) (r : uint2) : uint2 := Uint2 (ux r) v.

(** One thread of the kernel.  [currtile] and [prevtile] are the keys
    shifted right by 32 and narrowed to [uint32_t]; the rank and [L] are
    narrowed to [unsigned] when they are stored.  The locals [count],
    [row], [col] and [numTilesX] are computed and never used: they are
    left out, and so are the parameters [height] and [width] that only
    they read. *)
Definition identifyTileRanges_thread (L : Z) (point_list_keys : list Z)
    (ranges : list uint2) (idx : nat) : list uint2 :=
  match point_list_keys !! idx with
  | None => ranges
  | Some key =>
      let currtile := key_tile key in
      let ranges :=
        if (idx =? 0)%nat then
          alter (set_x 0) (Z.to_nat currtile) ranges
        else
          match point_list_keys !! (idx - 1)%nat with
          | None => ranges
          | Some prevkey =>
              let prevtile := key_tile prevkey in
              if negb (currtile =? prevtile) then
                alter (set_x (wrap32 (Z.of_nat idx))) (Z.to_nat currtile)
                  (alter (set_y (wrap32 (Z.of_nat idx))) (Z.to_nat prevtile) ranges)
              else ranges
          end in
      if Z.of_nat idx =? L - 1 then
        alter (set_y (wrap32 L)) (Z.to_nat currtile) ranges
      else ranges
  end.

(** The launch: threads [0 .. L-1]. *)
Definition identifyTileRanges (L : Z) (point_list_keys : list Z)
    (ranges : list uint2) : list uint2 :=
  foldl (identifyTileRanges_thread L point_list_keys) ranges (seq 0 (Z.to_nat L)).

(** ** The packed arena *)

(** Modelled from the spec: [obtain] of [rasterizer_impl.h], which is not
    part of the sources at hand.  "Given a cursor into a byte buffer, a
    required element count, and a byte alignment, returns a typed pointer
    at the next aligned offset and advances the cursor."  The cursor is
    the [char*&] that [fromChunk] threads through its calls; it is null
    in the dry run, so what is aligned is the value of the cursor.
    Addresses are unbounded integers: they are the 64-bit cursor and
    byte counts of the source for as long as the cursor stays below
    [2^64].  The result is the typed pointer and the advanced cursor. *)
Definition obtain (chunk : Z) (count elt_size alignment : Z) : Z * Z :=
  let offset := Z.land (chunk + alignment - 1) (Z.lnot (alignment - 1)) in
  (offset, offset + count * elt_size).

(** Modelled from the spec: the element types of the fields are declared
    in [rasterizer_impl.h], which is not part of the sources at hand.
    They are those of the layout the spec lists (depth, clamp flags,
    radius, 2D mean, 6-float covariance, conic and opacity as 4 floats,
    RGB, counts and offsets) and of the arrays the kernels of this file
    take ([float2* points_xy], [uint64_t*] keys, [uint32_t*] values,
    [uint2* ranges]). *)
Definition sizeof_float : Z := 4.
Definition sizeof_bool : Z := 1.
Definition sizeof_int : Z := 4.
Definition sizeof_float2 : Z := 8.
Definition sizeof_float4 : Z := 16.
Definition sizeof_uint32_t : Z := 4.
Definition sizeof_uint64_t : Z := 8.
Definition sizeof_uint2 : Z := 8.
Definition sizeof_char : Z := 1.

Module GeometryState.

Record t := Build {
  depths : Z; clamped : Z; internal_radii : Z; means2D : Z; cov3D : Z;
  conic_opacity : Z; rgb : Z; tiles_touched : Z;
  scan_size : Z; scanning_space : Z; point_offsets : Z
}.

(** [scan_temp_bytes P] is what the size query
    [cub::DeviceScan::InclusiveSum(nullptr, geom.scan_size, ..., P)]
    stores in [scan_size]. *)
Definition fromChunk (scan_temp_bytes : Z -> Z) (chunk : Z) (P : Z) : t * Z :=
  let '(depths, chunk) := obtain chunk P sizeof_float 128 in
  let '(clamped, chunk) := obtain chunk (P * 3) sizeof_bool 128 in
  let '(internal_radii, chunk) := obtain chunk P sizeof_int 128 in
  let '(means2D, chunk) := obtain chunk P sizeof_float2 128 in
  let '(cov3D, chunk) := obtain chunk (P * 6) sizeof_float 128 in
  let '(conic_opacity, chunk) := obtain chunk P sizeof_float4 128 in
  let '(rgb, chunk) := obtain chunk (P * 3) sizeof_float 128 in
  let '(tiles_touched, chunk) := obtain chunk P sizeof_uint32_t 128 in
  let scan_size := scan_temp_bytes P in
  let '(scanning_space, chunk) := obtain chunk scan_size sizeof_char 128 in
  let '(point_offsets, chunk) := obtain chunk P sizeof_uint32_t 128 in
  (Build depths clamped internal_radii means2D cov3D conic_opacity rgb
         tiles_touched scan_size scanning_space point_offsets, chunk).

Definition fields (g : t) : list Z :=
  [depths g; clamped g; internal_radii g; means2D g; cov3D g;
   conic_opacity g; rgb g; tiles_touched g; scanning_space g; point_offsets g].

End GeometryState.

Module ImageState.

Record t := Build { accum_alpha : Z; n_contrib : Z; ranges : Z }.

Definition fromChunk (chunk : Z) (N : Z) : t * Z :=
  let '(accum_alpha, chunk) := obtain chunk N sizeof_float 128 in
  let '(n_contrib, chunk) := obtain chunk N sizeof_uint32_t 128 in
  let '(ranges, chunk) := obtain chunk N sizeof_uint2 128 in
  (Build accum_alpha n_contrib ranges, chunk).

Definition fields (img : t) : list Z := [accum_alpha img; n_contrib img; ranges img].

End ImageState.

Module BinningState.

Record t := Build {
  point_list : Z; point_list_unsorted : Z;
  point_list_keys : Z; point_list_keys_unsorted : Z;
  sorting_size : Z; list_sorting_space : Z
}.

(** [sort_temp_bytes P] is what the size query
    [cub::DeviceRadixSort::SortPairs(nullptr, binning.sorting_size, ..., P)]
    stores in [sorting_size]. *)
Definition fromChunk (sort_temp_bytes : Z -> Z) (chunk : Z) (P : Z) : t * Z :=
  let '(point_list, chunk) := obtain chunk P sizeof_uint32_t 128 in
  let '(point_list_unsorted, chunk) := obtain chunk P sizeof_uint32_t 128 in
  let '(point_list_keys, chunk) := obtain chunk P sizeof_uint64_t 128 in
  let '(point_list_keys_unsorted, chunk) := obtain chunk P sizeof_uint64_t 128 in
  let sorting_size := sort_temp_bytes P in
  let '(list_sorting_space, chunk) := obtain chunk sorting_size sizeof_char 128 in
  (Build point_list point_list_unsorted point_list_keys point_list_keys_unsorted
         sorting_size list_sorting_space, chunk).

Definition fields (b : t) : list Z :=
  [point_list b; point_list_unsorted b; point_list_keys b;
   point_list_keys_unsorted b; list_sorting_space b].

End BinningState.

(** The three state types, handled uniformly: the addresses of the
    fields in the order they are carved, and the cursor after the last
    one. *)
Inductive state_type := Geometry | Image | Binning.

Section Arena.

Variable scan_temp_bytes : Z -> Z.
Variable sort_temp_bytes : Z -> Z.

Definition carve (T : state_type) (chunk : Z) (n : Z) : list Z * Z :=
  match T with
  | Geometry =>
      let '(g, chunk') := GeometryState.fromChunk scan_temp_bytes chunk n in
      (GeometryState.fields g, chunk')
  | Image =>
      let '(img, chunk') := ImageState.fromChunk chunk n in
      (ImageState.fields img, chunk')
  | Binning =>
      let '(b, chunk') := BinningState.fromChunk sort_temp_bytes chunk n in
      (BinningState.fields b, chunk')
  end.

(** Modelled from the spec: [required<T>] of [rasterizer_impl.h], which is
    not part of the sources at hand.  "A parallel dry-run mode (chunk
    pointer = null) only accumulates the total byte size": [fromChunk] is
    run from the null pointer and the final cursor is the size. *)
Definition required (T : state_type) (n : Z) : Z := snd (carve T 0 n).

End Arena.

(** The dry run: [fromChunk] from the null pointer.  The offsets of the
    fields, and the byte count the cursor has accumulated at the end. *)
Definition dry_run_offsets (scan_temp_bytes sort_temp_bytes : Z -> Z)
    (T : state_type) (n : Z) : list Z :=
  fst (carve scan_temp_bytes sort_temp_bytes T 0 n).

Definition dry_run_size (scan_temp_bytes sort_temp_bytes : Z -> Z)
    (T : state_type) (n : Z) : Z :=
  snd (carve scan_temp_bytes sort_temp_bytes T 0 n).

Definition align128 (chunk : Z) : Z := Z.land (chunk + 128 - 1) (Z.lnot (128 - 1)).

(** ** The blend stage *)

Section Blend.

(** What the blend stage evaluates per splat and pixel (the Gaussian
    falloff times the opacity) and the colour of a splat. *)
Variable alpha_of : Z -> Z -> Z -> Q.
Variable feature_of : Z -> list Q.

(** Modelled from the spec: [FORWARD::render] of [forward.cu], which is
    not part of the sources at hand.  "Each group serially walks its
    tile's sorted instance range"; the model is "order-dependent
    alpha-compositing" in which "the farther primitive's contribution is
    attenuated by the nearer one's alpha", and what is left of the
    transmittance shows the background. *)
Definition composite (px py : Z) (st : list Q * Q) (id : Z) : list Q * Q :=
  let '(C, T) := st in
  let a := alpha_of id px py in
  (zip_with (fun c f => c + f * a * T)%Q C (feature_of id), (T * (1 - a))%Q).

Definition blend_pixel (contributors : list Z) (px py : Z) (bg_color : list Q)
    : list Q :=
  let '(C, T) := foldl (composite px py) (map (fun _ => 0%Q) bg_color, 1%Q)
                       contributors in
  zip_with (fun c b => c + T * b)%Q C bg_color.

Definition render (grid : dim3) (ranges : list uint2) (point_list : list Z)
    (W H : Z) (bg_color : list Q) : list (list Q) :=
  map (fun pix =>
         let px := pix mod W in
         let py := pix / W in
         let tile := (py / BLOCK_Y) * gx grid + px / BLOCK_X in
         let range := default (Uint2 0 0) (ranges !! Z.to_nat tile) in
         let contributors :=
           take (Z.to_nat (uy range - ux range))
                (drop (Z.to_nat (ux range)) point_list) in
         blend_pixel contributors px py bg_color)
      (for_range 0 (W * H)).

End Blend.

(** ** The host sequencers *)

(** What a call does besides computing: the calls of the caller's arena
    resizers, and the kernels, library routines and copies it dispatches
    to the device, in order. *)
Inductive event :=
| Call_geometryBuffer (bytes : Z)
| Call_imageBuffer (bytes : Z)
| Call_binningBuffer (bytes : Z)
| Launch_FORWARD_preprocess
| Launch_InclusiveSum
| Memcpy_num_rendered
| Launch_duplicateWithKeys
| Launch_SortPairs (end_bit : Z)
| Memset_ranges
| Launch_identifyTileRanges
| Launch_FORWARD_render
| Launch_BACKWARD_render
| Launch_BACKWARD_preprocess.

(** The arena resizers are host callbacks of the caller; everything else
    is work handed to the device. *)
Definition device_work (e : event) : bool :=
  match e with
  | Call_geometryBuffer _ | Call_imageBuffer _ | Call_binningBuffer _ => false
  | _ => true
  end.

(** The instance expansion and the sort, the work [backward] is said not
    to repeat. *)
Definition expansion_or_sort (e : event) : bool :=
  match e with
  | Launch_InclusiveSum | Launch_duplicateWithKeys | Launch_SortPairs _
  | Launch_identifyTileRanges => true
  | _ => false
  end.

(** [runtime_error] is the exception [forward] throws; [illegal_address]
    stands for an access outside a device array, which is undefined
    behaviour. *)
Inductive error :=
| runtime_error (what : string)
| illegal_address.

(** A host computation: it extends the trace of events and either fails
    or returns. *)
Definition M (A : Type) : Type := list event -> list event * (error + A).

Definition ret {A} (a : A) : M A := fun tr => (tr, inr a).
Definition bind {A B} (m : M A) (k : A -> M B) : M B :=
  fun tr => match m tr with
            | (tr', inl e) => (tr', inl e)
            | (tr', inr a) => k a tr'
            end.
Definition throw {A} (e : error) : M A := fun tr => (tr, inl e).
Definition dispatch (e : event) : M unit := fun tr => (tr ++ [e], inr tt).
Definition check (ok : bool) : M unit := if ok then ret tt else throw illegal_address.

Notation "'do' x <- m ; k" := (bind m (fun x => k))
  (at level 10, x name, m at level 100, k at level 200).
Notation "m ;; k" := (bind m (fun _ => k))
  (at level 100, k at level 200, right associativity).

(** The conversion of an [int] argument to the [size_t] parameter of
    [required] and [fromChunk]. *)
Definition size_t_of_int (i : Z) : Z := wrap64 i.

(** ** The instances a primitive expands to *)

(** The cells of a tile rectangle in the order the two loops of
    [duplicateWithKeys] visit them: row [y] by row, [x] increasing. *)
Definition rect_tiles (rect_min rect_max : uint2) : list (Z * Z) :=
  flat_map (fun y => map (fun x => (y, x)) (for_range (ux rect_min) (ux rect_max)))
           (for_range (uy rect_min) (uy rect_max)).

Definition instances (grid : dim3) (g : gaussian) : list (Z * Z) :=
  if 0 <? g_radius g then
    let '(rect_min, rect_max) := getRect (g_xy g) (g_radius g) grid in
    rect_tiles rect_min rect_max
  else [].

Definition instance_keys (grid : dim3) (g : gaussian) : list Z :=
  map (fun yx => pack_key grid (g_depth g) (fst yx) (snd yx)) (instances grid g).

(** Every store of the launch falls inside arrays of [len] entries.  A
    thread that stores nothing is in range wherever its offset is. *)
Definition stores_in_range (geom : list gaussian) (offsets : list Z)
    (grid : dim3) (len : Z) : bool :=
  forallb (fun ig : nat * gaussian =>
             let count := Z.of_nat (length (instances grid (snd ig))) in
             (count =? 0) || (start_offset offsets (fst ig) + count <=? len))
          (imap pair geom).

(** [int bit = getHigherMsb(tile_grid.x * tile_grid.y)] and the [32 + bit]
    that [forward] hands to the sort as its [end_bit]. *)
Definition sort_end_bit (grid : dim3) : Z := 32 + getHigherMsb (tile_count grid).

(** Every tile index found in the keys addresses the range table. *)
Definition tiles_in_range (point_list_keys : list Z) (tiles : Z) : bool :=
  forallb (fun key => key_tile key <? tiles) point_list_keys.

Section Orchestrators.

Variable scan_temp_bytes : Z -> Z.
Variable sort_temp_bytes : Z -> Z.

(** The constant [NUM_CHANNELS] of [config.h], which is not part of the
    sources at hand. *)
Variable NUM_CHANNELS : Z.

Variable alpha_of : Z -> Z -> Z -> Q.

Record forward_out := ForwardOut {
  num_rendered : Z;
  point_offsets : list Z;
  point_list_keys_unsorted : list Z;
  point_list_keys : list Z;
  point_list : list Z;
  ranges : list uint2;
  out_color : list (list Q)
}.

(** [forward].  The arrays are modelled by their contents, so the views
    [fromChunk] returns are not needed; the sizes asked of the resizers
    are recorded in the events.
    - [geom] and [rgb] are what the external projection stage writes.
    - [colors_precomp] is [None] for the null pointer.
    - [garbage] is the content of the freshly carved binning arrays.
    - The range table is the part of [imgState.ranges] that the memset
      clears, one entry per tile of the grid.
    - [CHECK_CUDA] only reports failures of the device, which are not
      modelled, except for the accesses outside an array: the read-back
      at a negative index, and the stores of the two kernels, which are
      checked with [stores_in_range] and [tiles_in_range]. *)
Definition forward (width height : Z) (background : list Q)
    (colors_precomp : option (Z -> list Q)) (rgb : Z -> list Q)
    (geom : list gaussian) (garbage : nat -> Z) : M forward_out :=
  let P := Z.of_nat (length geom) in
  let chunk_size := required scan_temp_bytes sort_temp_bytes Geometry (size_t_of_int P) in
  dispatch (Call_geometryBuffer chunk_size) ;;
  let grid := tile_grid width height in
  let img_chunk_size :=
    required scan_temp_bytes sort_temp_bytes Image (size_t_of_int (width * height)) in
  dispatch (Call_imageBuffer img_chunk_size) ;;
  (if negb (NUM_CHANNELS =? 3) && negb (bool_decide (is_Some colors_precomp))
   then throw (runtime_error "For non-RGB, provide precomputed Gaussian colors!")
   else ret tt) ;;
  dispatch Launch_FORWARD_preprocess ;;
  dispatch Launch_InclusiveSum ;;
  let offsets := InclusiveSum (map g_tiles_touched geom) in
  dispatch Memcpy_num_rendered ;;
  do R <- match memcpy_int offsets (P - 1) with
          | Some n => ret n
          | None => throw illegal_address
          end ;
  let binning_chunk_size :=
    required scan_temp_bytes sort_temp_bytes Binning (size_t_of_int R) in
  dispatch (Call_binningBuffer binning_chunk_size) ;;
  let fresh := Unsorted (map garbage (seq 0 (Z.to_nat R)))
                        (map garbage (seq 0 (Z.to_nat R))) in
  dispatch Launch_duplicateWithKeys ;;
  check (stores_in_range geom offsets grid R) ;;
  let binned := duplicateWithKeys (length geom) geom offsets fresh grid in
  dispatch (Launch_SortPairs (sort_end_bit grid)) ;;
  let sorted := SortPairs (gaussian_keys_unsorted binned)
                          (gaussian_values_unsorted binned) R 0 (sort_end_bit grid) in
  dispatch Memset_ranges ;;
  let cleared := replicate (Z.to_nat (tile_count grid)) (Uint2 0 0) in
  do table <- (if 0 <? R then
                 dispatch Launch_identifyTileRanges ;;
                 check (tiles_in_range (fst sorted) (tile_count grid)) ;;
                 ret (identifyTileRanges R (fst sorted) cleared)
               else ret cleared) ;
  let feature := match colors_precomp with Some c => c | None => rgb end in
  dispatch Launch_FORWARD_render ;;
  ret (ForwardOut R offsets (gaussian_keys_unsorted binned) (fst sorted) (snd sorted)
         table
         (render alpha_of feature grid table (snd sorted) width height background)).

(** [backward]: the three views are rebuilt from the buffers of the
    caller, then the two external gradient stages are dispatched on
    them. *)
Definition backward (P R width height : Z)
    (geom_buffer binning_buffer img_buffer : Z)
    : M (GeometryState.t * BinningState.t * ImageState.t) :=
  let geomState := fst (GeometryState.fromChunk scan_temp_bytes geom_buffer (size_t_of_int P)) in
  let binningState := fst (BinningState.fromChunk sort_temp_bytes binning_buffer (size_t_of_int R)) in
  let imgState := fst (ImageState.fromChunk img_buffer (size_t_of_int (width * height))) in
  dispatch Launch_BACKWARD_render ;;
  dispatch Launch_BACKWARD_preprocess ;;
  ret (geomState, binningState, imgState).

End Orchestrators.

(** ** Reading a depth back from its bits *)

(** The fields of an IEEE-754 binary32 pattern. *)
Definition f32_sign (b : Z) : Z := Z.shiftr b 31.
Definition f32_exponent (b : Z) : Z := Z.land (Z.shiftr b 23) 255.
Definition f32_mantissa (b : Z) : Z := Z.land b (Z.ones 23).

Definition f32_is_nan (b : Z) : bool :=
  (f32_exponent b =? 255) && negb (f32_mantissa b =? 0).

(** The magnitude in units of [2^-149]: subnormals are their mantissa,
    normal numbers have the hidden bit, and infinity is given the next
    power of two, above every finite value. *)
Definition f32_magnitude (b : Z) : Z :=
  if f32_exponent b =? 0 then f32_mantissa b
  else (2 ^ 23 + f32_mantissa b) * 2 ^ (f32_exponent b - 1).

(** The number a pattern that is not a NaN stands for. *)
Definition f32_value (b : Z) : Q :=
  Qmake (if f32_sign b =? 0 then f32_magnitude b else - f32_magnitude b)
        (Z.to_pos (2 ^ 149)).

(** A depth that is non-negative: the sign bit is clear and the pattern
    is not a NaN, that is, it lies between [+0.0] and [+infinity]. *)
Definition f32_nonneg (b : Z) : Prop := 0 <= b <= 255 * 2 ^ 23.

(** ** What the orchestration expects of its inputs *)

(** Modelled from the spec: the contract of the external projection
    stage on [tiles_touched].  The expansion is "an exact 1:N expansion",
    and the primitives with radius <= 0 "write nothing and do not reserve
    a slot (their touch-count must be 0, enforced upstream)": the count of
    a primitive is the number of pairs the expansion writes for it. *)
Definition preprocess_ok (grid : dim3) (geom : list gaussian) : Prop :=
  Forall (fun g => g_tiles_touched g = Z.of_nat (length (instances grid g))) geom.

(** The image is not empty and its pixel count, which [forward] computes
    as an [int], does not overflow. *)
Definition image_ok (width height : Z) : Prop :=
  0 < width /\ 0 < height /\ width * height <= INT_MAX.

(** The keys of a list are in non-decreasing order of tile, and of depth
    bits within a tile. *)
Definition tile_depth_sorted (keys : list Z) : Prop :=
  forall (i j : nat) (ki kj : Z),
    (i <= j)%nat -> keys !! i = Some ki -> keys !! j = Some kj ->
    key_tile ki <= key_tile kj /\
    (key_tile ki = key_tile kj -> key_depth ki <= key_depth kj).

Definition tile_sorted (keys : list Z) : Prop :=
  forall (i j : nat) (ki kj : Z),
    (i <= j)%nat -> keys !! i = Some ki -> keys !! j = Some kj ->
    key_tile ki <= key_tile kj.

(** ** Notions the statements are written with *)

(** Powers of two as [positive] numbers: the values [step] runs through. *)
Definition pow2pos (k : nat) : positive := Nat.iter k xO xH.

(** The configuration test of [forward]. *)
Definition config_ok (NUM_CHANNELS : Z) (colors_precomp : option (Z -> list Q)) : Prop :=
  NUM_CHANNELS = 3 \/ is_Some colors_precomp.

Definition Zsum (l : list Z) : Z := foldr Z.add 0 l.

(** All the pairs of the expansion, primitive after primitive. *)
Definition all_keys (grid : dim3) (geom : list gaussian) : list Z :=
  flat_map (instance_keys grid) geom.

Definition all_values (grid : dim3) (geom : list gaussian) : list Z :=
  flat_map (fun ig : nat * gaussian =>
              replicate (length (instances grid (snd ig))) (Z.of_nat (fst ig)))
           (imap pair geom).

Definition instance_count (grid : dim3) (geom : list gaussian) : nat :=
  length (flat_map (instances grid) geom).

(** Order of the pairs by the [k] low bits of their keys. *)
Definition low_le (k : Z) (a b : Z * Z) : Prop :=
  fst a mod 2 ^ k <= fst b mod 2 ^ k.

(** The depth bits are 32-bit patterns. *)
Definition depths_typed (geom : list gaussian) : Prop :=
  Forall (fun g => 0 <= g_depth g < 2 ^ 32) geom.

(** The conditions under which no step of [forward] leaves its arrays:
    there is a primitive, the image is well formed, the counts of the
    projection stage are those of the expansion, their total is an [int],
    and the depths are 32-bit patterns. *)
Definition well_formed_call (width height : Z) (geom : list gaussian) : Prop :=
  geom <> [] /\
  image_ok width height /\
  preprocess_ok (tile_grid width height) geom /\
  Z.of_nat (instance_count (tile_grid width height) geom) <= INT_MAX /\
  depths_typed geom.

(** The tile of a key as an index of the range table. *)
Definition tile_of (key : Z) : nat := Z.to_nat (key_tile key).

(** The first part of a thread, on the current and the previous tile:
    the start of the current tile, and the end of the previous one when
    the tile changes. *)
Definition open_close (idx curr prev : nat) (ranges : list uint2) : list uint2 :=
  if (idx =? 0)%nat then alter (set_x 0) curr ranges
  else if negb (curr =? prev)%nat then
         alter (set_x (Z.of_nat idx)) curr (alter (set_y (Z.of_nat idx)) prev ranges)
       else ranges.

(** The number of keys of a tile below [t], and of a tile up to [t]. *)
Definition below (keys : list Z) (t : nat) : nat :=
  length (List.filter (fun k => tile_of k <? t)%nat keys).
Definition upto (keys : list Z) (t : nat) : nat :=
  length (List.filter (fun k => tile_of k <=? t)%nat keys).

(** Tile [t] occurs among the first [n] keys. *)
Definition touched (keys : list Z) (n t : nat) : bool :=
  existsb (fun k => tile_of k =? t)%nat (take n keys).

(** The tile of the key before index [n]. *)
Definition last_tile (keys : list Z) (n : nat) : nat :=
  default 0%nat (tile_of <$> keys !! (n - 1)%nat).

(** The table after the first parts of the threads [0 .. n-1]: the tiles
    met so far have their start, and their end unless they are the one
    being walked. *)
Definition expected (keys : list Z) (n t : nat) : uint2 :=
  if touched keys n t then
    Uint2 (Z.of_nat (below keys t))
          (if (t =? last_tile keys n)%nat then 0 else Z.of_nat (upto keys t))
  else Uint2 0 0.

(** The table at the end. *)
Definition final (keys : list Z) (t : nat) : uint2 :=
  if touched keys (length keys) t then
    Uint2 (Z.of_nat (below keys t)) (Z.of_nat (upto keys t))
  else Uint2 0 0.

(** The invariant of the launch. *)
Definition table_is (f : nat -> uint2) (T : nat) (ranges : list uint2) : Prop :=
  length ranges = T /\ forall t : nat, (t < T)%nat -> ranges !! t = Some (f t).

(** What [forward] computes when nothing fails: the steps of [forward]
    without the events and the checks. *)
Definition forward_result (alpha_of : Z -> Z -> Z -> Q) (width height : Z)
    (background : list Q) (colors_precomp : option (Z -> list Q)) (rgb : Z -> list Q)
    (geom : list gaussian) (garbage : nat -> Z) (R : Z) : forward_out :=
  let grid := tile_grid width height in
  let offsets := InclusiveSum (map g_tiles_touched geom) in
  let fresh := Unsorted (map garbage (seq 0 (Z.to_nat R)))
                        (map garbage (seq 0 (Z.to_nat R))) in
  let binned := duplicateWithKeys (length geom) geom offsets fresh grid in
  let sorted := SortPairs (gaussian_keys_unsorted binned)
                          (gaussian_values_unsorted binned) R 0 (sort_end_bit grid) in
  let cleared := replicate (Z.to_nat (tile_count grid)) (Uint2 0 0) in
  let table := if 0 <? R then identifyTileRanges R (fst sorted) cleared else cleared in
  let feature := match colors_precomp with Some c => c | None => rgb end in
  ForwardOut R offsets (gaussian_keys_unsorted binned) (fst sorted) (snd sorted) table
    (render alpha_of feature grid table (snd sorted) width height background).

(** The distance from a chunk pointer to the next multiple of 128. *)
Definition padding (chunk : Z) : Z := (- chunk) mod 128.

(** Overwriting the entries [s, s + length new) of a list. *)
Definition splice {A : Type} (s : nat) (new l : list A) : list A :=
  take s l ++ new ++ drop (s + length new) l.

(** The key/value pairs of the expansion, primitive after primitive. *)
Definition all_pairs (grid : dim3) (geom : list gaussian) : list (Z * Z) :=
  flat_map (fun ig : nat * gaussian =>
              map (fun yx => (pack_key grid (g_depth (snd ig)) (fst yx) (snd yx),
                              Z.of_nat (fst ig)))
                  (instances grid (snd ig)))
           (imap pair geom).

(** The events of a call of [forward] that runs to its end and reads back
    [R] instances. *)
Definition forward_trace (scan_temp_bytes sort_temp_bytes : Z -> Z)
    (width height : Z) (P R : Z) : list event :=
  [Call_geometryBuffer (required scan_temp_bytes sort_temp_bytes Geometry (size_t_of_int P));
   Call_imageBuffer
     (required scan_temp_bytes sort_temp_bytes Image (size_t_of_int (width * height)));
   Launch_FORWARD_preprocess; Launch_InclusiveSum; Memcpy_num_rendered;
   Call_binningBuffer (required scan_temp_bytes sort_temp_bytes Binning (size_t_of_int R));
   Launch_duplicateWithKeys;
   Launch_SortPairs (sort_end_bit (tile_grid width height));
   Memset_ranges]
  ++ (if 0 <? R then [Launch_identifyTileRanges] else [])
  ++ [Launch_FORWARD_render].

(** The calls of [obtain] that [fromChunk] makes for each state type, in
    the order of the source: the element count and the element size of
    each field. *)
Definition layout (scan_temp_bytes sort_temp_bytes : Z -> Z) (T : state_type) (n : Z)
    : list (Z * Z) :=
  match T with
  | Geometry =>
      [(n, sizeof_float); (n * 3, sizeof_bool); (n, sizeof_int); (n, sizeof_float2);
       (n * 6, sizeof_float); (n, sizeof_float4); (n * 3, sizeof_float);
       (n, sizeof_uint32_t); (scan_temp_bytes n, sizeof_char); (n, sizeof_uint32_t)]
  | Image => [(n, sizeof_float); (n, sizeof_uint32_t); (n, sizeof_uint2)]
  | Binning =>
      [(n, sizeof_uint32_t); (n, sizeof_uint32_t); (n, sizeof_uint64_t);
       (n, sizeof_uint64_t); (sort_temp_bytes n, sizeof_char)]
  end.

(** A chain of calls of [obtain] on one cursor, at the alignment 128 that
    every call of [fromChunk] uses. *)
Fixpoint obtain_all (chunk : Z) (fields : list (Z * Z)) : list Z * Z :=
  match fields with
  | [] => ([], chunk)
  | (count, elt_size) :: rest =>
      let '(ptr, chunk) := obtain chunk count elt_size 128 in
      let '(ptrs, chunk) := obtain_all chunk rest in
      (ptr :: ptrs, chunk)
  end.

(** ** Sample inputs *)

(** A 16 x 16 image is one tile.  Two splats of radius 1 at its centre,
    the farther one (depth 2.0) first, and a splat that the projection
    stage has culled. *)
Definition bits_of_1_0 : Z := 0x3F800000.
Definition bits_of_2_0 : Z := 0x40000000.
Definition two_splats : list gaussian :=
  [Gaussian (Float2 8 8) bits_of_2_0 1 1; Gaussian (Float2 8 8) bits_of_1_0 1 1].
Definition culled_splat : list gaussian := [Gaussian (Float2 8 8) bits_of_1_0 0 0].
Definition no_temp : Z -> Z := fun _ => 0.
Definition half_alpha : Z -> Z -> Z -> Q := fun _ _ _ => (1 # 2)%Q.
Definition grey : Z -> list Q := fun _ => [(1 # 2)%Q; (1 # 2)%Q; (1 # 2)%Q].
Definition black : list Q := [0%Q; 0%Q; 0%Q].
Definition stale : nat -> Z := fun i => Z.of_nat i + 7.

(** Three sorted keys, two of tile 0 and one of tile 1; a frustum test
    that passes the even ranks; and a culled splat whose count is wrong
    and does not fit an [int]. *)
Definition sample_keys : list Z := [bits_of_1_0; bits_of_2_0; 2 ^ 32 + bits_of_1_0].
Definition even_rank : Z -> list Z -> unit -> unit -> bool -> bool :=
  fun idx _ _ _ _ => Z.even idx.
Definition overcounted_splat : list gaussian :=
  [Gaussian (Float2 8 8) bits_of_1_0 0 (2 ^ 31)].

(** * Proofs *)

(** ** [getHigherMsb] *)

Example getHigherMsb_1 : getHigherMsb 1 = 1.
Proof. reflexivity. Qed.

Example getHigherMsb_samples :
  map getHigherMsb [0; 1; 2; 3; 4; 255; 256; 2 ^ 31; 2 ^ 32 - 1]
  = [1; 1; 2; 2; 3; 8; 9; 32; 32].
Proof. reflexivity. Qed.

Lemma shiftr_zero_log2 (n k : Z) :
  0 < n -> (Z.shiftr n k =? 0) = (Z.log2 n <? k).
Proof.
  intros Hn.
  destruct (Z.eqb_spec (Z.shiftr n k) 0) as [E|E];
    destruct (Z.ltb_spec (Z.log2 n) k) as [L|L]; try reflexivity; exfalso.
  - apply Z.shiftr_eq_0_iff in E. lia.
  - apply E, Z.shiftr_eq_0_iff. right. lia.
Qed.

Lemma pow2pos_Z (k : nat) : Z.pos (pow2pos k) = 2 ^ Z.of_nat k.
Proof.
  induction k as [|k IH]; [reflexivity|].
  change (pow2pos (S k)) with (xO (pow2pos k)).
  rewrite Pos2Z.inj_xO, IH, Nat2Z.inj_succ, Z.pow_succ_r by lia. reflexivity.
Qed.

Lemma wrap32_small (z : Z) : 0 <= z < 2 ^ 32 -> wrap32 z = z.
Proof. apply Z.mod_small. Qed.

(** The loop is a binary search for the bit length [len] of [n]: with
    [step = 2^k] it keeps [msb - step < len <= msb + step]. *)
Lemma getHigherMsb_loop_bracket (n len : Z) (k : nat) :
  0 < n -> len = Z.log2 n + 1 ->
  forall msb,
    0 <= msb - 2 ^ Z.of_nat k -> msb + 2 ^ Z.of_nat k <= 32 ->
    msb - 2 ^ Z.of_nat k < len <= msb + 2 ^ Z.of_nat k ->
    let msb' := getHigherMsb_loop (pow2pos k) n msb in
    (msb' - 1 < len <= msb' + 1) /\ 1 <= msb' <= 31.
Proof.
  intros Hn Hlen. induction k as [|k IH]; intros msb Hlo Hhi Hin.
  - cbn in *. lia.
  - change (pow2pos (S k)) with (xO (pow2pos k)).
    cbn [getHigherMsb_loop]. rewrite pow2pos_Z.
    rewrite Nat2Z.inj_succ, Z.pow_succ_r in Hlo, Hhi, Hin by lia.
    assert (0 < 2 ^ Z.of_nat k) by (apply Z.pow_pos_nonneg; lia).
    rewrite (shiftr_zero_log2 n msb Hn).
    destruct (Z.ltb_spec (Z.log2 n) msb); cbn [negb];
      rewrite wrap32_small by lia; apply IH; lia.
Qed.

Lemma getHigherMsb_bit_length (n : Z) :
  0 < n < 2 ^ 32 -> getHigherMsb n = Z.log2 n + 1.
Proof.
  intros [Hpos Hlt].
  assert (Hlog : 0 <= Z.log2 n < 32).
  { split; [apply Z.log2_nonneg|]. apply Z.log2_lt_pow2; lia. }
  unfold getHigherMsb.
  change (Z.to_pos (4 * 4)) with (pow2pos 4). change (4 * 4) with 16.
  pose proof (getHigherMsb_loop_bracket n _ 4 Hpos eq_refl 16) as H.
  cbv zeta in H. change (2 ^ Z.of_nat 4) with 16 in H.
  destruct H as [H1 H2]; try lia.
  set (m := getHigherMsb_loop (pow2pos 4) n 16) in *.
  rewrite (shiftr_zero_log2 n m Hpos).
  destruct (Z.ltb_spec (Z.log2 n) m); cbn [negb];
    [|rewrite wrap32_small]; lia.
Qed.

Lemma tile_count_range (grid : dim3) : 0 <= tile_count grid < 2 ^ 32.
Proof. apply Z.mod_pos_bound. reflexivity. Qed.

(** On a tile count, an [unsigned], [getHigherMsb] is the bit length.
    ([Z.log2 0] is 0, and [getHigherMsb 0] is 1.) *)
Lemma getHigherMsb_tile_count (grid : dim3) :
  getHigherMsb (tile_count grid) = Z.log2 (tile_count grid) + 1.
Proof.
  pose proof (tile_count_range grid) as Hn.
  destruct (Z.eq_dec (tile_count grid) 0) as [E|E].
  - rewrite E. reflexivity.
  - apply getHigherMsb_bit_length. lia.
Qed.

(** C5, as amended.  The end bit [forward] hands to the radix sort is 32
    plus the bit length of the tile count [n = grid.x * grid.y], that is
    [32 + (floor(log2 n) + 1)], one more than 32 plus the position of the
    highest set bit: the bits above the 32 depth bits are just enough to
    hold [n], [2^(bit-1) <= n < 2^bit].  ([Z.log2 0] is 0: an empty grid
    gets 33 bits.) *)
Theorem sort_end_bit_bit_length (grid : dim3) :
  let n := tile_count grid in
  sort_end_bit grid = 32 + (Z.log2 n + 1) /\
  (n = 0 \/ 2 ^ (sort_end_bit grid - 33) <= n < 2 ^ (sort_end_bit grid - 32)).
Proof.
  intros n. pose proof (tile_count_range grid) as Hn. fold n in Hn.
  assert (Hbits : sort_end_bit grid = 32 + (Z.log2 n + 1)).
  { unfold sort_end_bit. fold n. destruct (Z.eq_dec n 0) as [E|E].
    - rewrite E. reflexivity.
    - rewrite getHigherMsb_bit_length by lia. reflexivity. }
  split; [exact Hbits|].
  destruct (Z.eq_dec n 0) as [E|E]; [left; exact E|right].
  destruct (Z.log2_spec n ltac:(lia)) as [Hlo Hhi].
  rewrite Hbits.
  replace (32 + (Z.log2 n + 1) - 33) with (Z.log2 n) by lia.
  replace (32 + (Z.log2 n + 1) - 32) with (Z.succ (Z.log2 n)) by lia.
  split; assumption.
Qed.

(** C5, as stated, fails on a 16 x 16 image, whose grid is one tile: the
    product is 1, its highest set bit is bit 0, and the sort is given 33
    bits, not 32. *)
Lemma sort_end_bit_single_tile :
  gx (tile_grid 16 16) * gy (tile_grid 16 16) = 1 /\
  sort_end_bit (tile_grid 16 16) = 33 /\
  sort_end_bit (tile_grid 16 16)
    <> 32 + Z.log2 (gx (tile_grid 16 16) * gy (tile_grid 16 16)).
Proof. repeat split. intros H. discriminate H. Qed.

(** ** The model on small inputs *)

(** The example in the comment of [forward]. *)
Example InclusiveSum_sample : InclusiveSum [2; 3; 0; 2; 1] = [2; 5; 5; 7; 8].
Proof. reflexivity. Qed.

(** The running total wraps at [2^32]. *)
Example InclusiveSum_wraps : InclusiveSum [2 ^ 31; 2 ^ 31; 1] = [2 ^ 31; 0; 1].
Proof. reflexivity. Qed.

(** A splat of radius 1 at the centre of the single tile of a 16 x 16
    image, and one of radius 20 at the corner of four tiles of a 32 x 32
    image. *)
Example getRect_one_tile :
  getRect (Float2 8 8) 1 (tile_grid 16 16) = (Uint2 0 0, Uint2 1 1).
Proof. reflexivity. Qed.

Example getRect_four_tiles :
  getRect (Float2 16 16) 20 (tile_grid 32 32) = (Uint2 0 0, Uint2 2 2).
Proof. reflexivity. Qed.

Example f32_value_samples :
  (f32_value bits_of_1_0 == 1)%Q /\ (f32_value bits_of_2_0 == 2)%Q /\
  (f32_value 0 == 0)%Q /\ (f32_value 0x3F000000 == 1 # 2)%Q.
Proof. repeat split. Qed.

(** The sort looks at the low [end_bit] bits only. *)
Example SortPairs_sample :
  SortPairs [5; 2 ^ 32 + 1; 3] [0; 1; 2] 3 0 33 = ([3; 5; 2 ^ 32 + 1], [2; 0; 1]) /\
  SortPairs [5; 2 ^ 32 + 1; 3] [0; 1; 2] 3 0 32 = ([2 ^ 32 + 1; 3; 5], [1; 2; 0]).
Proof. split; reflexivity. Qed.

(** The two sample splats share the tile: the nearer one, primitive 1,
    comes first in the sorted list, and the tile gets the range [0, 2). *)
Example forward_two_splats :
  match snd (forward no_temp no_temp 3 half_alpha 16 16 black None grey two_splats
               stale []) with
  | inr out =>
      num_rendered out = 2 /\ point_offsets out = [1; 2] /\
      point_list_keys_unsorted out = [bits_of_2_0; bits_of_1_0] /\
      point_list_keys out = [bits_of_1_0; bits_of_2_0] /\
      point_list out = [1; 0] /\ ranges out = [Uint2 0 2]
  | inl _ => False
  end.
Proof. vm_compute. repeat split. Qed.

(** ** The read-back of the instance count *)

Lemma length_InclusiveSum_from (acc : Z) (d_in : list Z) :
  length (InclusiveSum_from acc d_in) = length d_in.
Proof.
  revert acc. induction d_in as [|c rest IH]; intros acc; cbn; [|rewrite IH]; reflexivity.
Qed.

Lemma length_InclusiveSum (d_in : list Z) : length (InclusiveSum d_in) = length d_in.
Proof. apply length_InclusiveSum_from. Qed.


Lemma config_test_passes (NUM_CHANNELS : Z) (colors_precomp : option (Z -> list Q)) :
  config_ok NUM_CHANNELS colors_precomp ->
  negb (NUM_CHANNELS =? 3) && negb (bool_decide (is_Some colors_precomp)) = false.
Proof.
  intros [->|H]; [reflexivity|].
  rewrite (bool_decide_eq_true_2 _ H). apply andb_false_r.
Qed.

Lemma config_test_fails (NUM_CHANNELS : Z) (colors_precomp : option (Z -> list Q)) :
  NUM_CHANNELS <> 3 -> colors_precomp = None ->
  negb (NUM_CHANNELS =? 3) && negb (bool_decide (is_Some colors_precomp)) = true.
Proof.
  intros Hn ->. apply Z.eqb_neq in Hn. rewrite Hn. reflexivity.
Qed.

Section ForwardRuns.

Variable scan_temp_bytes : Z -> Z.
Variable sort_temp_bytes : Z -> Z.
Variable NUM_CHANNELS : Z.
Variable alpha_of : Z -> Z -> Z -> Q.

Variables (width height : Z) (background : list Q).
Variables (colors_precomp : option (Z -> list Q)) (rgb : Z -> list Q).
Variables (geom : list gaussian) (garbage : nat -> Z).

Let run := forward scan_temp_bytes sort_temp_bytes NUM_CHANNELS alpha_of
             width height background colors_precomp rgb geom garbage [].
Let P := Z.of_nat (length geom).
Let offsets := InclusiveSum (map g_tiles_touched geom).

Lemma forward_config_error :
  NUM_CHANNELS <> 3 -> colors_precomp = None ->
  run = ([Call_geometryBuffer
            (required scan_temp_bytes sort_temp_bytes Geometry (size_t_of_int P));
          Call_imageBuffer
            (required scan_temp_bytes sort_temp_bytes Image
               (size_t_of_int (width * height)))],
         inl (runtime_error "For non-RGB, provide precomputed Gaussian colors!")).
Proof.
  intros Hn Hc. unfold run, forward, bind, dispatch, throw, ret.
  cbn [app]. rewrite (config_test_fails _ _ Hn Hc). reflexivity.
Qed.


Lemma forward_done (R : Z) :
  config_ok NUM_CHANNELS colors_precomp ->
  memcpy_int offsets (P - 1) = Some R ->
  stores_in_range geom offsets (tile_grid width height) R = true ->
  (0 < R -> tiles_in_range (point_list_keys (forward_result alpha_of width height background
                                             colors_precomp rgb geom garbage R))
                           (tile_count (tile_grid width height)) = true) ->
  snd run = inr (forward_result alpha_of width height background colors_precomp rgb
                   geom garbage R) /\
  Forall (fun e => e <> Launch_identifyTileRanges \/ 0 < R) (fst run).
Proof.
  intros Hc Hm Hs Ht. unfold forward_result in *. cbn [point_list_keys] in Ht.
  unfold run, offsets, P in *. clear run offsets P.
  unfold forward, check, bind, dispatch, throw, ret.
  cbn [app]. rewrite (config_test_passes _ _ Hc). cbn [app].
  rewrite Hm, Hs. cbn [app].
  destruct (Z.ltb_spec 0 R) as [Hpos|Hzero].
  - cbn [app]. rewrite (Ht Hpos). cbn [app snd fst]. split; [reflexivity|].
    repeat (constructor; [first [left; discriminate | right; assumption]|]).
    constructor.
  - cbn [app snd fst]. split; [reflexivity|].
    repeat (constructor; [left; discriminate|]). constructor.
Qed.

(** Whenever [forward] returns, the read-back found its entry and the
    result is [forward_result] at the value read. *)
Lemma forward_returns_inv (out : forward_out) :
  snd run = inr out ->
  exists R, memcpy_int offsets (P - 1) = Some R /\
            out = forward_result alpha_of width height background colors_precomp rgb
                    geom garbage R.
Proof.
  assert (Hinj : forall a b : forward_out, @inr error _ a = inr b -> b = a)
    by (intros a b [= ->]; reflexivity).
  unfold forward_result. unfold run, offsets, P. clear run offsets P.
  unfold forward, check, bind, dispatch, throw, ret. cbn [app].
  destruct (negb (NUM_CHANNELS =? 3) && negb (bool_decide (is_Some colors_precomp)));
    cbn [app snd]; [discriminate|].
  destruct (memcpy_int _ _) as [R|]; cbn [app snd]; [|discriminate].
  destruct (stores_in_range _ _ _ _); cbn [app snd]; [|discriminate].
  destruct (0 <? R) eqn:E; cbn [app snd].
  - destruct (tiles_in_range _ _); cbn [app snd]; [|discriminate].
    intros H. exists R. split; [reflexivity|]. rewrite E. exact (Hinj _ _ H).
  - intros H. exists R. split; [reflexivity|]. rewrite E. exact (Hinj _ _ H).
Qed.

End ForwardRuns.

(** ** [duplicateWithKeys]: what one thread stores *)

Lemma elem_of_for_range (lo hi i : Z) : i ∈ for_range lo hi <-> lo <= i < hi.
Proof. unfold for_range. rewrite elem_of_seqZ. lia. Qed.

(** The inner loop appends to the part of the arrays that is already
    written: with [off] entries before the cursor, the [length xs] entries
    after it are overwritten in order. *)
Lemma emit_row (grid : dim3) (depth : Z) (idx : nat) (y : Z) (xs : list Z) :
  forall (pre_k rest_k pre_v rest_v : list Z) (off : Z),
    off = Z.of_nat (length pre_k) -> length pre_v = length pre_k ->
    (length xs <= length rest_k)%nat -> (length xs <= length rest_v)%nat ->
    off + Z.of_nat (length xs) < 2 ^ 32 ->
    foldl (emit grid depth idx y) (Unsorted (pre_k ++ rest_k) (pre_v ++ rest_v), off) xs
    = (Unsorted (pre_k ++ map (pack_key grid depth y) xs ++ drop (length xs) rest_k)
                (pre_v ++ replicate (length xs) (Z.of_nat idx) ++ drop (length xs) rest_v),
       off + Z.of_nat (length xs)).
Proof.
  induction xs as [|x xs IH]; intros pre_k rest_k pre_v rest_v off Hoff Hlen Hk Hv Hfit.
  - cbn. rewrite Z.add_0_r. reflexivity.
  - destruct rest_k as [|k rest_k]; [cbn in Hk; lia|].
    destruct rest_v as [|v rest_v]; [cbn in Hv; lia|].
    cbn [foldl emit gaussian_keys_unsorted gaussian_values_unsorted].
    assert (Hk0 : Z.to_nat off = (length pre_k + 0)%nat) by (clear - Hoff; lia).
    assert (Hv0 : Z.to_nat off = (length pre_v + 0)%nat) by (clear - Hoff Hlen; lia).
    rewrite Hk0 at 1. rewrite Hv0. rewrite !insert_app_r. cbn [list_insert insert].
    rewrite wrap32_small by (cbn [length] in Hfit; lia).
    change (pre_k ++ ?a :: rest_k) with (pre_k ++ [a] ++ rest_k).
    change (pre_v ++ ?a :: rest_v) with (pre_v ++ [a] ++ rest_v).
    rewrite !(assoc_L app pre_k), !(assoc_L app pre_v).
    cbn [length] in *.
    rewrite IH; rewrite ?length_app; cbn [length]; try lia.
    rewrite <- !(assoc_L app). cbn [app map replicate drop].
    f_equal. lia.
Qed.

(** The two loops together visit the cells of the rectangle row by row. *)
Lemma emit_rect (grid : dim3) (depth : Z) (idx : nat) (xs ys : list Z) :
  forall (pre_k rest_k pre_v rest_v : list Z) (off : Z),
    let cells := flat_map (fun y => map (fun x => (y, x)) xs) ys in
    off = Z.of_nat (length pre_k) -> length pre_v = length pre_k ->
    (length cells <= length rest_k)%nat -> (length cells <= length rest_v)%nat ->
    off + Z.of_nat (length cells) < 2 ^ 32 ->
    foldl (fun st y => foldl (emit grid depth idx y) st xs)
          (Unsorted (pre_k ++ rest_k) (pre_v ++ rest_v), off) ys
    = (Unsorted (pre_k ++ map (fun yx => pack_key grid depth (fst yx) (snd yx)) cells
                       ++ drop (length cells) rest_k)
                (pre_v ++ replicate (length cells) (Z.of_nat idx)
                       ++ drop (length cells) rest_v),
       off + Z.of_nat (length cells)).
Proof.
  induction ys as [|y ys IH]; intros pre_k rest_k pre_v rest_v off cells Hoff Hlen Hk Hv Hfit.
  - cbn. rewrite Z.add_0_r. reflexivity.
  - subst cells. cbn [flat_map foldl] in *.
    rewrite length_app, length_map in Hk, Hv, Hfit.
    rewrite emit_row by (try assumption; lia).
    rewrite !(assoc_L app pre_k), !(assoc_L app pre_v).
    rewrite IH; rewrite ?length_app, ?length_map, ?length_replicate, ?length_drop;
      try lia.
    rewrite ?length_app, ?length_map, ?drop_drop, ?replicate_add, ?map_app, ?map_map.
    cbn [fst snd]. rewrite <- !(assoc_L app). f_equal. lia.
Qed.

(** One thread overwrites the entries [start, start + n) of both arrays,
    [n] being the number of cells of its rectangle, and nothing else. *)
Lemma duplicateWithKeys_thread_stores (geom : list gaussian) (offsets : list Z)
    (grid : dim3) (b : unsorted) (idx : nat) (g : gaussian) :
  geom !! idx = Some g ->
  let start := Z.to_nat (start_offset offsets idx) in
  let n := length (instances grid g) in
  0 <= start_offset offsets idx ->
  (start + n <= length (gaussian_keys_unsorted b))%nat ->
  length (gaussian_values_unsorted b) = length (gaussian_keys_unsorted b) ->
  Z.of_nat (start + n) < 2 ^ 32 ->
  duplicateWithKeys_thread geom offsets grid b idx
  = Unsorted (take start (gaussian_keys_unsorted b) ++ instance_keys grid g
                ++ drop (start + n) (gaussian_keys_unsorted b))
             (take start (gaussian_values_unsorted b) ++ replicate n (Z.of_nat idx)
                ++ drop (start + n) (gaussian_values_unsorted b)).
Proof.
  intros Hg start n Hstart Hroom Hlen Hfit. destruct b as [keys vals]. cbn in *.
  unfold duplicateWithKeys_thread. rewrite Hg.
  subst n. unfold instance_keys, instances in *.
  destruct (Z.ltb_spec 0 (g_radius g)) as [Hr|Hr].
  - destruct (getRect (g_xy g) (g_radius g) grid) as [rect_min rect_max].
    unfold rect_tiles in *.
    rewrite <- (take_drop start keys) at 1. rewrite <- (take_drop start vals) at 1.
    rewrite emit_rect; rewrite ?length_take, ?length_drop; try lia.
    cbn [fst]. rewrite !drop_drop. reflexivity.
  - cbn. rewrite Nat.add_0_r, !take_drop. reflexivity.
Qed.

Lemma getRect_clamped (p : float2) (max_radius : Z) (grid : dim3) :
  0 <= gx grid -> 0 <= gy grid ->
  let rect := getRect p max_radius grid in
  (0 <= ux (fst rect) <= gx grid /\ 0 <= uy (fst rect) <= gy grid) /\
  (0 <= ux (snd rect) <= gx grid /\ 0 <= uy (snd rect) <= gy grid).
Proof. intros Hx Hy. unfold getRect. cbn. lia. Qed.

Lemma elem_of_rect_tiles (rect_min rect_max : uint2) (y x : Z) :
  (y, x) ∈ rect_tiles rect_min rect_max
  <-> uy rect_min <= y < uy rect_max /\ ux rect_min <= x < ux rect_max.
Proof.
  unfold rect_tiles. rewrite list_elem_of_In, in_flat_map. split.
  - intros (y' & Hy & Hx). apply in_map_iff in Hx as (x' & [= -> ->] & Hx).
    rewrite <- list_elem_of_In, elem_of_for_range in Hy, Hx. lia.
  - intros [Hy Hx]. exists y. rewrite in_map_iff. split.
    + apply list_elem_of_In, elem_of_for_range, Hy.
    + exists x. split; [reflexivity|]. apply list_elem_of_In, elem_of_for_range, Hx.
Qed.

Lemma NoDup_for_range (lo hi : Z) : NoDup (for_range lo hi).
Proof. apply NoDup_seqZ. Qed.

Lemma NoDup_rect_tiles (rect_min rect_max : uint2) :
  NoDup (rect_tiles rect_min rect_max).
Proof.
  unfold rect_tiles.
  generalize (NoDup_for_range (uy rect_min) (uy rect_max)).
  generalize (for_range (uy rect_min) (uy rect_max)) as ys.
  induction ys as [|y ys IH]; intros Hnd; cbn [flat_map]; [constructor|].
  apply NoDup_cons in Hnd as [Hy Hnd]. apply NoDup_app. split; [|split].
  - apply NoDup_fmap_2; [intros ? ? [=]; assumption|apply NoDup_for_range].
  - intros [y' x'] Hin Hin'. apply list_elem_of_In, in_map_iff in Hin as (? & [= <- <-] & _).
    apply list_elem_of_In, in_flat_map in Hin' as (y'' & Hy'' & Hx'').
    apply in_map_iff in Hx'' as (? & [= -> _] & _).
    apply Hy, list_elem_of_In, Hy''.
  - apply IH, Hnd.
Qed.

Lemma pack_key_formula (grid : dim3) (depth y x : Z) :
  0 <= y * gx grid -> 0 <= x -> y * gx grid + x < 2 ^ 32 ->
  pack_key grid depth y x = Z.lor (Z.shiftl (y * gx grid + x) 32) depth.
Proof.
  intros Hy Hx Ht. unfold pack_key.
  rewrite (wrap32_small (y * gx grid)) by lia. rewrite wrap32_small by lia.
  unfold wrap64. rewrite Z.mod_small; [reflexivity|].
  rewrite Z.shiftl_mul_pow2 by lia. lia.
Qed.

Lemma cell_tile_range (grid : dim3) (gy' y x : Z) :
  0 <= y < gy' -> 0 <= x < gx grid -> gy' <= gy grid ->
  0 <= y * gx grid /\ 0 <= y * gx grid + x < gx grid * gy grid.
Proof. intros Hy Hx Hg. nia. Qed.

(** C3.  Instance expansion, thread [idx] of [duplicateWithKeys] on the
    primitive [g]:
    - its first store goes to [offsets[idx-1]], or to 0 when [idx] is 0;
    - with a radius <= 0 it leaves both arrays as they are;
    - with a radius > 0, the rectangle is [getRect]'s, clamped to the
      grid; every cell of it is visited once; and the thread overwrites
      the entries [start, start + n) of both arrays, in the order of the
      cells, with the key [(tile << 32) | depth bits] for the tile
      [y * grid.x + x] and with the value [idx], and nothing else.
    The grid is one whose sides fit an [int] and whose tile count fits an
    [unsigned], and the arrays have fewer than [2^32] entries. *)
Theorem duplicateWithKeys_thread_spec (geom : list gaussian) (offsets : list Z)
    (grid : dim3) (b : unsorted) (idx : nat) (g : gaussian) :
  geom !! idx = Some g ->
  0 <= gx grid <= INT_MAX -> 0 <= gy grid <= INT_MAX -> gx grid * gy grid < 2 ^ 32 ->
  let keys := gaussian_keys_unsorted b in
  let vals := gaussian_values_unsorted b in
  let start := start_offset offsets idx in
  let rect := getRect (g_xy g) (g_radius g) grid in
  let cells := rect_tiles (fst rect) (snd rect) in
  let n := length cells in
  (idx = 0%nat -> start = 0) /\
  (forall i o, idx = S i -> offsets !! i = Some o -> start = o) /\
  (g_radius g <= 0 -> duplicateWithKeys_thread geom offsets grid b idx = b) /\
  (0 < g_radius g ->
     (0 <= ux (fst rect) <= gx grid /\ 0 <= uy (fst rect) <= gy grid) /\
     (0 <= ux (snd rect) <= gx grid /\ 0 <= uy (snd rect) <= gy grid) /\
     (forall y x, (y, x) ∈ cells <->
                  uy (fst rect) <= y < uy (snd rect) /\
                  ux (fst rect) <= x < ux (snd rect)) /\
     NoDup cells /\
     (0 <= start -> start + Z.of_nat n <= Z.of_nat (length keys) ->
      length vals = length keys -> Z.of_nat (length keys) < 2 ^ 32 ->
      duplicateWithKeys_thread geom offsets grid b idx
      = Unsorted
          (take (Z.to_nat start) keys
             ++ map (fun yx => Z.lor (Z.shiftl (fst yx * gx grid + snd yx) 32) (g_depth g))
                    cells
             ++ drop (Z.to_nat start + n) keys)
          (take (Z.to_nat start) vals
             ++ replicate n (Z.of_nat idx)
             ++ drop (Z.to_nat start + n) vals))).
Proof.
  intros Hg [Hgx _] [Hgy _] Hfit keys vals start rect cells n.
  pose proof (getRect_clamped (g_xy g) (g_radius g) grid Hgx Hgy) as Hclamp.
  fold rect in Hclamp. destruct Hclamp as [Hmin Hmax].
  split; [|split; [|split]].
  - intros ->. reflexivity.
  - intros i o -> Ho. subst start. unfold start_offset. cbn.
    rewrite Nat.sub_0_r, Ho. reflexivity.
  - intros Hr. destruct b as [ks vs]. unfold duplicateWithKeys_thread.
    rewrite Hg. destruct (Z.ltb_spec 0 (g_radius g)); [lia|reflexivity].
  - intros Hr. split; [exact Hmin|]. split; [exact Hmax|].
    split; [intros y x; apply elem_of_rect_tiles|].
    split; [apply NoDup_rect_tiles|].
    intros Hstart Hroom Hlen Hsmall.
    assert (Hinst : instances grid g = cells).
    { unfold instances. destruct (Z.ltb_spec 0 (g_radius g)); [|lia].
      subst cells rect. destruct (getRect _ _ _). reflexivity. }
    rewrite (duplicateWithKeys_thread_stores geom offsets grid b idx g Hg);
      rewrite ?Hinst; fold keys vals n; try lia.
    unfold instance_keys. rewrite Hinst. f_equal. f_equal. f_equal.
    apply map_ext_in. intros [y x] Hin.
    apply list_elem_of_In, elem_of_rect_tiles in Hin. cbn [fst snd].
    destruct (cell_tile_range grid (uy (snd rect)) y x) as [H1 H2]; try lia.
    apply pack_key_formula; lia.
Qed.

(** ** The prefix sum *)

Lemma Zsum_cons (c : Z) (l : list Z) : Zsum (c :: l) = c + Zsum l.
Proof. reflexivity. Qed.

Lemma Zsum_app (l k : list Z) : Zsum (l ++ k) = Zsum l + Zsum k.
Proof. induction l as [|a l IH]; unfold Zsum in *; cbn [app foldr]; lia. Qed.

Lemma Zsum_nonneg (l : list Z) : Forall (fun c => 0 <= c) l -> 0 <= Zsum l.
Proof. induction 1; unfold Zsum in *; cbn [foldr]; lia. Qed.

(** While the running total stays below [2^32], entry [i] of the scan
    is the sum of the first [i + 1] counts. *)
Lemma InclusiveSum_from_lookup (d_in : list Z) :
  forall (acc : Z) (i : nat),
    0 <= acc -> Forall (fun c => 0 <= c) d_in -> acc + Zsum d_in < 2 ^ 32 ->
    (i < length d_in)%nat ->
    InclusiveSum_from acc d_in !! i = Some (acc + Zsum (take (S i) d_in)).
Proof.
  induction d_in as [|c rest IH]; intros acc i Hacc Hpos Hfit Hi; [cbn in Hi; lia|].
  apply Forall_cons in Hpos as [Hc Hpos]. pose proof (Zsum_nonneg rest Hpos).
  rewrite Zsum_cons in Hfit. cbn [InclusiveSum_from].
  rewrite wrap32_small by lia.
  destruct i as [|i]; cbn [lookup list_lookup take]; rewrite Zsum_cons.
  - rewrite take_0. f_equal. cbn. lia.
  - rewrite IH; cbn [length] in *; try lia; try assumption.
    f_equal. lia.
Qed.

Lemma InclusiveSum_lookup (d_in : list Z) (i : nat) :
  Forall (fun c => 0 <= c) d_in -> Zsum d_in < 2 ^ 32 -> (i < length d_in)%nat ->
  InclusiveSum d_in !! i = Some (Zsum (take (S i) d_in)).
Proof.
  intros Hpos Hfit Hi. unfold InclusiveSum.
  rewrite InclusiveSum_from_lookup; try assumption; try lia. reflexivity.
Qed.

(** ** The whole expansion *)

Lemma length_instance_keys (grid : dim3) (g : gaussian) :
  length (instance_keys grid g) = length (instances grid g).
Proof. apply length_map. Qed.

Lemma length_all_keys (grid : dim3) (geom : list gaussian) :
  length (all_keys grid geom) = instance_count grid geom.
Proof.
  unfold all_keys, instance_count.
  induction geom as [|g geom IH]; [reflexivity|].
  cbn [flat_map]. rewrite !length_app, IH, length_instance_keys. reflexivity.
Qed.

Lemma length_all_values_from (grid : dim3) (geom : list gaussian) (f : nat -> nat) :
  length (flat_map (fun ig : nat * gaussian =>
                      replicate (length (instances grid (snd ig))) (Z.of_nat (fst ig)))
                   (imap (fun i g => (f i, g)) geom))
  = instance_count grid geom.
Proof.
  unfold instance_count. revert f.
  induction geom as [|g geom IH]; intros f; [reflexivity|].
  cbn [imap flat_map fst snd]. rewrite !length_app, length_replicate.
  f_equal. apply (IH (f ∘ S)).
Qed.

Lemma length_all_values (grid : dim3) (geom : list gaussian) :
  length (all_values grid geom) = instance_count grid geom.
Proof. apply (length_all_values_from grid geom id). Qed.

Lemma instance_count_app (grid : dim3) (l k : list gaussian) :
  instance_count grid (l ++ k) = (instance_count grid l + instance_count grid k)%nat.
Proof. unfold instance_count. rewrite flat_map_app, length_app. reflexivity. Qed.

Lemma Zsum_tiles_touched (grid : dim3) (geom : list gaussian) :
  preprocess_ok grid geom ->
  Zsum (map g_tiles_touched geom) = Z.of_nat (instance_count grid geom).
Proof.
  unfold instance_count. induction 1 as [|g geom Hg _ IH]; [reflexivity|].
  cbn [map flat_map]. rewrite Zsum_cons, IH, Hg, length_app. lia.
Qed.

Lemma tiles_touched_nonneg (grid : dim3) (geom : list gaussian) :
  preprocess_ok grid geom -> Forall (fun c => 0 <= c) (map g_tiles_touched geom).
Proof.
  intros H. apply Forall_fmap. eapply Forall_impl; [exact H|].
  intros g Hg. cbn. rewrite Hg. lia.
Qed.

Lemma preprocess_ok_take (grid : dim3) (geom : list gaussian) (n : nat) :
  preprocess_ok grid geom -> preprocess_ok grid (take n geom).
Proof. apply Forall_take. Qed.

Lemma instance_count_take_le (grid : dim3) (geom : list gaussian) (n : nat) :
  (instance_count grid (take n geom) <= instance_count grid geom)%nat.
Proof.
  rewrite <- (take_drop n geom) at 2. rewrite instance_count_app. lia.
Qed.

(** Under the contract of the projection stage, the thread of primitive
    [idx] starts where the pairs of the primitives before it end. *)
Lemma start_offset_instances (grid : dim3) (geom : list gaussian) (idx : nat) :
  preprocess_ok grid geom ->
  Z.of_nat (instance_count grid geom) < 2 ^ 32 ->
  (idx < length geom)%nat ->
  start_offset (InclusiveSum (map g_tiles_touched geom)) idx
  = Z.of_nat (instance_count grid (take idx geom)).
Proof.
  intros Hok Hfit Hidx. unfold start_offset.
  destruct idx as [|i]; [reflexivity|]. cbn [Nat.eqb].
  rewrite Nat.sub_succ, Nat.sub_0_r.
  rewrite InclusiveSum_lookup.
  - cbn [default]. change map with (@fmap list _) at 1.
    rewrite <- fmap_take. apply Zsum_tiles_touched, preprocess_ok_take, Hok.
  - apply (tiles_touched_nonneg grid), Hok.
  - rewrite (Zsum_tiles_touched grid) by exact Hok. exact Hfit.
  - rewrite length_map. lia.
Qed.

Lemma all_keys_snoc (grid : dim3) (l : list gaussian) (g : gaussian) :
  all_keys grid (l ++ [g]) = all_keys grid l ++ instance_keys grid g.
Proof. unfold all_keys. rewrite flat_map_app. cbn. rewrite app_nil_r. reflexivity. Qed.

Lemma all_values_snoc (grid : dim3) (l : list gaussian) (g : gaussian) :
  all_values grid (l ++ [g])
  = all_values grid l ++ replicate (length (instances grid g)) (Z.of_nat (length l)).
Proof.
  unfold all_values. rewrite imap_app, flat_map_app. cbn.
  rewrite app_nil_r, Nat.add_0_r. reflexivity.
Qed.

(** After the threads [0 .. n-1], the arrays hold the pairs of the first
    [n] primitives, in order, followed by what was there before. *)
Lemma duplicateWithKeys_prefix (grid : dim3) (geom : list gaussian)
    (keys0 vals0 : list Z) (n : nat) :
  preprocess_ok grid geom ->
  Z.of_nat (instance_count grid geom) < 2 ^ 32 ->
  length keys0 = instance_count grid geom ->
  length vals0 = instance_count grid geom ->
  (n <= length geom)%nat ->
  foldl (duplicateWithKeys_thread geom (InclusiveSum (map g_tiles_touched geom)) grid)
        (Unsorted keys0 vals0) (seq 0 n)
  = Unsorted (all_keys grid (take n geom)
                ++ drop (instance_count grid (take n geom)) keys0)
             (all_values grid (take n geom)
                ++ drop (instance_count grid (take n geom)) vals0).
Proof.
  intros Hok Hfit Hk Hv. induction n as [|n IH]; intros Hn.
  - cbn. rewrite take_0. reflexivity.
  - rewrite seq_S, foldl_app, IH by lia. cbn [foldl Nat.add].
    destruct (lookup_lt_is_Some_2 geom n) as [g Hg]; [lia|].
    pose proof (instance_count_take_le grid geom (S n)) as Hle.
    rewrite (take_S_r _ _ _ Hg) in *. rewrite instance_count_app in *.
    assert (Hg1 : instance_count grid [g] = length (instances grid g)).
    { unfold instance_count. cbn. rewrite app_nil_r. reflexivity. }
    rewrite Hg1 in *.
    rewrite (duplicateWithKeys_thread_stores _ _ grid _ n g Hg);
      rewrite ?(start_offset_instances grid geom n Hok Hfit) by lia;
      cbn [gaussian_keys_unsorted gaussian_values_unsorted];
      rewrite ?length_app, ?length_drop, ?length_all_keys, ?length_all_values, ?Nat2Z.id;
      try lia.
    rewrite all_keys_snoc, all_values_snoc, length_take_le by lia.
    rewrite !take_app_length', !drop_app_add', !drop_drop
      by (rewrite ?length_all_keys, ?length_all_values; lia).
    rewrite <- !(assoc_L app). reflexivity.
Qed.

(** The launch of [forward] fills both arrays completely: whatever they
    held before, they end up holding the pairs of the expansion. *)
Lemma duplicateWithKeys_fills (grid : dim3) (geom : list gaussian)
    (keys0 vals0 : list Z) :
  preprocess_ok grid geom ->
  Z.of_nat (instance_count grid geom) < 2 ^ 32 ->
  length keys0 = instance_count grid geom ->
  length vals0 = instance_count grid geom ->
  duplicateWithKeys (length geom) geom (InclusiveSum (map g_tiles_touched geom))
                    (Unsorted keys0 vals0) grid
  = Unsorted (all_keys grid geom) (all_values grid geom).
Proof.
  intros Hok Hfit Hk Hv. unfold duplicateWithKeys.
  rewrite duplicateWithKeys_prefix by (try assumption; lia).
  rewrite take_ge by lia. rewrite !drop_ge by lia. rewrite !app_nil_r. reflexivity.
Qed.

(** ** The radix sort *)

Lemma mod_pow2_next_bit (a b : Z) :
  0 <= b ->
  a mod 2 ^ (b + 1) = a mod 2 ^ b + (if Z.testbit a b then 2 ^ b else 0).
Proof.
  intros Hb. assert (0 < 2 ^ b) by (apply Z.pow_pos_nonneg; lia).
  rewrite Z.pow_add_r, Z.pow_1_r by lia.
  rewrite Z.rem_mul_r by lia.
  rewrite Z.testbit_odd, Z.shiftr_div_pow2, Zmod_odd by lia.
  destruct (Z.odd (a / 2 ^ b)); lia.
Qed.

Lemma StronglySorted_filter {A} (R : A -> A -> Prop) (f : A -> bool) (l : list A) :
  StronglySorted R l -> StronglySorted R (List.filter f l).
Proof.
  induction 1 as [|a l Hs IH Ha]; cbn [List.filter]; [constructor|].
  destruct (f a); [|exact IH]. constructor; [exact IH|].
  rewrite List.Forall_forall in *. intros x Hx.
  apply filter_In in Hx as [Hx _]. apply Ha, Hx.
Qed.

Lemma StronglySorted_impl_In {A} (R R' : A -> A -> Prop) (l : list A) :
  (forall a b, In a l -> In b l -> R a b -> R' a b) ->
  StronglySorted R l -> StronglySorted R' l.
Proof.
  intros Himp Hs. induction Hs as [|a l Hs IH Ha]; [constructor|].
  constructor.
  - apply IH. intros x y Hx Hy. apply Himp; right; assumption.
  - rewrite List.Forall_forall in *. intros x Hx.
    apply Himp; [left; reflexivity|right; exact Hx|apply Ha, Hx].
Qed.

Lemma radix_pass_sorted (items : list (Z * Z)) (b : Z) :
  0 <= b -> StronglySorted (low_le b) items ->
  StronglySorted (low_le (b + 1)) (radix_pass items b).
Proof.
  intros Hb Hs. unfold radix_pass.
  assert (Hpow : 0 < 2 ^ b) by (apply Z.pow_pos_nonneg; lia).
  apply StronglySorted_app_2.
  - intros x1 x2 H1 H2.
    apply list_elem_of_In, filter_In in H1 as [_ H1].
    apply list_elem_of_In, filter_In in H2 as [_ H2].
    unfold low_le, key_bit in *. rewrite !mod_pow2_next_bit by lia.
    apply negb_true_iff in H1. rewrite H1, H2.
    pose proof (Z.mod_pos_bound (fst x1) (2 ^ b) Hpow).
    pose proof (Z.mod_pos_bound (fst x2) (2 ^ b) Hpow). lia.
  - eapply StronglySorted_impl_In; [|apply StronglySorted_filter, Hs].
    intros x y Hx Hy Hxy.
    apply filter_In in Hx as [_ Hx]. apply filter_In in Hy as [_ Hy].
    unfold low_le, key_bit in *. rewrite !mod_pow2_next_bit by lia.
    apply negb_true_iff in Hx, Hy. rewrite Hx, Hy. lia.
  - eapply StronglySorted_impl_In; [|apply StronglySorted_filter, Hs].
    intros x y Hx Hy Hxy.
    apply filter_In in Hx as [_ Hx]. apply filter_In in Hy as [_ Hy].
    unfold low_le, key_bit in *. rewrite !mod_pow2_next_bit by lia.
    rewrite Hx, Hy. lia.
Qed.

Lemma radix_pass_perm (items : list (Z * Z)) (b : Z) :
  Permutation (radix_pass items b) items.
Proof.
  unfold radix_pass. induction items as [|a items IH]; [constructor|].
  cbn [List.filter]. destruct (key_bit b a); cbn [negb app].
  - symmetry. apply Permutation_cons_app. symmetry. exact IH.
  - constructor. exact IH.
Qed.

Lemma StronglySorted_low_le_0 (items : list (Z * Z)) : StronglySorted (low_le 0) items.
Proof.
  induction items as [|a items IH]; constructor; [exact IH|].
  apply List.Forall_forall. intros x _. unfold low_le. rewrite !Z.mod_1_r. lia.
Qed.

(** After the passes on the bits [0 .. k-1] the pairs are in order of
    the [k] low bits of their keys, and they are the same pairs. *)
Lemma radix_passes_sorted (items : list (Z * Z)) (k : nat) :
  StronglySorted (low_le (Z.of_nat k)) (foldl radix_pass items (for_range 0 (Z.of_nat k))).
Proof.
  induction k as [|k IH].
  - apply StronglySorted_low_le_0.
  - unfold for_range in *. rewrite Z.sub_0_r in *.
    rewrite seqZ_S, foldl_app. cbn [foldl]. rewrite Z.add_0_l, Nat2Z.inj_succ.
    apply radix_pass_sorted; [lia|exact IH].
Qed.

Lemma radix_passes_perm (items : list (Z * Z)) (bits : list Z) :
  Permutation (foldl radix_pass items bits) items.
Proof.
  revert items. induction bits as [|b bits IH]; intros items; [reflexivity|].
  cbn [foldl]. rewrite IH. apply radix_pass_perm.
Qed.

Lemma SortPairs_sorted (d_keys_in d_values_in : list Z) (num_items end_bit : Z) :
  0 <= end_bit ->
  StronglySorted (fun a b => a mod 2 ^ end_bit <= b mod 2 ^ end_bit)
                 (fst (SortPairs d_keys_in d_values_in num_items 0 end_bit)).
Proof.
  intros He. unfold SortPairs. cbn [fst].
  apply (StronglySorted_fmap fst (low_le end_bit)); [intros x y H; exact H|].
  rewrite <- (Z2Nat.id end_bit) by exact He. apply radix_passes_sorted.
Qed.

Lemma SortPairs_perm (d_keys_in d_values_in : list Z) (num_items begin_bit end_bit : Z) :
  length d_keys_in = Z.to_nat num_items ->
  length d_values_in = Z.to_nat num_items ->
  Permutation (fst (SortPairs d_keys_in d_values_in num_items begin_bit end_bit)) d_keys_in
  /\ Permutation (snd (SortPairs d_keys_in d_values_in num_items begin_bit end_bit))
                 d_values_in.
Proof.
  intros Hk Hv. unfold SortPairs. cbn [fst snd].
  rewrite !radix_passes_perm.
  rewrite take_ge by (rewrite length_zip_with; lia).
  rewrite fst_zip, snd_zip by lia. split; reflexivity.
Qed.

(** ** The fields of a key *)

Lemma pack_key_fields (grid : dim3) (depth y x : Z) :
  0 <= y * gx grid -> 0 <= x -> y * gx grid + x < 2 ^ 32 -> 0 <= depth < 2 ^ 32 ->
  key_tile (pack_key grid depth y x) = y * gx grid + x /\
  key_depth (pack_key grid depth y x) = depth /\
  0 <= pack_key grid depth y x < (y * gx grid + x + 1) * 2 ^ 32.
Proof.
  intros Hy Hx Ht Hd. rewrite pack_key_formula by assumption.
  set (t := y * gx grid + x) in *.
  assert (Htile : Z.shiftr (Z.lor (Z.shiftl t 32) depth) 32 = t).
  { rewrite Z.shiftr_lor, Z.shiftr_shiftl_l by lia.
    rewrite (Z.shiftr_div_pow2 depth), Z.div_small by lia.
    rewrite Z.lor_0_r. apply Z.shiftl_0_r. }
  assert (Hnonneg : 0 <= Z.lor (Z.shiftl t 32) depth).
  { apply Z.lor_nonneg. split; [apply Z.shiftl_nonneg|]; lia. }
  split; [|split].
  - unfold key_tile. rewrite Htile. apply wrap32_small. lia.
  - unfold key_depth. rewrite Z.land_lor_distr_l, !Z.land_ones by lia.
    rewrite Z.shiftl_mul_pow2, Z_mod_mult, Z.lor_0_l by lia.
    apply Z.mod_small, Hd.
  - split; [exact Hnonneg|].
    rewrite Z.shiftr_div_pow2 in Htile by lia.
    pose proof (Z.mul_succ_div_gt (Z.lor (Z.shiftl t 32) depth) (2 ^ 32)) as Hgt.
    rewrite Htile in Hgt. lia.
Qed.

(** Keys below [2^64] are ordered like their (tile, depth) pairs. *)
Lemma key_fields_monotone (k1 k2 : Z) :
  0 <= k1 -> k1 <= k2 -> k2 < 2 ^ 64 ->
  key_tile k1 <= key_tile k2 /\
  (key_tile k1 = key_tile k2 -> key_depth k1 <= key_depth k2).
Proof.
  intros H1 H12 H2. unfold key_tile, key_depth.
  rewrite !Z.shiftr_div_pow2, !Z.land_ones by lia.
  assert (Hq : forall k, 0 <= k < 2 ^ 64 -> wrap32 (k / 2 ^ 32) = k / 2 ^ 32).
  { intros k Hk. apply wrap32_small. split; [apply Z.div_pos; lia|].
    apply Z.div_lt_upper_bound; lia. }
  rewrite !Hq by lia.
  pose proof (Z.div_le_mono k1 k2 (2 ^ 32) ltac:(lia) H12).
  pose proof (Z.div_mod k1 (2 ^ 32) ltac:(lia)).
  pose proof (Z.div_mod k2 (2 ^ 32) ltac:(lia)).
  split; [assumption|]. intros E. rewrite E in *. lia.
Qed.

(** ** The grid of a well-formed image *)

Lemma tile_grid_ok (width height : Z) :
  image_ok width height ->
  let grid := tile_grid width height in
  1 <= gx grid /\ 1 <= gy grid /\
  gx grid * gy grid <= INT_MAX /\ tile_count grid = gx grid * gy grid.
Proof.
  intros (Hw & Hh & Hwh). unfold INT_MAX in *.
  assert (Hw' : width <= 2 ^ 31 - 1) by nia.
  assert (Hh' : height <= 2 ^ 31 - 1) by nia.
  unfold tile_grid, tile_count, BLOCK_X, BLOCK_Y. cbn [gx gy].
  rewrite !Z.quot_div_nonneg by lia.
  assert (Hx : 1 <= (width + 16 - 1) / 16 <= width).
  { split; [apply Z.div_le_lower_bound; lia|apply Z.div_le_upper_bound; lia]. }
  assert (Hy : 1 <= (height + 16 - 1) / 16 <= height).
  { split; [apply Z.div_le_lower_bound; lia|apply Z.div_le_upper_bound; lia]. }
  rewrite !(wrap32_small ((_ + 16 - 1) / 16)) by lia.
  assert (Hxy : ((width + 16 - 1) / 16) * ((height + 16 - 1) / 16) <= width * height)
    by nia.
  rewrite wrap32_small by nia. repeat split; lia.
Qed.

(** What holds of every key the expansion writes. *)
Lemma all_keys_fields (grid : dim3) (geom : list gaussian) (key : Z) :
  1 <= gx grid -> 1 <= gy grid -> gx grid * gy grid <= INT_MAX ->
  depths_typed geom ->
  key ∈ all_keys grid geom ->
  (exists g, g ∈ geom /\ key_depth key = g_depth g) /\
  0 <= key_tile key < gx grid * gy grid /\
  0 <= key < 2 ^ sort_end_bit grid.
Proof.
  intros Hx Hy Hxy Hd Hin. unfold INT_MAX in Hxy.
  apply list_elem_of_In, in_flat_map in Hin as (g & Hg & Hin).
  apply list_elem_of_In in Hg.
  unfold instance_keys in Hin. apply in_map_iff in Hin as ([y x] & <- & Hin).
  cbn [fst snd]. unfold instances in Hin.
  destruct (Z.ltb_spec 0 (g_radius g)) as [Hr|Hr]; [|destruct Hin].
  pose proof (getRect_clamped (g_xy g) (g_radius g) grid ltac:(lia) ltac:(lia)) as Hc.
  destruct (getRect (g_xy g) (g_radius g) grid) as [rect_min rect_max].
  cbn [fst snd] in Hc.
  apply list_elem_of_In, elem_of_rect_tiles in Hin.
  destruct (cell_tile_range grid (uy rect_max) y x) as [H1 H2]; try lia.
  unfold depths_typed in Hd. rewrite Forall_forall in Hd. specialize (Hd g Hg).
  destruct (pack_key_fields grid (g_depth g) y x) as (Ht & Hdep & Hk); try lia.
  split; [exists g; split; assumption|]. split; [lia|].
  split; [lia|].
  unfold sort_end_bit. rewrite getHigherMsb_tile_count.
  assert (Hn : tile_count grid = gx grid * gy grid)
    by (apply wrap32_small; nia).
  rewrite Hn. set (n := gx grid * gy grid) in *.
  assert (Hnpos : 0 < n) by nia.
  pose proof (Z.log2_spec n Hnpos) as [_ Hlog].
  pose proof (Z.log2_nonneg n).
  rewrite Z.pow_add_r by lia.
  replace (Z.succ (Z.log2 n)) with (Z.log2 n + 1) in Hlog by lia. nia.
Qed.

(** ** A well-formed call of [forward] runs to its end *)

Lemma as_int_small (z : Z) : 0 <= z <= INT_MAX -> as_int z = z.
Proof.
  unfold INT_MAX, as_int. intros H. destruct (Z.ltb_spec z (2 ^ 31)); lia.
Qed.

(** The read-back of the last prefix sum is the total of the counts,
    when that total is an [int]. *)
Lemma readback_sum (counts : list Z) :
  counts <> [] -> Forall (fun c => 0 <= c) counts -> Zsum counts <= INT_MAX ->
  memcpy_int (InclusiveSum counts) (Z.of_nat (length counts) - 1) = Some (Zsum counts).
Proof.
  intros Hne Hpos Hfit.
  assert (Hnonneg : 0 <= Zsum counts).
  { clear Hne Hfit. induction Hpos as [|c l Hc _ IH]; [cbn; lia|].
    rewrite Zsum_cons. lia. }
  unfold INT_MAX in Hfit.
  assert (Hlen : (0 < length counts)%nat) by (destruct counts; [congruence|cbn; lia]).
  unfold memcpy_int. destruct (Z.ltb_spec (Z.of_nat (length counts) - 1) 0); [lia|].
  replace (Z.to_nat (Z.of_nat (length counts) - 1)) with (length counts - 1)%nat by lia.
  rewrite InclusiveSum_lookup by (try assumption; lia).
  cbn [fmap option_fmap option_map]. f_equal.
  rewrite take_ge by lia. apply as_int_small. unfold INT_MAX. lia.
Qed.

Lemma readback_total (grid : dim3) (geom : list gaussian) :
  geom <> [] -> preprocess_ok grid geom ->
  Z.of_nat (instance_count grid geom) <= INT_MAX ->
  memcpy_int (InclusiveSum (map g_tiles_touched geom)) (Z.of_nat (length geom) - 1)
  = Some (Z.of_nat (instance_count grid geom)).
Proof.
  intros Hne Hok Hfit.
  rewrite <- (Zsum_tiles_touched grid geom Hok) in *.
  rewrite <- (length_map g_tiles_touched geom). apply readback_sum.
  - destruct geom; [congruence|discriminate].
  - apply (tiles_touched_nonneg grid), Hok.
  - exact Hfit.
Qed.

Lemma stores_in_range_ok (grid : dim3) (geom : list gaussian) :
  preprocess_ok grid geom ->
  Z.of_nat (instance_count grid geom) <= INT_MAX ->
  stores_in_range geom (InclusiveSum (map g_tiles_touched geom)) grid
                  (Z.of_nat (instance_count grid geom)) = true.
Proof.
  intros Hok Hfit. unfold INT_MAX in Hfit. unfold stores_in_range.
  apply forallb_forall. intros [i g] Hin.
  apply list_elem_of_In, elem_of_lookup_imap in Hin as (i' & g' & [= -> ->] & Hg).
  cbn [fst snd]. apply orb_true_iff. right. apply Z.leb_le.
  rewrite (start_offset_instances grid geom i' Hok)
    by (try lia; eapply lookup_lt_Some, Hg).
  pose proof (instance_count_take_le grid geom (S i')) as Hle.
  rewrite (take_S_r _ _ _ Hg), instance_count_app in Hle.
  unfold instance_count at 2 in Hle. cbn [flat_map] in Hle.
  rewrite app_nil_r in Hle. lia.
Qed.

Lemma length_garbage (garbage : nat -> Z) (n : nat) :
  length (map garbage (seq 0 n)) = n.
Proof. rewrite length_map. apply length_seq. Qed.

Section WellFormedRuns.

Variable scan_temp_bytes : Z -> Z.
Variable sort_temp_bytes : Z -> Z.
Variable NUM_CHANNELS : Z.
Variable alpha_of : Z -> Z -> Z -> Q.

Variables (width height : Z) (background : list Q).
Variables (colors_precomp : option (Z -> list Q)) (rgb : Z -> list Q).
Variables (geom : list gaussian) (garbage : nat -> Z).

Let grid := tile_grid width height.
Let R := Z.of_nat (instance_count grid geom).

Hypothesis Hconfig : config_ok NUM_CHANNELS colors_precomp.
Hypothesis Hcall : well_formed_call width height geom.

(** The unsorted arrays hold the pairs of the expansion, whatever the
    fresh arrays held. *)
Lemma forward_binned :
  duplicateWithKeys (length geom) geom (InclusiveSum (map g_tiles_touched geom))
    (Unsorted (map garbage (seq 0 (Z.to_nat R))) (map garbage (seq 0 (Z.to_nat R))))
    grid
  = Unsorted (all_keys grid geom) (all_values grid geom).
Proof.
  destruct Hcall as (_ & _ & Hpre & Hfit & _). unfold INT_MAX in Hfit.
  fold grid in Hpre, Hfit. apply duplicateWithKeys_fills.
  - exact Hpre.
  - lia.
  - rewrite length_garbage. unfold R. lia.
  - rewrite length_garbage. unfold R. lia.
Qed.

Lemma forward_sorted_perm :
  let sorted := SortPairs (all_keys grid geom) (all_values grid geom) R 0
                          (sort_end_bit grid) in
  Permutation (fst sorted) (all_keys grid geom) /\
  Permutation (snd sorted) (all_values grid geom).
Proof.
  apply SortPairs_perm; rewrite ?length_all_keys, ?length_all_values; unfold R; lia.
Qed.

Lemma forward_tiles_in_range :
  tiles_in_range
    (fst (SortPairs (all_keys grid geom) (all_values grid geom) R 0 (sort_end_bit grid)))
    (tile_count grid) = true.
Proof.
  destruct Hcall as (_ & Himg & _ & _ & Htyped).
  pose proof (tile_grid_ok width height Himg) as Hgrid. cbv zeta in Hgrid.
  fold grid in Hgrid. destruct Hgrid as (Hx & Hy & Hxy & Hn).
  unfold tiles_in_range. apply forallb_forall. intros key Hin.
  apply list_elem_of_In in Hin. rewrite (proj1 forward_sorted_perm) in Hin.
  destruct (all_keys_fields grid geom key Hx Hy Hxy Htyped Hin) as (_ & Ht & _).
  apply Z.ltb_lt. rewrite Hn. lia.
Qed.

(** [forward] returns, and what it returns is [forward_result]. *)
Lemma forward_completes :
  snd (forward scan_temp_bytes sort_temp_bytes NUM_CHANNELS alpha_of
         width height background colors_precomp rgb geom garbage [])
  = inr (forward_result alpha_of width height background colors_precomp rgb geom
           garbage R).
Proof.
  destruct Hcall as (Hne & Himg & Hpre & Hfit & Htyped).
  apply forward_done.
  - exact Hconfig.
  - apply readback_total; assumption.
  - apply stores_in_range_ok; assumption.
  - intros _. unfold forward_result. cbn [point_list_keys]. fold grid.
    change (Z.of_nat (instance_count grid geom)) with R.
    rewrite forward_binned. cbn [gaussian_keys_unsorted gaussian_values_unsorted].
    apply forward_tiles_in_range.
Qed.


End WellFormedRuns.

(** ** Sorted lists, read by index *)

Lemma StronglySorted_lookup {A} (R : A -> A -> Prop) (l : list A) :
  StronglySorted R l ->
  forall (i j : nat) (a b : A),
    (i < j)%nat -> l !! i = Some a -> l !! j = Some b -> R a b.
Proof.
  induction 1 as [|x l Hs IH Hx]; intros i j a b Hij Hi Hj; [discriminate|].
  destruct j as [|j]; [lia|]. cbn in Hj.
  destruct i as [|i]; cbn in Hi.
  - injection Hi as <-. rewrite List.Forall_forall in Hx.
    apply Hx, list_elem_of_In, list_elem_of_lookup. exists j. exact Hj.
  - apply (IH i j); [lia|assumption|assumption].
Qed.

(** ** Depth bits and depth values *)

Lemma f32_nonneg_fields (b : Z) :
  f32_nonneg b ->
  f32_sign b = 0 /\ f32_exponent b = b / 2 ^ 23 /\ f32_mantissa b = b mod 2 ^ 23 /\
  0 <= b / 2 ^ 23 <= 255 /\ 0 <= b mod 2 ^ 23 < 2 ^ 23.
Proof.
  unfold f32_nonneg, f32_sign, f32_exponent, f32_mantissa. intros Hb.
  rewrite !Z.shiftr_div_pow2, Z.land_ones by lia.
  change 255 with (Z.ones 8) at 1. rewrite Z.land_ones by lia.
  assert (Hq : 0 <= b / 2 ^ 23 <= 255).
  { split; [apply Z.div_pos; lia|apply Z.div_le_upper_bound; lia]. }
  repeat split; try lia.
  - apply Z.div_small. lia.
  - apply Z.mod_small. lia.
  - apply Z.mod_pos_bound. lia.
  - apply Z.mod_pos_bound. lia.
Qed.

Lemma f32_nonneg_not_nan (b : Z) : f32_nonneg b -> f32_is_nan b = false.
Proof.
  intros Hb. unfold f32_is_nan.
  destruct (f32_nonneg_fields b Hb) as (_ & -> & -> & He & Hm).
  destruct (Z.eqb_spec (b / 2 ^ 23) 255) as [E|E]; [|reflexivity].
  pose proof (Z.div_mod b (2 ^ 23) ltac:(lia)) as Hd. unfold f32_nonneg in Hb.
  destruct (Z.eqb_spec (b mod 2 ^ 23) 0); [reflexivity|lia].
Qed.

Lemma f32_magnitude_monotone (a b : Z) :
  f32_nonneg a -> f32_nonneg b -> a <= b -> f32_magnitude a <= f32_magnitude b.
Proof.
  intros Ha Hb Hab. unfold f32_magnitude.
  destruct (f32_nonneg_fields a Ha) as (_ & -> & -> & Hea & Hma).
  destruct (f32_nonneg_fields b Hb) as (_ & -> & -> & Heb & Hmb).
  pose proof (Z.div_le_mono a b (2 ^ 23) ltac:(lia) Hab) as Hq.
  pose proof (Z.div_mod a (2 ^ 23) ltac:(lia)) as Da.
  pose proof (Z.div_mod b (2 ^ 23) ltac:(lia)) as Db.
  set (ea := a / 2 ^ 23) in *. set (eb := b / 2 ^ 23) in *.
  set (ma := a mod 2 ^ 23) in *. set (mb := b mod 2 ^ 23) in *.
  destruct (Z.eqb_spec ea 0) as [Ea|Ea]; destruct (Z.eqb_spec eb 0) as [Eb|Eb].
  - lia.
  - assert (0 < 2 ^ (eb - 1)) by (apply Z.pow_pos_nonneg; lia). nia.
  - lia.
  - assert (Hp : 0 < 2 ^ (ea - 1)) by (apply Z.pow_pos_nonneg; lia).
    destruct (Z.eq_dec ea eb) as [E|E].
    + rewrite <- E in *. nia.
    + assert (Hstep : 2 ^ (eb - 1) = 2 ^ (ea - 1) * 2 ^ (eb - ea)).
      { rewrite <- Z.pow_add_r by lia. f_equal. lia. }
      assert (Hgap : 2 <= 2 ^ (eb - ea)).
      { change 2 with (2 ^ 1) at 1. apply Z.pow_le_mono_r; lia. }
      rewrite Hstep. nia.
Qed.

(** On non-negative depths, the order of the bit patterns is the order
    of the numbers. *)
Lemma f32_value_monotone (a b : Z) :
  f32_nonneg a -> f32_nonneg b -> a <= b -> (f32_value a <= f32_value b)%Q.
Proof.
  intros Ha Hb Hab. unfold f32_value.
  destruct (f32_nonneg_fields a Ha) as (-> & _).
  destruct (f32_nonneg_fields b Hb) as (-> & _).
  cbn [Z.eqb]. unfold Qle. cbn [Qnum Qden].
  apply Z.mul_le_mono_nonneg_r; [lia|].
  apply f32_magnitude_monotone; assumption.
Qed.

Lemma sort_end_bit_bounds (grid : dim3) :
  32 < sort_end_bit grid <= 64.
Proof.
  unfold sort_end_bit. rewrite getHigherMsb_tile_count. pose proof (tile_count_range grid) as Hn.
  pose proof (Z.log2_nonneg (tile_count grid)).
  destruct (Z.eq_dec (tile_count grid) 0) as [E|E]; [rewrite E; cbn; lia|].
  assert (Z.log2 (tile_count grid) < 32) by (apply Z.log2_lt_pow2; lia). lia.
Qed.

(** ** The sorted instance list *)


(** C4, as amended.  In every call of [forward] with at least one
    primitive whose tile-touch-counts add up to an [int], that is, to at
    most [INT_MAX], whatever [forward] returns has
    in [point_offsets] the inclusive prefix sum of the counts (entry [i]
    is the sum of the counts of the primitives [0 .. i], and there are
    [P] entries), and the instance count it returns is
    [point_offsets[P-1]], the sum of all the counts.  In a well-formed
    call [forward] does return. *)
Theorem forward_instance_count (scan_temp_bytes sort_temp_bytes : Z -> Z)
    (NUM_CHANNELS : Z) (alpha_of : Z -> Z -> Z -> Q)
    (width height : Z) (background : list Q)
    (colors_precomp : option (Z -> list Q)) (rgb : Z -> list Q)
    (geom : list gaussian) (garbage : nat -> Z) :
  geom <> [] ->
  Forall (fun c => 0 <= c) (map g_tiles_touched geom) ->
  Zsum (map g_tiles_touched geom) <= INT_MAX ->
  let run := forward scan_temp_bytes sort_temp_bytes NUM_CHANNELS alpha_of
               width height background colors_precomp rgb geom garbage [] in
  (forall out, snd run = inr out ->
     length (point_offsets out) = length geom /\
     (forall i : nat, (i < length geom)%nat ->
        point_offsets out !! i = Some (Zsum (take (S i) (map g_tiles_touched geom)))) /\
     point_offsets out !! (length geom - 1)%nat = Some (num_rendered out) /\
     num_rendered out = Zsum (map g_tiles_touched geom)) /\
  (config_ok NUM_CHANNELS colors_precomp -> well_formed_call width height geom ->
   exists out, snd run = inr out).
Proof.
  intros Hne Hpos Hfit run. split.
  - intros out Hout. subst run.
    apply forward_returns_inv in Hout as (R & Hread & ->).
    rewrite <- (length_map g_tiles_touched geom), readback_sum in Hread;
      [|destruct geom; [congruence|discriminate]|assumption|assumption].
    injection Hread as <-.
    unfold forward_result. cbn [point_offsets num_rendered].
    unfold INT_MAX in Hfit.
    assert (Hlen : (0 < length geom)%nat) by (destruct geom; [congruence|cbn; lia]).
    assert (Hlookup : forall i : nat, (i < length geom)%nat ->
              InclusiveSum (map g_tiles_touched geom) !! i
              = Some (Zsum (take (S i) (map g_tiles_touched geom)))).
    { intros i Hi. apply InclusiveSum_lookup; [assumption|lia|].
      rewrite length_map. exact Hi. }
    split; [rewrite length_InclusiveSum, length_map; reflexivity|].
    split; [exact Hlookup|]. split; [|reflexivity].
    rewrite Hlookup by lia. rewrite take_ge by (rewrite length_map; lia). reflexivity.
  - intros Hconfig Hcall. eexists. apply forward_completes; assumption.
Qed.

(** C4, as stated, fails when the counts add up to more than [INT_MAX].
    One culled primitive whose count is [2^31]: [forward] returns,
    [point_offsets] is the prefix sum [[2^31]], and the instance count
    returned is [-2^31], which is neither [point_offsets[P-1]] nor the
    sum of the counts. *)
Lemma forward_count_is_not_the_sum :
  match snd (forward no_temp no_temp 3 half_alpha 16 16 black None grey
               overcounted_splat stale []) with
  | inr out =>
      point_offsets out = [2 ^ 31] /\
      Zsum (map g_tiles_touched overcounted_splat) = 2 ^ 31 /\
      num_rendered out = - 2 ^ 31 /\
      point_offsets out !! (length overcounted_splat - 1)%nat
        <> Some (num_rendered out) /\
      num_rendered out <> Zsum (map g_tiles_touched overcounted_splat)
  | inl _ => False
  end.
Proof. vm_compute. repeat split; intros H; discriminate H. Qed.

(** ** Counting in a sorted list *)

(** In a list sorted for [rank], the elements that satisfy a predicate
    closed under going down in rank form a prefix. *)
Lemma sorted_filter_prefix {A} (rank : A -> nat) (p : A -> bool) (l : list A) :
  (forall a b, (rank a <= rank b)%nat -> p b = true -> p a = true) ->
  (forall (i j : nat) (a b : A),
      (i <= j)%nat -> l !! i = Some a -> l !! j = Some b -> (rank a <= rank b)%nat) ->
  forall (i : nat) (a : A),
    l !! i = Some a -> ((i < length (List.filter p l))%nat <-> p a = true).
Proof.
  intros Hdown. induction l as [|x l IH]; intros Hsorted i a Hi; [discriminate|].
  assert (Hsorted' : forall (i j : nat) (a b : A),
             (i <= j)%nat -> l !! i = Some a -> l !! j = Some b ->
             (rank a <= rank b)%nat).
  { intros i' j' a' b' Hij Ha' Hb'. apply (Hsorted (S i') (S j')); [lia|exact Ha'|exact Hb']. }
  cbn [List.filter]. destruct (p x) eqn:Hx.
  - destruct i as [|i]; cbn in Hi.
    + injection Hi as <-. cbn [length]. split; [intros _; exact Hx|lia].
    + cbn [length]. rewrite <- (IH Hsorted' i a Hi). lia.
  - assert (Hnone : forall (j : nat) (b : A), (x :: l) !! j = Some b -> p b = false).
    { intros j b Hb. destruct (p b) eqn:Hpb; [|reflexivity].
      rewrite (Hdown x b) in Hx; [discriminate| |exact Hpb].
      apply (Hsorted 0%nat j); [lia|reflexivity|exact Hb]. }
    assert (Hempty : List.filter p l = []).
    { clear -Hnone. induction l as [|y l IHl]; [reflexivity|].
      cbn [List.filter]. rewrite (Hnone 1%nat y eq_refl). apply IHl.
      intros j b Hb. destruct j as [|j]; [apply (Hnone 0%nat); exact Hb|].
      apply (Hnone (S (S j))). exact Hb. }
    rewrite Hempty. cbn [length]. rewrite (Hnone i a Hi). split; [lia|discriminate].
Qed.

Lemma length_filter_le {A} (p : A -> bool) (l : list A) :
  (length (List.filter p l) <= length l)%nat.
Proof.
  induction l as [|a l IH]; [reflexivity|]. cbn [List.filter].
  destruct (p a); cbn [length]; lia.
Qed.

(** ** [identifyTileRanges] on a sorted list *)

Lemma key_tile_nonneg (key : Z) : 0 <= key_tile key < 2 ^ 32.
Proof. apply Z.mod_pos_bound. reflexivity. Qed.

Lemma tile_eqb (k1 k2 : Z) : (key_tile k1 =? key_tile k2) = (tile_of k1 =? tile_of k2)%nat.
Proof.
  pose proof (key_tile_nonneg k1). pose proof (key_tile_nonneg k2). unfold tile_of.
  destruct (Z.eqb_spec (key_tile k1) (key_tile k2)) as [E|E];
    destruct (Nat.eqb_spec (Z.to_nat (key_tile k1)) (Z.to_nat (key_tile k2))) as [E'|E'];
    try reflexivity; lia.
Qed.

(** A thread below [L], with fewer than [2^32] threads in all, in terms
    of [open_close]. *)
Lemma identifyTileRanges_thread_eq (L : nat) (keys : list Z) (ranges : list uint2)
    (idx : nat) (key prevkey : Z) :
  Z.of_nat L < 2 ^ 32 -> (idx < L)%nat ->
  keys !! idx = Some key ->
  (idx <> 0%nat -> keys !! (idx - 1)%nat = Some prevkey) ->
  identifyTileRanges_thread (Z.of_nat L) keys ranges idx
  = let ranges' := open_close idx (tile_of key) (tile_of prevkey) ranges in
    if (idx =? L - 1)%nat then alter (set_y (Z.of_nat L)) (tile_of key) ranges'
    else ranges'.
Proof.
  intros HL Hidx Hkey Hprev. unfold identifyTileRanges_thread, open_close.
  rewrite Hkey. fold (tile_of key).
  rewrite !wrap32_small by lia.
  replace (Z.of_nat idx =? Z.of_nat L - 1) with (idx =? L - 1)%nat
    by (destruct (Nat.eqb_spec idx (L - 1)); destruct (Z.eqb_spec (Z.of_nat idx) (Z.of_nat L - 1));
        try reflexivity; lia).
  destruct (Nat.eqb_spec idx 0) as [E|E]; [reflexivity|].
  rewrite (Hprev E). fold (tile_of prevkey). rewrite tile_eqb. reflexivity.
Qed.

Section TileRanges.

Variable keys : list Z.
Variable T : nat.

Let L := length keys.

Hypothesis Hsorted : forall (i j : nat) (ki kj : Z),
  (i <= j)%nat -> keys !! i = Some ki -> keys !! j = Some kj ->
  (tile_of ki <= tile_of kj)%nat.

Lemma below_prefix (t i : nat) (k : Z) :
  keys !! i = Some k -> ((i < below keys t)%nat <-> (tile_of k < t)%nat).
Proof.
  intros Hk. unfold below.
  rewrite (sorted_filter_prefix tile_of _ keys) by
    (try exact Hk; try exact Hsorted; intros a b Hab Hb;
     apply Nat.ltb_lt in Hb; apply Nat.ltb_lt; lia).
  apply Nat.ltb_lt.
Qed.

Lemma upto_prefix (t i : nat) (k : Z) :
  keys !! i = Some k -> ((i < upto keys t)%nat <-> (tile_of k <= t)%nat).
Proof.
  intros Hk. unfold upto.
  rewrite (sorted_filter_prefix tile_of _ keys) by
    (try exact Hk; try exact Hsorted; intros a b Hab Hb;
     apply Nat.leb_le in Hb; apply Nat.leb_le; lia).
  apply Nat.leb_le.
Qed.

Lemma upto_le_length (t : nat) : (upto keys t <= L)%nat.
Proof. apply length_filter_le. Qed.

Lemma below_le_upto (t : nat) : (below keys t <= upto keys t)%nat.
Proof.
  destruct (Nat.le_gt_cases (below keys t) (upto keys t)) as [H|H]; [exact H|].
  assert (Hl : (below keys t <= L)%nat) by apply length_filter_le.
  destruct (lookup_lt_is_Some_2 keys (upto keys t)) as [k Hk]; [fold L; lia|].
  apply (below_prefix t) in Hk as Hb. apply (upto_prefix t) in Hk as Hu. lia.
Qed.

Lemma touched_iff (n t : nat) :
  touched keys n t = true <->
  exists (i : nat) (k : Z), (i < n)%nat /\ keys !! i = Some k /\ tile_of k = t.
Proof.
  unfold touched. rewrite existsb_exists. split.
  - intros (k & Hin & Hk). apply Nat.eqb_eq in Hk.
    apply list_elem_of_In, list_elem_of_lookup in Hin as [i Hi].
    apply lookup_take_Some in Hi as [Hi Hlt]. exists i, k. auto.
  - intros (i & k & Hlt & Hi & Hk). exists k. split; [|apply Nat.eqb_eq, Hk].
    apply list_elem_of_In, list_elem_of_lookup. exists i.
    apply lookup_take_Some. auto.
Qed.

End TileRanges.

Section TileRangesInvariant.

Variable keys : list Z.
Variable T : nat.

Let L := length keys.

Hypothesis Hsorted : forall (i j : nat) (ki kj : Z),
  (i <= j)%nat -> keys !! i = Some ki -> keys !! j = Some kj ->
  (tile_of ki <= tile_of kj)%nat.

Hypothesis Htiles : forall (i : nat) (k : Z), keys !! i = Some k -> (tile_of k < T)%nat.

Lemma table_is_alter (f g : nat -> uint2) (h : uint2 -> uint2) (c : nat)
    (ranges : list uint2) :
  table_is f T ranges ->
  (forall t : nat, (t < T)%nat -> g t = if (t =? c)%nat then h (f t) else f t) ->
  table_is g T (alter h c ranges).
Proof.
  intros [Hlen Hf] Hg. split; [rewrite length_alter; exact Hlen|].
  intros t Ht. rewrite (Hg t Ht). destruct (Nat.eqb_spec t c) as [->|Hne].
  - rewrite list_lookup_alter_eq, (Hf c Ht). reflexivity.
  - rewrite list_lookup_alter_ne by congruence. apply Hf, Ht.
Qed.

Lemma table_is_ext (f g : nat -> uint2) (ranges : list uint2) :
  table_is f T ranges -> (forall t : nat, (t < T)%nat -> g t = f t) ->
  table_is g T ranges.
Proof.
  intros [Hlen Hf] Hg. split; [exact Hlen|]. intros t Ht. rewrite (Hg t Ht). apply Hf, Ht.
Qed.

Lemma touched_succ (n t : nat) (k : Z) :
  keys !! n = Some k ->
  touched keys (S n) t = touched keys n t || (tile_of k =? t)%nat.
Proof.
  intros Hk. unfold touched. rewrite (take_S_r _ _ _ Hk), existsb_app. cbn.
  rewrite orb_false_r. reflexivity.
Qed.

Lemma last_tile_succ (n : nat) (k : Z) :
  keys !! n = Some k -> last_tile keys (S n) = tile_of k.
Proof.
  intros Hk. unfold last_tile. rewrite Nat.sub_succ, Nat.sub_0_r, Hk. reflexivity.
Qed.

(** The first thread opens the tile of the first key. *)
Lemma open_first (k : Z) :
  keys !! 0%nat = Some k ->
  table_is (expected keys 1) T
           (open_close 0 (tile_of k) (tile_of k) (replicate T (Uint2 0 0))).
Proof.
  intros Hk. unfold open_close. cbn [Nat.eqb].
  apply (table_is_alter (fun _ => Uint2 0 0)).
  - split; [apply length_replicate|]. intros t Ht. apply lookup_replicate_2, Ht.
  - intros t Ht. unfold expected.
    rewrite (touched_succ 0 t k Hk), (last_tile_succ 0 k Hk).
    unfold touched at 1. rewrite take_0. cbn [existsb orb].
    rewrite (Nat.eqb_sym t). destruct (Nat.eqb_spec (tile_of k) t) as [<-|Hne]; [|reflexivity].
    assert (Hb : below keys (tile_of k) = 0%nat).
    { destruct (below keys (tile_of k)) as [|b] eqn:Eb; [reflexivity|].
      pose proof (proj1 (below_prefix keys Hsorted (tile_of k) 0 k Hk)) as H.
      rewrite Eb in H. specialize (H ltac:(lia)). lia. }
    rewrite Hb. reflexivity.
Qed.

(** A later thread closes the previous tile and opens its own when the
    tile changes, and does nothing otherwise. *)
Lemma open_next (n : nat) (k pk : Z) (ranges : list uint2) :
  (1 <= n)%nat -> keys !! n = Some k -> keys !! (n - 1)%nat = Some pk ->
  table_is (expected keys n) T ranges ->
  table_is (expected keys (S n)) T (open_close n (tile_of k) (tile_of pk) ranges).
Proof.
  intros Hn Hk Hpk Htab. unfold open_close.
  destruct (Nat.eqb_spec n 0) as [?|_]; [lia|].
  assert (Hlast : last_tile keys n = tile_of pk)
    by (unfold last_tile; rewrite Hpk; reflexivity).
  assert (Hprev_touched : touched keys n (tile_of pk) = true).
  { apply touched_iff. exists (n - 1)%nat, pk. repeat split; [lia|exact Hpk]. }
  pose proof (Hsorted (n - 1) n pk k ltac:(lia) Hpk Hk) as Hle.
  destruct (Nat.eqb_spec (tile_of k) (tile_of pk)) as [E|E]; cbn [negb].
  - apply (table_is_ext (expected keys n)); [exact Htab|].
    intros t Ht. unfold expected.
    rewrite (touched_succ n t k Hk), (last_tile_succ n k Hk), Hlast, E.
    destruct (Nat.eqb_spec (tile_of pk) t) as [<-|Hne].
    + rewrite Hprev_touched. reflexivity.
    + rewrite orb_false_r. reflexivity.
  - assert (Hlt : (tile_of pk < tile_of k)%nat) by lia.
    assert (Hfresh : touched keys n (tile_of k) = false).
    { destruct (touched keys n (tile_of k)) eqn:Ht; [|reflexivity].
      apply touched_iff in Ht as (i & k' & Hi & Hk' & Heq).
      pose proof (Hsorted i (n - 1) k' pk ltac:(lia) Hk' Hpk). lia. }
    assert (Hbelow : below keys (tile_of k) = n).
    { pose proof (below_prefix keys Hsorted (tile_of k) n k Hk).
      pose proof (below_prefix keys Hsorted (tile_of k) (n - 1) pk Hpk). lia. }
    assert (Hupto : upto keys (tile_of pk) = n).
    { pose proof (upto_prefix keys Hsorted (tile_of pk) n k Hk).
      pose proof (upto_prefix keys Hsorted (tile_of pk) (n - 1) pk Hpk). lia. }
    eapply table_is_alter; [eapply table_is_alter; [exact Htab|]|].
    + intros t Ht. reflexivity.
    + intros t Ht. cbn beta. unfold expected.
      rewrite (touched_succ n t k Hk), (last_tile_succ n k Hk), Hlast.
      destruct (Nat.eqb_spec t (tile_of k)) as [->|Hk'].
      * rewrite Nat.eqb_refl, orb_true_r.
        destruct (Nat.eqb_spec (tile_of k) (tile_of pk)); [lia|].
        rewrite Hfresh, Hbelow. reflexivity.
      * destruct (Nat.eqb_spec (tile_of k) t); [congruence|]. rewrite orb_false_r.
        destruct (Nat.eqb_spec t (tile_of pk)) as [->|Hpk'].
        -- rewrite Hprev_touched, Hupto. reflexivity.
        -- reflexivity.
Qed.

(** The last thread closes the tile of the last key. *)
Lemma close_last (k : Z) (ranges : list uint2) :
  (1 <= L)%nat -> keys !! (L - 1)%nat = Some k ->
  table_is (expected keys L) T ranges ->
  table_is (final keys) T (alter (set_y (Z.of_nat L)) (tile_of k) ranges).
Proof.
  intros HL Hk Htab.
  assert (Hlast : last_tile keys L = tile_of k)
    by (unfold last_tile; rewrite Hk; reflexivity).
  assert (Htouched : touched keys L (tile_of k) = true).
  { apply touched_iff. exists (L - 1)%nat, k. repeat split; [lia|exact Hk]. }
  assert (Hupto : upto keys (tile_of k) = L).
  { pose proof (upto_prefix keys Hsorted (tile_of k) (L - 1) k Hk).
    pose proof (upto_le_length keys (tile_of k)) as Hlen. fold L in Hlen. lia. }
  eapply table_is_alter; [exact Htab|].
  intros t Ht. unfold final, expected. fold L. rewrite Hlast.
  destruct (Nat.eqb_spec t (tile_of k)) as [->|Hne]; [|reflexivity].
  rewrite Htouched, Hupto. reflexivity.
Qed.

End TileRangesInvariant.

Section TileRangesLaunch.

Variable keys : list Z.
Variable T : nat.

Let L := length keys.

Hypothesis Hsorted : forall (i j : nat) (ki kj : Z),
  (i <= j)%nat -> keys !! i = Some ki -> keys !! j = Some kj ->
  (tile_of ki <= tile_of kj)%nat.
Hypothesis Hsmall : Z.of_nat L < 2 ^ 32.

Let launch (n : nat) : list uint2 :=
  foldl (identifyTileRanges_thread (Z.of_nat L) keys) (replicate T (Uint2 0 0)) (seq 0 n).

(** Before the last thread, every tile met so far is open or closed. *)
Lemma identifyTileRanges_before_last (n : nat) :
  (1 <= n)%nat -> (n < L)%nat -> table_is (expected keys n) T (launch n).
Proof.
  intros Hn Hlt. induction n as [|n IH]; [lia|].
  unfold launch. rewrite seq_S, foldl_app. cbn [foldl Nat.add].
  destruct (lookup_lt_is_Some_2 keys n) as [k Hk]; [fold L; lia|].
  destruct (Nat.eq_dec n 0%nat) as [->|Hpos].
  - cbn [seq foldl].
    rewrite (identifyTileRanges_thread_eq L keys _ 0%nat k k Hsmall) by (try lia; assumption).
    cbv zeta. destruct (Nat.eqb_spec 0%nat (L - 1)%nat); [lia|].
    apply open_first; assumption.
  - destruct (lookup_lt_is_Some_2 keys (n - 1)%nat) as [pk Hpk]; [fold L; lia|].
    rewrite (identifyTileRanges_thread_eq L keys _ n k pk Hsmall)
      by (try lia; try assumption; intros _; exact Hpk).
    cbv zeta. destruct (Nat.eqb_spec n (L - 1)%nat); [lia|].
    apply open_next; try assumption; try lia. apply IH; lia.
Qed.

(** At the end of the launch, the table is [final]. *)
Lemma identifyTileRanges_final :
  table_is (final keys) T
           (identifyTileRanges (Z.of_nat L) keys (replicate T (Uint2 0 0))).
Proof.
  unfold identifyTileRanges. rewrite Nat2Z.id.
  destruct (Nat.eq_dec L 0%nat) as [E|E].
  - rewrite E. cbn [seq foldl]. split; [apply length_replicate|].
    intros t Ht. rewrite lookup_replicate_2 by exact Ht. f_equal.
    unfold final, touched. fold L. rewrite E, take_0. reflexivity.
  - replace L with (S (L - 1))%nat at 2 by lia.
    rewrite seq_S, foldl_app. cbn [foldl Nat.add].
    destruct (lookup_lt_is_Some_2 keys (L - 1)%nat) as [k Hk]; [fold L; lia|].
    destruct (Nat.eq_dec (L - 1)%nat 0%nat) as [E0|E0].
    + rewrite E0 in *. cbn [seq foldl].
      rewrite (identifyTileRanges_thread_eq L keys _ 0%nat k k Hsmall) by (try lia; assumption).
      cbv zeta. rewrite E0, Nat.eqb_refl.
      apply close_last; try assumption; fold L; try lia; try (rewrite E0; exact Hk).
      replace L with 1%nat by lia. apply open_first; assumption.
    + destruct (lookup_lt_is_Some_2 keys (L - 1 - 1)%nat) as [pk Hpk]; [fold L; lia|].
      rewrite (identifyTileRanges_thread_eq L keys _ (L - 1)%nat k pk Hsmall)
        by (try lia; try assumption; intros _; exact Hpk).
      cbv zeta. rewrite Nat.eqb_refl.
      apply close_last; try assumption; fold L; try lia.
      replace L with (S (L - 1))%nat at 1 by lia.
      apply open_next; try assumption; try lia.
      apply identifyTileRanges_before_last; lia.
Qed.

End TileRangesLaunch.

Lemma tile_sorted_rank (keys : list Z) :
  tile_sorted keys ->
  forall (i j : nat) (ki kj : Z),
    (i <= j)%nat -> keys !! i = Some ki -> keys !! j = Some kj ->
    (tile_of ki <= tile_of kj)%nat.
Proof.
  intros Hs i j ki kj Hij Hi Hj. unfold tile_of.
  pose proof (Hs i j ki kj Hij Hi Hj). pose proof (key_tile_nonneg ki). lia.
Qed.

(** C2.  The tile range resolver, run on a list of [L] keys sorted by
    tile over a zero-initialized table of [T] ranges that every tile of
    the list addresses, leaves a table of [T] ranges in which
    - every range has [0 <= start <= end <= L];
    - the range of a tile holds exactly the indices of the keys of that
      tile, so that no index lies in the ranges of two tiles and every
      index of [0, L) lies in the range of some tile: the non-empty
      ranges are disjoint and cover [0, L) without gaps;
    - the range of a tile that no key touches is still the zero range,
      with start = end. *)
Theorem identifyTileRanges_partition (keys : list Z) (L : Z) (T : nat) :
  L = Z.of_nat (length keys) -> L <= INT_MAX ->
  tile_sorted keys ->
  (forall key, key ∈ keys -> key_tile key < Z.of_nat T) ->
  let ranges := identifyTileRanges L keys (replicate T (Uint2 0 0)) in
  length ranges = T /\
  (forall (t : nat) (r : uint2), ranges !! t = Some r -> 0 <= ux r <= uy r /\ uy r <= L) /\
  (forall (t i : nat) (r : uint2) (k : Z),
      ranges !! t = Some r -> keys !! i = Some k ->
      (ux r <= Z.of_nat i < uy r <-> key_tile k = Z.of_nat t)) /\
  (forall (t1 t2 : nat) (r1 r2 : uint2) (i : Z),
      t1 <> t2 -> ranges !! t1 = Some r1 -> ranges !! t2 = Some r2 ->
      ~ (ux r1 <= i < uy r1 /\ ux r2 <= i < uy r2)) /\
  (forall i : Z, 0 <= i < L ->
      exists (t : nat) (r : uint2), ranges !! t = Some r /\ ux r <= i < uy r) /\
  (forall (t : nat) (r : uint2),
      ranges !! t = Some r -> (forall key, key ∈ keys -> key_tile key <> Z.of_nat t) ->
      r = Uint2 0 0 /\ ux r = uy r).
Proof.
  intros -> Hint Hsorted Htiles ranges. unfold INT_MAX in Hint.
  pose proof (tile_sorted_rank keys Hsorted) as Hrank.
  assert (Htiles' : forall (i : nat) (k : Z), keys !! i = Some k -> (tile_of k < T)%nat).
  { intros i k Hk. unfold tile_of.
    assert (Hin : k ∈ keys) by (apply list_elem_of_lookup; exists i; exact Hk).
    pose proof (Htiles k Hin). pose proof (key_tile_nonneg k). lia. }
  destruct (identifyTileRanges_final keys T Hrank ltac:(lia)) as [Hlen Hfinal].
  fold ranges in Hlen, Hfinal.
  assert (Hr : forall (t : nat) (r : uint2), ranges !! t = Some r -> r = final keys t).
  { intros t r Ht. assert (t < T)%nat by (rewrite <- Hlen; eapply lookup_lt_Some, Ht).
    rewrite Hfinal in Ht by assumption. congruence. }
  assert (Hmember : forall (t i : nat) (k : Z), keys !! i = Some k ->
            (ux (final keys t) <= Z.of_nat i < uy (final keys t) <-> tile_of k = t)).
  { intros t i k Hk. unfold final.
    pose proof (below_prefix keys Hrank t i k Hk).
    pose proof (upto_prefix keys Hrank t i k Hk).
    destruct (touched keys (length keys) t) eqn:Ht; cbn [ux uy]; [lia|].
    split; [lia|]. intros Heq. exfalso.
    assert (touched keys (length keys) t = true); [|congruence].
    apply touched_iff. exists i, k. repeat split; try assumption.
    eapply lookup_lt_Some, Hk. }
  assert (Hbounds : forall t : nat,
            0 <= ux (final keys t) <= uy (final keys t) /\
            uy (final keys t) <= Z.of_nat (length keys)).
  { intros t. unfold final.
    pose proof (below_le_upto keys Hrank t). pose proof (upto_le_length keys t).
    destruct (touched keys (length keys) t); cbn [ux uy]; lia. }
  assert (Htile_of : forall (k : Z) (t : nat), tile_of k = t <-> key_tile k = Z.of_nat t).
  { intros k t. unfold tile_of. pose proof (key_tile_nonneg k). lia. }
  split; [exact Hlen|]. split; [|split; [|split; [|split]]].
  - intros t r Ht. rewrite (Hr t r Ht). apply Hbounds.
  - intros t i r k Ht Hk. rewrite (Hr t r Ht), <- Htile_of. apply Hmember, Hk.
  - intros t1 t2 r1 r2 i Hne H1 H2 [Hi1 Hi2].
    rewrite (Hr t1 r1 H1) in Hi1. rewrite (Hr t2 r2 H2) in Hi2.
    pose proof (Hbounds t1). pose proof (Hbounds t2).
    destruct (lookup_lt_is_Some_2 keys (Z.to_nat i)) as [k Hk]; [lia|].
    pose proof (proj1 (Hmember t1 (Z.to_nat i) k Hk)) as E1.
    pose proof (proj1 (Hmember t2 (Z.to_nat i) k Hk)) as E2.
    rewrite Z2Nat.id in E1, E2 by lia. specialize (E1 Hi1). specialize (E2 Hi2). congruence.
  - intros i Hi.
    destruct (lookup_lt_is_Some_2 keys (Z.to_nat i)) as [k Hk]; [lia|].
    pose proof (Htiles' _ k Hk) as Hlt.
    destruct (lookup_lt_is_Some_2 ranges (tile_of k)) as [r Hrk]; [lia|].
    exists (tile_of k), r. split; [exact Hrk|]. rewrite (Hr _ r Hrk).
    pose proof (proj2 (Hmember (tile_of k) (Z.to_nat i) k Hk) eq_refl) as H.
    rewrite Z2Nat.id in H by lia. exact H.
  - intros t r Ht Hnone. rewrite (Hr t r Ht). unfold final.
    destruct (touched keys (length keys) t) eqn:Htouched; [|split; reflexivity].
    exfalso. apply touched_iff in Htouched as (i & k & _ & Hk & Heq).
    apply (Hnone k); [apply list_elem_of_lookup; exists i; exact Hk|].
    apply Htile_of, Heq.
Qed.

(** ** A call that renders nothing *)

Lemma Q_background (b : Q) : (0 + 1 * b)%Q = b.
Proof.
  destruct b as [n d]. unfold Qplus, Qmult. cbn [Qnum Qden].
  rewrite Z.mul_0_l, Z.add_0_l, Z.mul_1_l, Z.mul_1_r, !Pos.mul_1_l. reflexivity.
Qed.

(** A pixel that no splat contributes to shows the background. *)
Lemma blend_pixel_nil (alpha_of : Z -> Z -> Z -> Q) (feature_of : Z -> list Q)
    (px py : Z) (bg_color : list Q) :
  blend_pixel alpha_of feature_of [] px py bg_color = bg_color.
Proof.
  unfold blend_pixel. cbn [foldl].
  induction bg_color as [|b bg IH]; [reflexivity|].
  cbn [map zip_with]. rewrite Q_background, IH. reflexivity.
Qed.

Lemma render_empty_table (alpha_of : Z -> Z -> Z -> Q) (feature_of : Z -> list Q)
    (grid : dim3) (ranges : list uint2) (point_list : list Z) (W H : Z)
    (bg_color : list Q) :
  Forall (fun r => r = Uint2 0 0) ranges ->
  let image := render alpha_of feature_of grid ranges point_list W H bg_color in
  length image = Z.to_nat (W * H) /\ Forall (fun pixel => pixel = bg_color) image.
Proof.
  intros Hzero image. subst image. unfold render. split.
  - rewrite length_map. unfold for_range. rewrite length_seqZ. f_equal. lia.
  - apply List.Forall_forall. intros pixel Hin.
    apply in_map_iff in Hin as (pix & <- & _). cbv zeta.
    set (tile := Z.to_nat (pix / W / BLOCK_Y * gx grid + pix mod W / BLOCK_X)).
    assert (Hr : default (Uint2 0 0) (ranges !! tile) = Uint2 0 0).
    { destruct (ranges !! tile) as [r|] eqn:Hr; [|reflexivity]. cbn.
      rewrite Forall_forall in Hzero. apply Hzero, list_elem_of_lookup.
      exists tile. exact Hr. }
    rewrite Hr. cbn [ux uy]. rewrite Z.sub_diag. cbn [Z.to_nat take].
    apply blend_pixel_nil.
Qed.

(** C7.  A call of [forward] with at least one primitive whose
    tile-touch-counts, those of the expansion, sum to zero is not an
    error: [forward] returns, with [num_rendered = 0]; the tile range
    resolver is not launched; every range of the table, one per tile of
    the grid, is the zero range; and every pixel of the output image is
    the background colour.  (The image is that of the blend stage as the
    spec describes it.) *)
Theorem forward_nothing_rendered (scan_temp_bytes sort_temp_bytes : Z -> Z)
    (NUM_CHANNELS : Z) (alpha_of : Z -> Z -> Z -> Q)
    (width height : Z) (background : list Q)
    (colors_precomp : option (Z -> list Q)) (rgb : Z -> list Q)
    (geom : list gaussian) (garbage : nat -> Z) :
  config_ok NUM_CHANNELS colors_precomp ->
  geom <> [] ->
  preprocess_ok (tile_grid width height) geom ->
  Zsum (map g_tiles_touched geom) = 0 ->
  let run := forward scan_temp_bytes sort_temp_bytes NUM_CHANNELS alpha_of
               width height background colors_precomp rgb geom garbage [] in
  exists out,
    snd run = inr out /\
    num_rendered out = 0 /\
    ~ In Launch_identifyTileRanges (fst run) /\
    length (ranges out) = Z.to_nat (tile_count (tile_grid width height)) /\
    Forall (fun r => r = Uint2 0 0) (ranges out) /\
    length (out_color out) = Z.to_nat (width * height) /\
    Forall (fun pixel => pixel = background) (out_color out).
Proof.
  intros Hconfig Hne Hpre Hsum run.
  set (grid := tile_grid width height) in *.
  rewrite (Zsum_tiles_touched grid geom Hpre) in Hsum.
  assert (Hfit : Z.of_nat (instance_count grid geom) <= INT_MAX)
    by (rewrite Hsum; discriminate).
  destruct (forward_done scan_temp_bytes sort_temp_bytes NUM_CHANNELS alpha_of
              width height background colors_precomp rgb geom garbage 0 Hconfig)
    as [Hrun Hev].
  { rewrite <- Hsum. apply readback_total; assumption. }
  { rewrite <- Hsum. apply stores_in_range_ok; assumption. }
  { lia. }
  fold run in Hrun, Hev.
  eexists. split; [exact Hrun|].
  assert (Htable : ranges (forward_result alpha_of width height background
                             colors_precomp rgb geom garbage 0)
                   = replicate (Z.to_nat (tile_count grid)) (Uint2 0 0)) by reflexivity.
  assert (Hzero : Forall (fun r => r = Uint2 0 0)
                    (replicate (Z.to_nat (tile_count grid)) (Uint2 0 0))).
  { apply Forall_replicate. reflexivity. }
  split; [reflexivity|]. split; [|split; [|split; [|split]]].
  - intros Hin. rewrite List.Forall_forall in Hev.
    destruct (Hev _ Hin) as [Hneq|Hpos]; [congruence|lia].
  - rewrite Htable. apply length_replicate.
  - exact Hzero.
  - apply (render_empty_table alpha_of _ grid _ _ width height background).
    exact Hzero.
  - apply (render_empty_table alpha_of _ grid _ _ width height background).
    exact Hzero.
Qed.

(** ** The configuration error *)

(** C8.  When the channel count is not 3 and no precomputed colours are
    given, [forward] throws its [runtime_error], and it does so before
    anything is dispatched to the device: all that has happened by then
    is that the two arena resizers of the caller were called for the
    geometry and the image state. *)
Theorem forward_config_error_first (scan_temp_bytes sort_temp_bytes : Z -> Z)
    (NUM_CHANNELS : Z) (alpha_of : Z -> Z -> Z -> Q)
    (width height : Z) (background : list Q)
    (colors_precomp : option (Z -> list Q)) (rgb : Z -> list Q)
    (geom : list gaussian) (garbage : nat -> Z) :
  NUM_CHANNELS <> 3 -> colors_precomp = None ->
  let run := forward scan_temp_bytes sort_temp_bytes NUM_CHANNELS alpha_of
               width height background colors_precomp rgb geom garbage [] in
  snd run = inl (runtime_error "For non-RGB, provide precomputed Gaussian colors!") /\
  Forall (fun e => device_work e = false) (fst run) /\
  fst run = [Call_geometryBuffer
               (required scan_temp_bytes sort_temp_bytes Geometry
                  (size_t_of_int (Z.of_nat (length geom))));
             Call_imageBuffer
               (required scan_temp_bytes sort_temp_bytes Image
                  (size_t_of_int (width * height)))].
Proof.
  intros Hn Hc run. subst run.
  rewrite (forward_config_error scan_temp_bytes sort_temp_bytes NUM_CHANNELS alpha_of
             width height background colors_precomp rgb geom garbage Hn Hc).
  cbn [fst snd]. repeat split. repeat constructor.
Qed.

(** ** The read-back needs a primitive *)

(** One call of [obtain] at a time: its two results get names. *)
Ltac name_obtain :=
  match goal with
  | |- context [obtain ?c ?n ?s ?a] =>
      let p := fresh "ptr" in
      let c' := fresh "chunk" in
      let E := fresh "E" in
      destruct (obtain c n s a) as [p c'] eqn:E; cbv beta iota
  end.



(** ** The packed arena: dry run and real carve *)

Lemma align128_eq (chunk : Z) : align128 chunk = (chunk + 127) / 128 * 128.
Proof.
  unfold align128. change (128 - 1) with (Z.ones 7).
  rewrite <- Z.ldiff_land, Z.ldiff_ones_r by lia.
  rewrite Z.shiftl_mul_pow2, Z.shiftr_div_pow2 by lia.
  replace (chunk + 128 - 1) with (chunk + 127) by lia. reflexivity.
Qed.

Lemma align128_bounds (chunk : Z) :
  chunk <= align128 chunk < chunk + 128 /\ align128 chunk mod 128 = 0.
Proof.
  rewrite align128_eq. split.
  - pose proof (Z.div_mod (chunk + 127) 128 ltac:(lia)).
    pose proof (Z.mod_pos_bound (chunk + 127) 128 ltac:(lia)). lia.
  - apply Z_mod_mult.
Qed.

Lemma align128_aligned (chunk : Z) : chunk mod 128 = 0 -> align128 chunk = chunk.
Proof.
  intros H. rewrite align128_eq.
  pose proof (Z.div_mod chunk 128 ltac:(lia)) as Hc.
  pose proof (Z.div_mod (chunk + 127) 128 ltac:(lia)) as Hd.
  pose proof (Z.mod_pos_bound (chunk + 127) 128 ltac:(lia)). lia.
Qed.

Lemma align128_shift (base c : Z) :
  base mod 128 = 0 -> align128 (base + c) = base + align128 c.
Proof.
  intros H. rewrite !align128_eq.
  pose proof (Z.div_mod base 128 ltac:(lia)) as Hb.
  pose proof (Z.div_mod (c + 127) 128 ltac:(lia)) as Hc.
  pose proof (Z.mod_pos_bound (c + 127) 128 ltac:(lia)).
  pose proof (Z.div_mod (base + c + 127) 128 ltac:(lia)) as Hd.
  pose proof (Z.mod_pos_bound (base + c + 127) 128 ltac:(lia)). lia.
Qed.

(** [obtain] with the alignment 128 of every call in [fromChunk]. *)
Lemma obtain_128 (chunk count elt_size : Z) :
  obtain chunk count elt_size 128
  = (align128 chunk, align128 chunk + count * elt_size).
Proof. reflexivity. Qed.

(** A carve from a 128-aligned base is the dry run, moved to the base. *)
Lemma obtain_shift (base c count elt_size : Z) :
  base mod 128 = 0 ->
  obtain (base + c) count elt_size 128
  = (base + fst (obtain c count elt_size 128), base + snd (obtain c count elt_size 128)).
Proof.
  intros H. rewrite !obtain_128. cbn [fst snd]. rewrite align128_shift by exact H.
  f_equal. lia.
Qed.

(** A carve only looks at its chunk pointer rounded up to 128. *)
Lemma obtain_align (chunk count elt_size : Z) :
  obtain chunk count elt_size 128 = obtain (align128 chunk) count elt_size 128.
Proof.
  rewrite !obtain_128.
  rewrite (align128_aligned (align128 chunk)) by apply align128_bounds. reflexivity.
Qed.

(** Names the results of the next dry-run call of [obtain] and moves the
    matching call of the real carve onto them. *)
Ltac shift_obtain Hbase :=
  match goal with
  | |- context [obtain (?base + ?c) ?n ?s 128] =>
      rewrite (obtain_shift base c n s Hbase);
      let p := fresh "ptr" in
      let c' := fresh "chunk" in
      destruct (obtain c n s 128) as [p c']; cbv beta iota; cbn [fst snd]
  end.

Section ArenaProofs.

Variable scan_temp_bytes : Z -> Z.
Variable sort_temp_bytes : Z -> Z.

Lemma carve_shift (T : state_type) (base n : Z) :
  base mod 128 = 0 ->
  carve scan_temp_bytes sort_temp_bytes T base n
  = (map (Z.add base) (dry_run_offsets scan_temp_bytes sort_temp_bytes T n),
     base + dry_run_size scan_temp_bytes sort_temp_bytes T n).
Proof.
  intros Hbase. unfold dry_run_offsets, dry_run_size.
  rewrite <- (Z.add_0_r base) at 1.
  destruct T; unfold carve, GeometryState.fromChunk, ImageState.fromChunk,
    BinningState.fromChunk; cbv zeta; repeat shift_obtain Hbase; reflexivity.
Qed.

Lemma carve_align (T : state_type) (chunk n : Z) :
  carve scan_temp_bytes sort_temp_bytes T chunk n
  = carve scan_temp_bytes sort_temp_bytes T (align128 chunk) n.
Proof.
  destruct T; unfold carve, GeometryState.fromChunk, ImageState.fromChunk,
    BinningState.fromChunk; rewrite (obtain_align chunk); reflexivity.
Qed.

End ArenaProofs.

Lemma padding_bounds (chunk : Z) :
  0 <= padding chunk < 128 /\ align128 chunk = chunk + padding chunk.
Proof.
  unfold padding. rewrite align128_eq.
  pose proof (Z.mod_pos_bound (- chunk) 128 ltac:(lia)).
  pose proof (Z.div_mod (- chunk) 128 ltac:(lia)).
  pose proof (Z.div_mod (chunk + 127) 128 ltac:(lia)).
  pose proof (Z.mod_pos_bound (chunk + 127) 128 ltac:(lia)). lia.
Qed.

(** C6, as amended.  For every state type, element count and chunk
    pointer, the real carve of [fromChunk] puts each field at
    [chunk + pad + (its dry-run offset)] and ends at
    [chunk + pad + (the dry-run size)], where [pad = (- chunk) mod 128]
    is the distance from the chunk pointer to the next multiple of 128:
    between 0 and 127 bytes, and 0 for a 128-byte aligned chunk.  Counted
    from the chunk pointer, the carve therefore takes the dry-run size
    plus [pad] bytes. *)
Theorem fromChunk_carve_is_padded_dry_run (scan_temp_bytes sort_temp_bytes : Z -> Z)
    (T : state_type) (n chunk : Z) :
  carve scan_temp_bytes sort_temp_bytes T chunk n
  = (map (fun offset => chunk + padding chunk + offset)
         (dry_run_offsets scan_temp_bytes sort_temp_bytes T n),
     chunk + padding chunk + dry_run_size scan_temp_bytes sort_temp_bytes T n)
  /\ 0 <= padding chunk < 128
  /\ snd (carve scan_temp_bytes sort_temp_bytes T chunk n) - chunk
     = dry_run_size scan_temp_bytes sort_temp_bytes T n + padding chunk.
Proof.
  destruct (padding_bounds chunk) as [Hpad Halign].
  assert (Hcarve : carve scan_temp_bytes sort_temp_bytes T chunk n
            = (map (fun offset => chunk + padding chunk + offset)
                   (dry_run_offsets scan_temp_bytes sort_temp_bytes T n),
               chunk + padding chunk + dry_run_size scan_temp_bytes sort_temp_bytes T n)).
  { rewrite carve_align, carve_shift by apply align128_bounds.
    rewrite Halign. reflexivity. }
  split; [exact Hcarve|]. split; [exact Hpad|].
  rewrite Hcarve. cbn [snd]. lia.
Qed.

(** For a 128-byte aligned chunk the real carve is the dry run moved to
    the chunk pointer. *)
Corollary fromChunk_carve_aligned (scan_temp_bytes sort_temp_bytes : Z -> Z)
    (T : state_type) (n chunk : Z) :
  chunk mod 128 = 0 ->
  carve scan_temp_bytes sort_temp_bytes T chunk n
  = (map (Z.add chunk) (dry_run_offsets scan_temp_bytes sort_temp_bytes T n),
     chunk + dry_run_size scan_temp_bytes sort_temp_bytes T n).
Proof. apply carve_shift. Qed.

(** C6, as stated, fails for a chunk pointer that is not 128-byte
    aligned.  The image state of one pixel carved at address 64: the dry
    run puts the fields at 0, 128 and 256 and accumulates 264 bytes; the
    real carve puts them 64, 192 and 320 bytes after the chunk pointer
    and ends 328 bytes after it. *)
Lemma fromChunk_unaligned_chunk :
  dry_run_offsets no_temp no_temp Image 1 = [0; 128; 256] /\
  dry_run_size no_temp no_temp Image 1 = 264 /\
  map (fun ptr => ptr - 64) (fst (carve no_temp no_temp Image 64 1)) = [64; 192; 320] /\
  snd (carve no_temp no_temp Image 64 1) - 64 = 328 /\
  map (fun ptr => ptr - 64) (fst (carve no_temp no_temp Image 64 1))
    <> dry_run_offsets no_temp no_temp Image 1 /\
  snd (carve no_temp no_temp Image 64 1) - 64 <> dry_run_size no_temp no_temp Image 1.
Proof. repeat split; intros H; discriminate H. Qed.

(** ** [backward] *)

(** [backward] dispatches the two external gradient stages and nothing
    else: no scan, no expansion, no sort and no range pass. *)
Lemma backward_dispatches_no_expansion_or_sort (scan_temp_bytes sort_temp_bytes : Z -> Z)
    (P R width height geom_buffer binning_buffer img_buffer : Z) :
  fst (backward scan_temp_bytes sort_temp_bytes P R width height
         geom_buffer binning_buffer img_buffer [])
  = [Launch_BACKWARD_render; Launch_BACKWARD_preprocess] /\
  Forall (fun e => expansion_or_sort e = false)
         (fst (backward scan_temp_bytes sort_temp_bytes P R width height
                 geom_buffer binning_buffer img_buffer [])).
Proof. split; [reflexivity|]. repeat constructor. Qed.

(** ** Launches *)

Lemma launch_blocks_cover (P : Z) :
  0 <= P <= INT_MAX - 255 ->
  0 <= launch_blocks P * 256 - P < 256 /\ launch_blocks P = (P + 255) / 256.
Proof.
  unfold INT_MAX, launch_blocks. intros HP.
  rewrite Z.quot_div_nonneg by lia.
  assert (Hq : 0 <= (P + 255) / 256 < 2 ^ 32).
  { split; [apply Z.div_pos; lia|apply Z.div_lt_upper_bound; lia]. }
  rewrite wrap32_small by exact Hq.
  pose proof (Z.div_mod (P + 255) 256 ltac:(lia)).
  pose proof (Z.mod_pos_bound (P + 255) 256 ltac:(lia)). lia.
Qed.

Lemma rank_guard_spec (P : Z) (idx : nat) :
  0 <= P <= INT_MAX -> rank_guard P idx = (P <=? Z.of_nat idx).
Proof.
  unfold INT_MAX, rank_guard, wrap64. intros HP. rewrite Z.mod_small by lia. reflexivity.
Qed.

(** The ranks of the launch are those below [P], which run the body, and
    fewer than 256 ranks from [P] on, which return at once. *)
Lemma thread_ranks_split (P : Z) :
  0 <= P <= INT_MAX - 255 ->
  exists extra : nat,
    (extra < 256)%nat /\
    thread_ranks (launch_blocks P) 256 = seq 0 (Z.to_nat P) ++ seq (Z.to_nat P) extra.
Proof.
  intros HP. destruct (launch_blocks_cover P HP) as [Hcover _].
  exists (Z.to_nat (launch_blocks P * 256 - P)). split; [lia|].
  unfold thread_ranks. rewrite <- seq_app. f_equal. lia.
Qed.

Lemma foldl_guarded_below {S : Type} (P : Z) (body : S -> nat -> S) (n : nat) :
  0 <= P <= INT_MAX -> Z.of_nat n <= P ->
  forall s, foldl (fun s idx => if rank_guard P idx then s else body s idx) s (seq 0 n)
            = foldl body s (seq 0 n).
Proof.
  intros HP. induction n as [|n IH]; intros Hn s; [reflexivity|].
  rewrite seq_S, !foldl_app. cbn [foldl Nat.add]. rewrite IH by lia.
  rewrite rank_guard_spec by exact HP.
  destruct (Z.leb_spec P (Z.of_nat n)); [lia|reflexivity].
Qed.

Lemma foldl_guarded_above {S : Type} (P : Z) (body : S -> nat -> S) (extra : nat) :
  0 <= P <= INT_MAX ->
  forall (from : nat) (s : S),
    P <= Z.of_nat from ->
    foldl (fun s idx => if rank_guard P idx then s else body s idx) s (seq from extra) = s.
Proof.
  intros HP. induction extra as [|extra IH]; intros from s Hfrom; [reflexivity|].
  cbn [seq foldl]. rewrite rank_guard_spec by exact HP.
  destruct (Z.leb_spec P (Z.of_nat from)); [|lia]. apply IH. lia.
Qed.

Lemma launch_guarded_runs {S : Type} (P : Z) (body : S -> nat -> S) (s : S) :
  0 <= P <= INT_MAX - 255 ->
  launch_guarded P body s = foldl body s (seq 0 (Z.to_nat P)).
Proof.
  intros HP. unfold launch_guarded.
  destruct (thread_ranks_split P HP) as (extra & _ & ->).
  assert (HP' : 0 <= P <= INT_MAX) by (unfold INT_MAX in *; lia).
  rewrite foldl_app, foldl_guarded_below by lia.
  apply foldl_guarded_above; [exact HP'|lia].
Qed.

(** X1.  The launch [<<<(n + 255) / 256, 256>>>] with the rank guard, as
    [forward] launches [duplicateWithKeys] on [P] primitives and
    [identifyTileRanges] on [L] keys: for a count between 0 and
    [INT_MAX - 255], below which [n + 255] does not overflow, the launch
    has at least [n] and fewer than [n + 256] threads, and the body of
    the kernel runs exactly once for every rank below [n], in a launch of
    no threads when [n] is 0. *)
Theorem launch_runs_every_rank_once (P L : Z) (geom : list gaussian) (offsets : list Z)
    (b : unsorted) (grid : dim3) (point_list_keys : list Z) (ranges : list uint2) :
  0 <= P <= INT_MAX - 255 -> 0 <= L <= INT_MAX - 255 ->
  (P <= launch_blocks P * 256 < P + 256) /\
  (P = 0 -> thread_ranks (launch_blocks P) 256 = []) /\
  launch_guarded P (duplicateWithKeys_thread geom offsets grid) b
  = duplicateWithKeys (Z.to_nat P) geom offsets b grid /\
  launch_guarded L (identifyTileRanges_thread L point_list_keys) ranges
  = identifyTileRanges L point_list_keys ranges.
Proof.
  intros HP HL. destruct (launch_blocks_cover P HP) as [Hcover Hblocks].
  split; [lia|]. split.
  - intros ->. reflexivity.
  - split; apply launch_guarded_runs; assumption.
Qed.

(** ** [markVisible] *)

Section FrustumProofs.

Variables points matrix : Type.
Variable in_frustum : Z -> points -> matrix -> matrix -> bool -> bool.
Variables (orig_points : points) (viewmatrix projmatrix : matrix).

Let flag (idx : nat) : bool :=
  in_frustum (Z.of_nat idx) orig_points viewmatrix projmatrix false.

Lemma markVisible_prefix (present : list bool) (n : nat) :
  (n <= length present)%nat ->
  foldl (fun present idx => <[idx := flag idx]> present) present (seq 0 n)
  = map flag (seq 0 n) ++ drop n present.
Proof.
  induction n as [|n IH]; intros Hn; [reflexivity|].
  rewrite seq_S, foldl_app, map_app, IH by lia. cbn [foldl map Nat.add].
  rewrite insert_app_r_alt by (rewrite length_map, length_seq; lia).
  rewrite length_map, length_seq, Nat.sub_diag.
  destruct (drop n present) as [|old rest] eqn:Hdrop.
  - apply (f_equal length) in Hdrop. rewrite length_drop in Hdrop. cbn in Hdrop. lia.
  - cbn [insert list_insert]. rewrite <- app_assoc. cbn [app]. do 2 f_equal.
    replace (S n) with (n + 1)%nat by lia. rewrite <- drop_drop, Hdrop. reflexivity.
Qed.

End FrustumProofs.

(** X2.  [markVisible] on an array of at least [P] flags, for [P] between
    0 and [INT_MAX - 255]: entry [idx] becomes the verdict of the frustum
    test on primitive [idx] for every [idx < P], whatever it held, and the
    entries from [P] on are left as they were; with [P = 0] nothing is
    written. *)
Theorem markVisible_flags (points matrix : Type)
    (in_frustum : Z -> points -> matrix -> matrix -> bool -> bool)
    (P : Z) (means3D : points) (viewmatrix projmatrix : matrix) (present : list bool) :
  0 <= P <= INT_MAX - 255 -> P <= Z.of_nat (length present) ->
  let present' := markVisible points matrix in_frustum P means3D viewmatrix projmatrix
                    present in
  length present' = length present /\
  (forall idx : nat, Z.of_nat idx < P ->
     present' !! idx = Some (in_frustum (Z.of_nat idx) means3D viewmatrix projmatrix false)) /\
  (forall idx : nat, P <= Z.of_nat idx -> present' !! idx = present !! idx) /\
  (P = 0 -> present' = present).
Proof.
  intros HP Hlen present'.
  assert (E : present'
              = map (fun idx => in_frustum (Z.of_nat idx) means3D viewmatrix projmatrix false)
                    (seq 0 (Z.to_nat P)) ++ drop (Z.to_nat P) present).
  { subst present'. unfold markVisible.
    change (foldl (checkFrustum points matrix in_frustum P means3D viewmatrix projmatrix)
                  present (thread_ranks (launch_blocks P) 256))
      with (launch_guarded P
              (fun present idx =>
                 <[idx := in_frustum (Z.of_nat idx) means3D viewmatrix projmatrix false]>
                   present) present).
    rewrite launch_guarded_runs by exact HP.
    apply markVisible_prefix. lia. }
  rewrite E. split; [|split; [|split]].
  - rewrite length_app, length_map, length_seq, length_drop. lia.
  - intros idx Hidx. rewrite lookup_app_l by (rewrite length_map, length_seq; lia).
    rewrite list_lookup_fmap, lookup_seq_lt by lia. reflexivity.
  - intros idx Hidx. rewrite lookup_app_r by (rewrite length_map, length_seq; lia).
    rewrite length_map, length_seq, lookup_drop. f_equal. lia.
  - intros ->. reflexivity.
Qed.

(** ** The layout of an instance key *)

(** A key below [2^64] is its tile field times [2^32] plus its depth
    field. *)
Lemma key_fields_sum (key : Z) :
  0 <= key < 2 ^ 64 ->
  key = key_tile key * 2 ^ 32 + key_depth key /\
  0 <= key_tile key < 2 ^ 32 /\ 0 <= key_depth key < 2 ^ 32.
Proof.
  intros Hk. unfold key_tile, key_depth.
  rewrite Z.shiftr_div_pow2, Z.land_ones by lia.
  assert (Hq : 0 <= key / 2 ^ 32 < 2 ^ 32).
  { split; [apply Z.div_pos; lia|apply Z.div_lt_upper_bound; lia]. }
  rewrite wrap32_small by exact Hq.
  pose proof (Z.div_mod key (2 ^ 32) ltac:(lia)).
  pose proof (Z.mod_pos_bound key (2 ^ 32) ltac:(lia)). lia.
Qed.

Lemma pack_key_sum (grid : dim3) (depth y x : Z) :
  0 <= y * gx grid -> 0 <= x -> y * gx grid + x < 2 ^ 32 -> 0 <= depth < 2 ^ 32 ->
  pack_key grid depth y x = (y * gx grid + x) * 2 ^ 32 + depth.
Proof.
  intros Hy Hx Ht Hd.
  destruct (pack_key_fields grid depth y x Hy Hx Ht Hd) as (Htile & Hdepth & Hrange).
  destruct (key_fields_sum (pack_key grid depth y x)) as (Hsum & _).
  { split; [lia|]. nia. }
  rewrite Htile, Hdepth in Hsum. exact Hsum.
Qed.

(** X3.  The key that [duplicateWithKeys] packs for the cell [(y, x)] of
    a grid whose tile count fits an [unsigned], and for 32 depth bits, is
    [tile * 2^32 + depth bits] with [tile = y * grid.x + x]; the two
    fields that [identifyTileRanges] and the sort read back from it
    ([key >> 32] and the low 32 bits) are that tile, which is below the
    tile count, and those depth bits; and two cells of the grid or two
    depths never share a key. *)
Theorem pack_key_round_trip (grid : dim3) (depth y x depth' y' x' : Z) :
  gx grid * gy grid <= 2 ^ 32 ->
  0 <= y < gy grid -> 0 <= x < gx grid -> 0 <= depth < 2 ^ 32 ->
  0 <= y' < gy grid -> 0 <= x' < gx grid -> 0 <= depth' < 2 ^ 32 ->
  let key := pack_key grid depth y x in
  key = (y * gx grid + x) * 2 ^ 32 + depth /\
  0 <= key < 2 ^ 64 /\
  key_tile key = y * gx grid + x /\
  0 <= key_tile key < gx grid * gy grid /\
  key_depth key = depth /\
  (pack_key grid depth' y' x' = key -> y' = y /\ x' = x /\ depth' = depth).
Proof.
  intros Hfit Hy Hx Hd Hy' Hx' Hd' key. subst key.
  assert (Ht : 0 <= y * gx grid /\ 0 <= y * gx grid + x < gx grid * gy grid) by nia.
  assert (Ht' : 0 <= y' * gx grid /\ 0 <= y' * gx grid + x' < gx grid * gy grid) by nia.
  destruct (pack_key_fields grid depth y x) as (Htile & Hdepth & _); try lia.
  rewrite (pack_key_sum grid depth y x) in * by lia.
  rewrite (pack_key_sum grid depth' y' x') by lia.
  split; [reflexivity|]. split; [nia|]. split; [exact Htile|].
  split; [rewrite Htile; lia|]. split; [exact Hdepth|].
  intros E.
  assert (Etile : y' * gx grid + x' = y * gx grid + x) by nia.
  assert (Ey : y' = y) by nia.
  subst y'. repeat split; lia.
Qed.

(** X4.  Two keys below [2^64] compare as unsigned integers the way their
    (tile, depth bits) pairs compare lexicographically, tile first: this
    is why one ascending sort of the keys orders the instances by tile
    and, within a tile, by depth bits. *)
Theorem key_order_lexicographic (k1 k2 : Z) :
  0 <= k1 < 2 ^ 64 -> 0 <= k2 < 2 ^ 64 ->
  (k1 <= k2 <->
   key_tile k1 < key_tile k2 \/
   (key_tile k1 = key_tile k2 /\ key_depth k1 <= key_depth k2)) /\
  (k1 = k2 <-> key_tile k1 = key_tile k2 /\ key_depth k1 = key_depth k2).
Proof.
  intros H1 H2.
  destruct (key_fields_sum k1 H1) as (E1 & Ht1 & Hd1).
  destruct (key_fields_sum k2 H2) as (E2 & Ht2 & Hd2).
  split; split.
  - intros Hle. rewrite E1, E2 in Hle. lia.
  - intros Hlex. rewrite E1, E2. lia.
  - intros ->. split; reflexivity.
  - intros [Et Ed]. rewrite E1, E2, Et, Ed. reflexivity.
Qed.

(** ** The write offsets of the expansion *)

Lemma start_offset_sum (counts : list Z) (idx : nat) :
  Forall (fun c => 0 <= c) counts -> Zsum counts < 2 ^ 32 ->
  (idx <= length counts)%nat ->
  start_offset (InclusiveSum counts) idx = Zsum (take idx counts).
Proof.
  intros Hpos Hfit Hidx. unfold start_offset.
  destruct idx as [|i]; [reflexivity|]. cbn [Nat.eqb].
  replace (S i - 1)%nat with i by lia.
  rewrite InclusiveSum_lookup by (try assumption; lia). reflexivity.
Qed.

Lemma Zsum_take_step (counts : list Z) (i j : nat) (c : Z) :
  Forall (fun c => 0 <= c) counts -> (i < j)%nat -> counts !! i = Some c ->
  Zsum (take i counts) + c <= Zsum (take j counts).
Proof.
  intros Hpos Hij Hc.
  rewrite <- (take_drop (S i) (take j counts)), Zsum_app.
  rewrite take_take, Nat.min_l by lia.
  rewrite (take_S_r _ _ _ Hc), Zsum_app, Zsum_cons. cbn [Zsum foldr].
  pose proof (Zsum_nonneg (drop (S i) (take j counts))
                (Forall_drop _ _ _ (Forall_take _ _ _ Hpos))). lia.
Qed.

(** X5.  The offset a thread of [duplicateWithKeys] starts from,
    [offsets[idx-1]] or 0 for the first, read in the inclusive prefix sum
    of counts whose total fits an [unsigned]: it is the sum of the counts
    of the primitives before [idx], so that primitive [idx] owns the
    slots from there up to the start of primitive [idx + 1], the slots of
    two primitives never overlap, and the slots of all the primitives end
    at the total. *)
Theorem start_offset_exclusive_sum (counts : list Z) :
  Forall (fun c => 0 <= c) counts -> Zsum counts < 2 ^ 32 ->
  let start := start_offset (InclusiveSum counts) in
  start 0%nat = 0 /\
  (forall idx : nat, (idx <= length counts)%nat -> start idx = Zsum (take idx counts)) /\
  (forall (idx : nat) (c : Z), counts !! idx = Some c -> start (S idx) = start idx + c) /\
  (forall (i j : nat) (c : Z),
      (i < j)%nat -> (j <= length counts)%nat -> counts !! i = Some c ->
      start i + c <= start j) /\
  start (length counts) = Zsum counts.
Proof.
  intros Hpos Hfit start. subst start.
  split; [reflexivity|]. split; [|split; [|split]].
  - intros idx Hidx. apply start_offset_sum; assumption.
  - intros idx c Hc. pose proof (lookup_lt_Some _ _ _ Hc) as Hlt.
    rewrite !start_offset_sum by (try assumption; lia).
    rewrite (take_S_r _ _ _ Hc), Zsum_app, Zsum_cons. cbn [Zsum foldr]. lia.
  - intros i j c Hij Hj Hc.
    rewrite !start_offset_sum by (try assumption; lia).
    apply Zsum_take_step; assumption.
  - rewrite start_offset_sum, firstn_all by (try assumption; lia). reflexivity.
Qed.

(** ** Threads that store to different cells *)

(** A fold over a list without repetition does not depend on the order of
    the list when any two of the steps commute. *)
Lemma foldl_commute_permutation {S A : Type} (good : S -> Prop) (dom : A -> Prop)
    (f : S -> A -> S) :
  (forall s a, good s -> dom a -> good (f s a)) ->
  (forall s a b, good s -> dom a -> dom b -> a <> b -> f (f s a) b = f (f s b) a) ->
  forall l1 l2 : list A,
    Permutation l1 l2 -> List.NoDup l1 -> List.Forall dom l1 ->
    forall s, good s -> foldl f s l1 = foldl f s l2.
Proof.
  intros Hkeep Hcomm l1 l2 Hperm.
  induction Hperm as [|x l l' _ IH|x y l|l l' l'' H1 IH1 H2 IH2];
    intros Hnd Hdom s Hs.
  - reflexivity.
  - cbn [foldl]. inversion Hnd; subst. inversion Hdom; subst.
    apply IH; auto.
  - cbn [foldl]. inversion Hnd as [|? ? Hy Hnd']; subst.
    inversion Hdom as [|? ? Hdy Hdom']; subst. inversion Hdom'; subst.
    rewrite (Hcomm s y x); auto.
    intros ->. apply Hy. left. reflexivity.
  - rewrite IH1 by assumption. apply IH2; [| |assumption].
    + eapply Permutation_NoDup; eassumption.
    + eapply Permutation_Forall; eassumption.
Qed.

Lemma length_splice {A : Type} (s : nat) (new l : list A) :
  (s + length new <= length l)%nat -> length (splice s new l) = length l.
Proof.
  intros H. unfold splice. rewrite !length_app, length_take, length_drop. lia.
Qed.

Lemma lookup_splice {A : Type} (s : nat) (new l : list A) (j : nat) :
  (s + length new <= length l)%nat ->
  splice s new l !! j
  = if decide (s <= j < s + length new)%nat then new !! (j - s)%nat else l !! j.
Proof.
  intros H. unfold splice.
  assert (Htake : length (take s l) = s) by (rewrite length_take; lia).
  destruct (decide (s <= j < s + length new)%nat) as [Hin|Hout].
  - rewrite lookup_app_r by lia. rewrite Htake. apply lookup_app_l. lia.
  - destruct (Nat.lt_ge_cases j s) as [Hlt|Hge].
    + rewrite lookup_app_l by lia. apply lookup_take_lt. exact Hlt.
    + rewrite lookup_app_r by lia. rewrite Htake.
      rewrite lookup_app_r by lia. rewrite lookup_drop. f_equal. lia.
Qed.

(** Two overwrites of disjoint parts of a list commute. *)
Lemma splice_commute {A : Type} (s1 s2 : nat) (new1 new2 l : list A) :
  (s1 + length new1 <= s2)%nat -> (s2 + length new2 <= length l)%nat ->
  splice s2 new2 (splice s1 new1 l) = splice s1 new1 (splice s2 new2 l).
Proof.
  intros H1 H2. apply list_eq. intros j.
  rewrite !lookup_splice by (rewrite ?length_splice; lia).
  repeat destruct (decide _); try reflexivity; lia.
Qed.

(** ** [duplicateWithKeys]: the threads in any order *)

Section ExpansionOrder.

Variables (grid : dim3) (geom : list gaussian).

Let offsets := InclusiveSum (map g_tiles_touched geom).
Let R := instance_count grid geom.
Let slot (idx : nat) : nat := instance_count grid (take idx geom).
Let sized (b : unsorted) : Prop :=
  length (gaussian_keys_unsorted b) = R /\ length (gaussian_values_unsorted b) = R.

Hypothesis Hok : preprocess_ok grid geom.
Hypothesis Hfit : Z.of_nat R < 2 ^ 32.

Lemma slot_next (idx : nat) (g : gaussian) :
  geom !! idx = Some g -> slot (S idx) = (slot idx + length (instances grid g))%nat.
Proof.
  intros Hg. unfold slot. rewrite (take_S_r _ _ _ Hg), instance_count_app.
  unfold instance_count at 2. cbn [flat_map]. rewrite app_nil_r. reflexivity.
Qed.

Lemma slot_monotone (i j : nat) : (i <= j)%nat -> (slot i <= slot j)%nat.
Proof.
  intros Hij. unfold slot.
  replace (take i geom) with (take i (take j geom))
    by (rewrite take_take, Nat.min_l by lia; reflexivity).
  apply instance_count_take_le.
Qed.

Lemma slot_le_total (idx : nat) : (slot idx <= R)%nat.
Proof. apply instance_count_take_le. Qed.

(** A thread overwrites its slots and nothing else. *)
Lemma duplicateWithKeys_thread_splice (b : unsorted) (idx : nat) (g : gaussian) :
  sized b -> geom !! idx = Some g ->
  duplicateWithKeys_thread geom offsets grid b idx
  = Unsorted (splice (slot idx) (instance_keys grid g) (gaussian_keys_unsorted b))
             (splice (slot idx)
                     (replicate (length (instances grid g)) (Z.of_nat idx))
                     (gaussian_values_unsorted b)).
Proof.
  intros [Hk Hv] Hg.
  pose proof (lookup_lt_Some _ _ _ Hg) as Hidx.
  pose proof (slot_next idx g Hg) as Hnext.
  pose proof (slot_le_total (S idx)) as Hle.
  assert (Hstart : start_offset offsets idx = Z.of_nat (slot idx)).
  { apply start_offset_instances; assumption. }
  rewrite (duplicateWithKeys_thread_stores geom offsets grid b idx g Hg);
    rewrite ?Hstart, ?Nat2Z.id; try lia.
  unfold splice. rewrite length_instance_keys, length_replicate. reflexivity.
Qed.

Lemma duplicateWithKeys_thread_sized (b : unsorted) (idx : nat) :
  sized b -> sized (duplicateWithKeys_thread geom offsets grid b idx).
Proof.
  intros Hb. destruct (geom !! idx) as [g|] eqn:Hg.
  - rewrite (duplicateWithKeys_thread_splice b idx g Hb Hg).
    destruct Hb as [Hk Hv].
    pose proof (slot_next idx g Hg). pose proof (slot_le_total (S idx)).
    split; cbn [gaussian_keys_unsorted gaussian_values_unsorted];
      rewrite length_splice; rewrite ?length_instance_keys, ?length_replicate; lia.
  - unfold duplicateWithKeys_thread. rewrite Hg. exact Hb.
Qed.

Lemma duplicateWithKeys_threads_commute_lt (b : unsorted) (i j : nat) :
  sized b -> (i < j)%nat -> (j < length geom)%nat ->
  duplicateWithKeys_thread geom offsets grid
    (duplicateWithKeys_thread geom offsets grid b i) j
  = duplicateWithKeys_thread geom offsets grid
      (duplicateWithKeys_thread geom offsets grid b j) i.
Proof.
  intros Hb Hij Hj.
  destruct (lookup_lt_is_Some_2 geom i ltac:(lia)) as [gi Hgi].
  destruct (lookup_lt_is_Some_2 geom j Hj) as [gj Hgj].
  rewrite (duplicateWithKeys_thread_splice _ j gj (duplicateWithKeys_thread_sized b i Hb) Hgj).
  rewrite (duplicateWithKeys_thread_splice _ i gi (duplicateWithKeys_thread_sized b j Hb) Hgi).
  rewrite (duplicateWithKeys_thread_splice b i gi Hb Hgi).
  rewrite (duplicateWithKeys_thread_splice b j gj Hb Hgj).
  cbn [gaussian_keys_unsorted gaussian_values_unsorted].
  destruct Hb as [Hk Hv].
  pose proof (slot_next i gi Hgi). pose proof (slot_next j gj Hgj).
  pose proof (slot_monotone (S i) j ltac:(lia)). pose proof (slot_le_total (S j)).
  f_equal; apply splice_commute;
    rewrite ?length_instance_keys, ?length_replicate; lia.
Qed.

Lemma duplicateWithKeys_threads_commute (b : unsorted) (i j : nat) :
  sized b -> (i < length geom)%nat -> (j < length geom)%nat -> i <> j ->
  duplicateWithKeys_thread geom offsets grid
    (duplicateWithKeys_thread geom offsets grid b i) j
  = duplicateWithKeys_thread geom offsets grid
      (duplicateWithKeys_thread geom offsets grid b j) i.
Proof.
  intros Hb Hi Hj Hne. destruct (Nat.lt_ge_cases i j).
  - apply duplicateWithKeys_threads_commute_lt; assumption.
  - symmetry. apply duplicateWithKeys_threads_commute_lt; [assumption|lia|assumption].
Qed.

Lemma duplicateWithKeys_order (b : unsorted) (order : list nat) :
  sized b -> Permutation order (seq 0 (length geom)) ->
  foldl (duplicateWithKeys_thread geom offsets grid) b order
  = duplicateWithKeys (length geom) geom offsets b grid.
Proof.
  intros Hb Hperm. unfold duplicateWithKeys.
  apply (foldl_commute_permutation sized (fun idx => (idx < length geom)%nat)).
  - intros s a Hs _. apply duplicateWithKeys_thread_sized, Hs.
  - intros s i j Hs Hi Hj Hne. apply duplicateWithKeys_threads_commute; assumption.
  - exact Hperm.
  - apply (Permutation_NoDup (Permutation_sym Hperm)), seq_NoDup.
  - apply (Permutation_Forall (Permutation_sym Hperm)).
    apply List.Forall_forall. intros idx Hin. apply in_seq in Hin. lia.
  - exact Hb.
Qed.

End ExpansionOrder.

(** X6.  The launch of [duplicateWithKeys] does not depend on the order
    in which its threads run.  When the counts are those of the expansion
    and the arrays have one entry per instance, fewer than [2^32], the
    threads of any two primitives overwrite disjoint parts of the arrays,
    so that running them in any order of the ranks gives the arrays of
    the launch in increasing order. *)
Theorem duplicateWithKeys_any_order (grid : dim3) (geom : list gaussian)
    (b : unsorted) (order : list nat) :
  preprocess_ok grid geom ->
  Z.of_nat (instance_count grid geom) < 2 ^ 32 ->
  length (gaussian_keys_unsorted b) = instance_count grid geom ->
  length (gaussian_values_unsorted b) = instance_count grid geom ->
  Permutation order (seq 0 (length geom)) ->
  let offsets := InclusiveSum (map g_tiles_touched geom) in
  (forall i j : nat,
      (i < length geom)%nat -> (j < length geom)%nat -> i <> j ->
      duplicateWithKeys_thread geom offsets grid
        (duplicateWithKeys_thread geom offsets grid b i) j
      = duplicateWithKeys_thread geom offsets grid
          (duplicateWithKeys_thread geom offsets grid b j) i) /\
  foldl (duplicateWithKeys_thread geom offsets grid) b order
  = duplicateWithKeys (length geom) geom offsets b grid.
Proof.
  intros Hok Hfit Hk Hv Hperm offsets. split.
  - intros i j Hi Hj Hne.
    apply duplicateWithKeys_threads_commute; try assumption. split; assumption.
  - apply duplicateWithKeys_order; try assumption. split; assumption.
Qed.

(** ** The pairs of the expansion *)

Lemma zip_map_replicate {A B C : Type} (f : A -> B) (c : C) (l : list A) :
  zip (map f l) (replicate (length l) c) = map (fun a => (f a, c)) l.
Proof. induction l as [|a l IH]; [reflexivity|]. cbn. rewrite IH. reflexivity. Qed.

Lemma all_pairs_snoc (grid : dim3) (l : list gaussian) (g : gaussian) :
  all_pairs grid (l ++ [g])
  = all_pairs grid l
      ++ map (fun yx => (pack_key grid (g_depth g) (fst yx) (snd yx), Z.of_nat (length l)))
             (instances grid g).
Proof.
  unfold all_pairs. rewrite imap_app, flat_map_app. cbn [imap flat_map snd fst].
  rewrite app_nil_r, Nat.add_0_r. reflexivity.
Qed.

Lemma zip_all_keys_values (grid : dim3) (geom : list gaussian) :
  zip (all_keys grid geom) (all_values grid geom) = all_pairs grid geom.
Proof.
  induction geom as [|g l IH] using rev_ind; [reflexivity|].
  rewrite all_keys_snoc, all_values_snoc, all_pairs_snoc.
  rewrite (zip_with_app pair (all_keys grid l))
    by (rewrite length_all_keys, length_all_values; reflexivity).
  rewrite IH. f_equal.
  unfold instance_keys. apply (zip_map_replicate _ _ (instances grid g)).
Qed.

Lemma elem_of_all_pairs (grid : dim3) (geom : list gaussian) (key v : Z) :
  (key, v) ∈ all_pairs grid geom <->
  exists (idx : nat) (g : gaussian) (y x : Z),
    geom !! idx = Some g /\ (y, x) ∈ instances grid g /\
    key = pack_key grid (g_depth g) y x /\ v = Z.of_nat idx.
Proof.
  unfold all_pairs. rewrite list_elem_of_In, in_flat_map. split.
  - intros ([idx g] & Hin & Hkv). cbn [fst snd] in Hkv.
    apply list_elem_of_In, elem_of_lookup_imap in Hin as (i & g' & [= -> ->] & Hg).
    apply in_map_iff in Hkv as ([y x] & [= <- <-] & Hcell).
    exists i, g', y, x. cbn [fst snd]. repeat split; try assumption.
    apply list_elem_of_In, Hcell.
  - intros (idx & g & y & x & Hg & Hcell & -> & ->).
    exists (idx, g). split.
    + apply list_elem_of_In, elem_of_lookup_imap. exists idx, g. split; [reflexivity|exact Hg].
    + cbn [fst snd]. apply in_map_iff. exists (y, x). split; [reflexivity|].
      apply list_elem_of_In, Hcell.
Qed.

(** The slots of a primitive in the lists of the expansion. *)
Lemma all_keys_values_slot (grid : dim3) (geom : list gaussian) (idx k : nat)
    (g : gaussian) (yx : Z * Z) :
  geom !! idx = Some g -> instances grid g !! k = Some yx ->
  let j := (instance_count grid (take idx geom) + k)%nat in
  all_keys grid geom !! j = Some (pack_key grid (g_depth g) (fst yx) (snd yx)) /\
  all_values grid geom !! j = Some (Z.of_nat idx).
Proof.
  intros Hg Hk j.
  pose proof (lookup_lt_Some _ _ _ Hg) as Hidx.
  pose proof (lookup_lt_Some _ _ _ Hk) as Hlt.
  assert (Hpair : all_pairs grid geom !! j
                  = Some (pack_key grid (g_depth g) (fst yx) (snd yx), Z.of_nat idx)).
  { rewrite <- (take_drop (S idx) geom). rewrite (take_S_r _ _ _ Hg).
    unfold all_pairs at 1. rewrite imap_app, flat_map_app.
    fold (all_pairs grid (take idx geom ++ [g])). rewrite all_pairs_snoc.
    assert (Hlen : length (all_pairs grid (take idx geom))
                   = instance_count grid (take idx geom)).
    { rewrite <- zip_all_keys_values.
      rewrite length_zip_with_l_eq by (rewrite length_all_keys, length_all_values; reflexivity).
      apply length_all_keys. }
    rewrite lookup_app_l by (rewrite length_app, length_map, Hlen; subst j; lia).
    rewrite lookup_app_r by (rewrite Hlen; subst j; lia).
    rewrite Hlen. subst j. replace (_ + k - _)%nat with k by lia.
    rewrite list_lookup_fmap, Hk. cbn. rewrite length_take, Nat.min_l by lia.
    reflexivity. }
  rewrite <- zip_all_keys_values in Hpair.
  apply lookup_zip_with_Some in Hpair as (key & v & [= <- <-] & Hkey & Hv).
  split; assumption.
Qed.

(** X7.  The whole launch of [duplicateWithKeys], when the counts are
    those of the expansion and the arrays have one entry per instance,
    fewer than [2^32]: the arrays keep their length; slot
    [offsets[idx-1] + k] holds the key of the [k]-th cell of primitive
    [idx] and the value [idx]; and every slot is written, so that each
    pair of the arrays is the key of a cell of a primitive with the rank
    of that primitive, and nothing of what the arrays held before is
    left. *)
Theorem duplicateWithKeys_expansion (grid : dim3) (geom : list gaussian) (b : unsorted) :
  preprocess_ok grid geom ->
  Z.of_nat (instance_count grid geom) < 2 ^ 32 ->
  length (gaussian_keys_unsorted b) = instance_count grid geom ->
  length (gaussian_values_unsorted b) = instance_count grid geom ->
  let offsets := InclusiveSum (map g_tiles_touched geom) in
  let out := duplicateWithKeys (length geom) geom offsets b grid in
  length (gaussian_keys_unsorted out) = instance_count grid geom /\
  length (gaussian_values_unsorted out) = instance_count grid geom /\
  (forall (idx k : nat) (g : gaussian) (yx : Z * Z),
      geom !! idx = Some g -> instances grid g !! k = Some yx ->
      let j := (Z.to_nat (start_offset offsets idx) + k)%nat in
      gaussian_keys_unsorted out !! j
      = Some (pack_key grid (g_depth g) (fst yx) (snd yx)) /\
      gaussian_values_unsorted out !! j = Some (Z.of_nat idx)) /\
  (forall (j : nat) (key v : Z),
      gaussian_keys_unsorted out !! j = Some key ->
      gaussian_values_unsorted out !! j = Some v ->
      exists (idx : nat) (g : gaussian) (y x : Z),
        geom !! idx = Some g /\ (y, x) ∈ instances grid g /\
        key = pack_key grid (g_depth g) y x /\ v = Z.of_nat idx).
Proof.
  intros Hok Hfit Hk Hv offsets out.
  assert (E : out = Unsorted (all_keys grid geom) (all_values grid geom)).
  { subst out offsets. destruct b as [keys0 vals0]. cbn in Hk, Hv.
    apply duplicateWithKeys_fills; assumption. }
  rewrite E. cbn [gaussian_keys_unsorted gaussian_values_unsorted].
  split; [apply length_all_keys|]. split; [apply length_all_values|]. split.
  - intros idx k g yx Hg Hcell. cbv zeta. subst offsets.
    rewrite (start_offset_instances grid geom idx Hok Hfit)
      by (eapply lookup_lt_Some, Hg).
    rewrite Nat2Z.id. apply all_keys_values_slot; assumption.
  - intros j key v Hkey Hval. apply elem_of_all_pairs.
    rewrite <- zip_all_keys_values. apply list_elem_of_lookup. exists j.
    apply lookup_zip_with_Some. exists key, v. auto.
Qed.

(** ** [identifyTileRanges]: what a thread leaves alone *)



Lemma length_identifyTileRanges_threads (L : Z) (keys : list Z) (threads : list nat) :
  forall ranges : list uint2,
    length (foldl (identifyTileRanges_thread L keys) ranges threads) = length ranges.
Proof.
  induction threads as [|idx threads IH]; intros ranges; [reflexivity|].
  cbn [foldl]. rewrite IH. unfold identifyTileRanges_thread.
  destruct (keys !! idx) as [key|]; [|reflexivity]. cbv zeta.
  destruct (Z.of_nat idx =? L - 1); rewrite ?length_alter;
    (destruct (idx =? 0)%nat; rewrite ?length_alter; [reflexivity|]);
    (destruct (keys !! (idx - 1)%nat) as [prevkey|]; [|reflexivity]);
    (destruct (negb (key_tile key =? key_tile prevkey)); rewrite ?length_alter; reflexivity).
Qed.


(** ** [identifyTileRanges]: the threads in any order *)

Lemma lookup_alter_eff {A : Type} (h : A -> A) (c t : nat) (l : list A) :
  alter h c l !! t = (if (t =? c)%nat then h else id) <$> l !! t.
Proof.
  destruct (Nat.eqb_spec t c) as [->|Hne].
  - apply list_lookup_alter_eq.
  - rewrite list_lookup_alter_ne by congruence. destruct (l !! t); reflexivity.
Qed.

Section TileRangesOrder.

Variable keys : list Z.

Let L := length keys.

Hypothesis Hsorted : forall (i j : nat) (ki kj : Z),
  (i <= j)%nat -> keys !! i = Some ki -> keys !! j = Some kj ->
  (tile_of ki <= tile_of kj)%nat.
Hypothesis Hsmall : Z.of_nat L < 2 ^ 32.

(** The tile of thread [idx], and of the key before it. *)
Let curr (idx : nat) : nat := tile_of (default 0 (keys !! idx)).
Let prev (idx : nat) : nat := curr (idx - 1).

(** What thread [idx] does to the entry of tile [t]. *)
Let effect (idx t : nat) (r : uint2) : uint2 :=
  let r :=
    if (idx =? 0)%nat then (if (t =? curr idx)%nat then set_x 0 r else r)
    else if negb (curr idx =? prev idx)%nat then
           let r := if (t =? prev idx)%nat then set_y (Z.of_nat idx) r else r in
           if (t =? curr idx)%nat then set_x (Z.of_nat idx) r else r
         else r in
  if (idx =? L - 1)%nat then (if (t =? curr idx)%nat then set_y (Z.of_nat L) r else r)
  else r.

Lemma identifyTileRanges_thread_effect (ranges : list uint2) (idx t : nat) :
  (idx < L)%nat ->
  identifyTileRanges_thread (Z.of_nat L) keys ranges idx !! t
  = effect idx t <$> ranges !! t.
Proof.
  intros Hidx.
  destruct (lookup_lt_is_Some_2 keys idx Hidx) as [key Hkey].
  assert (Hprev : exists prevkey,
             (idx <> 0%nat -> keys !! (idx - 1)%nat = Some prevkey) /\
             (idx <> 0%nat -> tile_of prevkey = prev idx)).
  { destruct (Nat.eq_dec idx 0%nat) as [->|Hpos]; [exists key; split; congruence|].
    destruct (lookup_lt_is_Some_2 keys (idx - 1)%nat) as [pk Hpk]; [fold L; lia|].
    exists pk. split; intros _; [exact Hpk|]. unfold prev, curr. rewrite Hpk. reflexivity. }
  destruct Hprev as (prevkey & Hpk & Hpt).
  rewrite (identifyTileRanges_thread_eq L keys ranges idx key prevkey Hsmall Hidx Hkey Hpk).
  assert (Hcurr : tile_of key = curr idx) by (unfold curr; rewrite Hkey; reflexivity).
  cbv zeta. unfold effect, open_close. rewrite Hcurr.
  destruct (Nat.eqb_spec idx 0%nat) as [E0|E0].
  - destruct (idx =? L - 1)%nat; rewrite ?lookup_alter_eff;
      destruct (ranges !! t); cbn; try reflexivity;
      destruct (t =? curr idx)%nat; reflexivity.
  - rewrite (Hpt E0).
    destruct (idx =? L - 1)%nat; destruct (curr idx =? prev idx)%nat; cbn [negb];
      rewrite ?lookup_alter_eff; destruct (ranges !! t); cbn; try reflexivity;
      destruct (t =? curr idx)%nat; destruct (t =? prev idx)%nat; reflexivity.
Qed.

Lemma curr_monotone (i j : nat) : (i <= j)%nat -> (j < L)%nat -> (curr i <= curr j)%nat.
Proof.
  intros Hij Hj. unfold curr.
  destruct (lookup_lt_is_Some_2 keys i) as [ki Hki]; [fold L; lia|].
  destruct (lookup_lt_is_Some_2 keys j Hj) as [kj Hkj].
  rewrite Hki, Hkj. apply (Hsorted i j); assumption.
Qed.

(** On sorted keys no field of an entry is written by two threads. *)
Lemma effect_commute_lt (i j t : nat) (r : uint2) :
  (i < j)%nat -> (j < L)%nat ->
  effect j t (effect i t r) = effect i t (effect j t r).
Proof.
  intros Hij Hj.
  assert (H1 : (i <> 0 -> prev i <= curr i)%nat).
  { intros Hi. apply curr_monotone; lia. }
  assert (H2 : (curr i <= prev j)%nat) by (apply curr_monotone; lia).
  assert (H3 : (prev j <= curr j)%nat) by (apply curr_monotone; lia).
  unfold effect. destruct r as [x y]. unfold set_x, set_y. cbn [ux uy].
  destruct (Nat.eqb_spec j 0%nat) as [?|_]; [lia|].
  destruct (Nat.eqb_spec i (L - 1)%nat) as [?|_]; [lia|].
  destruct (Nat.eqb_spec i 0%nat) as [Ei|Ei];
    destruct (Nat.eqb_spec j (L - 1)%nat) as [Ej|Ej];
    destruct (Nat.eqb_spec (curr j) (prev j)) as [Ecj|Ecj]; cbn [negb];
    try (destruct (Nat.eqb_spec (curr i) (prev i)) as [Eci|Eci]; cbn [negb]);
    repeat match goal with
           | |- context [(t =? ?c)%nat] => destruct (Nat.eqb_spec t c); cbn [ux uy]
           end;
    try reflexivity; try (specialize (H1 Ei)); lia.
Qed.

Lemma identifyTileRanges_threads_commute (ranges : list uint2) (i j : nat) :
  (i < L)%nat -> (j < L)%nat -> i <> j ->
  identifyTileRanges_thread (Z.of_nat L) keys
    (identifyTileRanges_thread (Z.of_nat L) keys ranges i) j
  = identifyTileRanges_thread (Z.of_nat L) keys
      (identifyTileRanges_thread (Z.of_nat L) keys ranges j) i.
Proof.
  intros Hi Hj Hne. apply list_eq. intros t.
  rewrite !identifyTileRanges_thread_effect by assumption.
  destruct (ranges !! t) as [r|]; [|reflexivity]. cbn. f_equal.
  destruct (Nat.lt_ge_cases i j).
  - apply effect_commute_lt; assumption.
  - symmetry. apply effect_commute_lt; [lia|assumption].
Qed.

Lemma identifyTileRanges_order (ranges : list uint2) (order : list nat) :
  Permutation order (seq 0 L) ->
  foldl (identifyTileRanges_thread (Z.of_nat L) keys) ranges order
  = identifyTileRanges (Z.of_nat L) keys ranges.
Proof.
  intros Hperm. unfold identifyTileRanges. rewrite Nat2Z.id.
  apply (foldl_commute_permutation (fun _ => True) (fun idx => (idx < L)%nat)).
  - intros; exact I.
  - intros s i j _ Hi Hj Hne. apply identifyTileRanges_threads_commute; assumption.
  - exact Hperm.
  - apply (Permutation_NoDup (Permutation_sym Hperm)), seq_NoDup.
  - apply (Permutation_Forall (Permutation_sym Hperm)).
    apply List.Forall_forall. intros idx Hin. apply in_seq in Hin. lia.
  - exact I.
Qed.

End TileRangesOrder.

(** X9.  On keys sorted by tile, the launch of [identifyTileRanges] does
    not depend on the order in which its threads run: no field of an
    entry of the table is written by two threads, any two threads
    commute on any table, and running the threads in any order of the
    ranks gives the table of the launch in increasing order. *)
Theorem identifyTileRanges_any_order (keys : list Z) (L : Z) (ranges : list uint2)
    (order : list nat) :
  L = Z.of_nat (length keys) -> L <= INT_MAX ->
  tile_sorted keys ->
  Permutation order (seq 0 (length keys)) ->
  (forall (table : list uint2) (i j : nat),
      (i < length keys)%nat -> (j < length keys)%nat -> i <> j ->
      identifyTileRanges_thread L keys (identifyTileRanges_thread L keys table i) j
      = identifyTileRanges_thread L keys (identifyTileRanges_thread L keys table j) i) /\
  foldl (identifyTileRanges_thread L keys) ranges order
  = identifyTileRanges L keys ranges.
Proof.
  intros -> Hint Hsorted Hperm. unfold INT_MAX in Hint.
  pose proof (tile_sorted_rank keys Hsorted) as Hrank.
  split.
  - intros table i j Hi Hj Hne.
    apply identifyTileRanges_threads_commute; try assumption. lia.
  - apply identifyTileRanges_order; try assumption. lia.
Qed.

(** ** [forward]: what each tile is handed *)

Lemma final_member (keys : list Z) (t i : nat) (k : Z) :
  (forall (i j : nat) (ki kj : Z),
      (i <= j)%nat -> keys !! i = Some ki -> keys !! j = Some kj ->
      (tile_of ki <= tile_of kj)%nat) ->
  keys !! i = Some k ->
  (ux (final keys t) <= Z.of_nat i < uy (final keys t) <-> tile_of k = t).
Proof.
  intros Hrank Hk. unfold final.
  pose proof (below_prefix keys Hrank t i k Hk).
  pose proof (upto_prefix keys Hrank t i k Hk).
  destruct (touched keys (length keys) t) eqn:Ht; cbn [ux uy]; [lia|].
  split; [lia|]. intros Heq. exfalso.
  assert (touched keys (length keys) t = true); [|congruence].
  apply touched_iff. exists i, k. repeat split; try assumption.
  eapply lookup_lt_Some, Hk.
Qed.

(** The sort moves each key together with its value. *)
Lemma SortPairs_pairs (d_keys_in d_values_in : list Z) (num_items begin_bit end_bit : Z) :
  length d_keys_in = Z.to_nat num_items ->
  length d_values_in = Z.to_nat num_items ->
  let sorted := SortPairs d_keys_in d_values_in num_items begin_bit end_bit in
  Permutation (zip (fst sorted) (snd sorted)) (zip d_keys_in d_values_in) /\
  length (fst sorted) = Z.to_nat num_items /\
  length (snd sorted) = Z.to_nat num_items.
Proof.
  intros Hk Hv sorted. subst sorted. unfold SortPairs. cbn [fst snd].
  set (items := take (Z.to_nat num_items) (zip d_keys_in d_values_in)).
  assert (Hitems : items = zip d_keys_in d_values_in).
  { subst items. apply take_ge. rewrite length_zip_with_l_eq by lia. lia. }
  pose proof (radix_passes_perm items (for_range begin_bit end_bit)) as Hperm.
  rewrite zip_fst_snd, !length_fmap, (Permutation_length Hperm), Hitems.
  rewrite length_zip_with_l_eq by lia.
  split; [rewrite <- Hitems; exact Hperm|]. split; exact Hk.
Qed.

Lemma instances_in_grid (grid : dim3) (g : gaussian) (y x : Z) :
  0 <= gx grid -> 0 <= gy grid ->
  (y, x) ∈ instances grid g -> 0 <= y < gy grid /\ 0 <= x < gx grid.
Proof.
  intros Hx Hy Hin. unfold instances in Hin.
  destruct (0 <? g_radius g); [|apply elem_of_nil in Hin; destruct Hin].
  pose proof (getRect_clamped (g_xy g) (g_radius g) grid Hx Hy) as Hc.
  destruct (getRect (g_xy g) (g_radius g) grid) as [rect_min rect_max].
  cbn [fst snd] in Hc. apply elem_of_rect_tiles in Hin. lia.
Qed.

Section TileLists.

Variables (width height : Z) (geom : list gaussian).

Let grid := tile_grid width height.
Let R := Z.of_nat (instance_count grid geom).
Let sorted := SortPairs (all_keys grid geom) (all_values grid geom) R 0 (sort_end_bit grid).
Let table :=
  if 0 <? R
  then identifyTileRanges R (fst sorted) (replicate (Z.to_nat (tile_count grid)) (Uint2 0 0))
  else replicate (Z.to_nat (tile_count grid)) (Uint2 0 0).

Hypothesis Hcall : well_formed_call width height geom.

Lemma sorted_pairs :
  Permutation (zip (fst sorted) (snd sorted)) (all_pairs grid geom) /\
  length (fst sorted) = instance_count grid geom /\
  length (snd sorted) = instance_count grid geom.
Proof.
  destruct (SortPairs_pairs (all_keys grid geom) (all_values grid geom) R 0
              (sort_end_bit grid)) as (Hperm & Hk & Hv);
    rewrite ?length_all_keys, ?length_all_values; unfold R; try lia.
  fold R sorted in Hperm, Hk, Hv. rewrite zip_all_keys_values in Hperm.
  unfold R in Hk, Hv. rewrite Nat2Z.id in Hk, Hv. auto.
Qed.

Lemma sorted_keys_order : tile_depth_sorted (fst sorted).
Proof.
  intros i j ki kj Hij Hi Hj.
  destruct Hcall as (Hne & Himg & Hpre & Hfit & Htyped).
  pose proof (tile_grid_ok width height Himg) as Hgrid. cbv zeta in Hgrid.
  fold grid in Hgrid. destruct Hgrid as (Hx & Hy & Hxy & Hn).
  destruct (forward_sorted_perm width height geom) as [Hperm _].
  fold grid R sorted in Hperm.
  pose proof (sort_end_bit_bounds grid) as Hbits.
  pose proof (SortPairs_sorted (all_keys grid geom) (all_values grid geom) R
                (sort_end_bit grid) ltac:(lia)) as Hsorted.
  fold sorted in Hsorted.
  assert (Hrange : forall (n : nat) (k : Z), fst sorted !! n = Some k ->
            0 <= k < 2 ^ sort_end_bit grid).
  { intros n k Hk.
    assert (Hin : k ∈ all_keys grid geom).
    { rewrite <- Hperm. apply list_elem_of_lookup. exists n. exact Hk. }
    apply (all_keys_fields grid geom k Hx Hy Hxy Htyped Hin). }
  assert (Hpow : 2 ^ sort_end_bit grid <= 2 ^ 64) by (apply Z.pow_le_mono_r; lia).
  pose proof (Hrange i ki Hi). pose proof (Hrange j kj Hj).
  apply key_fields_monotone; try lia.
  destruct (Nat.eq_dec i j) as [->|Hneq]; [rewrite Hi in Hj; injection Hj; lia|].
  pose proof (StronglySorted_lookup _ _ Hsorted i j ki kj ltac:(lia) Hi Hj) as Hle.
  cbn beta in Hle. rewrite !Z.mod_small in Hle by lia. exact Hle.
Qed.

Lemma sorted_keys_rank (i j : nat) (ki kj : Z) :
  (i <= j)%nat -> fst sorted !! i = Some ki -> fst sorted !! j = Some kj ->
  (tile_of ki <= tile_of kj)%nat.
Proof.
  intros Hij Hi Hj. destruct (sorted_keys_order i j ki kj Hij Hi Hj) as [Hle _].
  unfold tile_of. apply Z2Nat.inj_le; try apply key_tile_nonneg. exact Hle.
Qed.

(** The table [forward] leaves: the range of a tile holds the positions
    of the keys of that tile. *)
Lemma table_member (t i : nat) (r : uint2) (k : Z) :
  table !! t = Some r -> fst sorted !! i = Some k ->
  (ux r <= Z.of_nat i < uy r <-> tile_of k = t).
Proof.
  intros Ht Hk. destruct sorted_pairs as (_ & Hlen & _).
  destruct Hcall as (_ & _ & _ & Hfit & _). fold grid in Hfit. unfold INT_MAX in Hfit.
  pose proof (lookup_lt_Some _ _ _ Hk) as Hi.
  assert (HR : Z.of_nat (length (fst sorted)) = R) by (rewrite Hlen; reflexivity).
  unfold table in Ht. destruct (Z.ltb_spec 0 R) as [Hpos|Hzero]; [|lia].
  pose proof (identifyTileRanges_final (fst sorted) (Z.to_nat (tile_count grid))
                sorted_keys_rank) as Hfinal.
  rewrite HR in Hfinal. destruct Hfinal as [Hl Hfinal]; [lia|].
  assert (Hlt : (t < Z.to_nat (tile_count grid))%nat).
  { pose proof (lookup_lt_Some _ _ _ Ht) as Hlt. rewrite Hl in Hlt. exact Hlt. }
  rewrite (Hfinal t Hlt) in Ht.
  assert (Er : r = final (fst sorted) t) by congruence. rewrite Er.
  apply final_member; [exact sorted_keys_rank|exact Hk].
Qed.

Lemma length_table : length table = Z.to_nat (tile_count grid).
Proof.
  unfold table. destruct (0 <? R); [|apply length_replicate].
  unfold identifyTileRanges. rewrite length_identifyTileRanges_threads.
  apply length_replicate.
Qed.

End TileLists.

(** X10.  Binning, end to end.  In a well-formed call [forward] returns,
    and for every tile [t] of the grid the range [ranges[t]] of the
    sorted value list [point_list] is the list of the primitives whose
    tile rectangle holds [t]: every entry of the range is the rank of
    such a primitive, and every cell of the rectangle of a primitive is
    an entry of the range of its tile, beside the key packed for it. *)
Theorem forward_tile_lists (scan_temp_bytes sort_temp_bytes : Z -> Z)
    (NUM_CHANNELS : Z) (alpha_of : Z -> Z -> Z -> Q)
    (width height : Z) (background : list Q)
    (colors_precomp : option (Z -> list Q)) (rgb : Z -> list Q)
    (geom : list gaussian) (garbage : nat -> Z) :
  config_ok NUM_CHANNELS colors_precomp ->
  well_formed_call width height geom ->
  let grid := tile_grid width height in
  exists out,
    snd (forward scan_temp_bytes sort_temp_bytes NUM_CHANNELS alpha_of
           width height background colors_precomp rgb geom garbage []) = inr out /\
    length (point_list out) = length (point_list_keys out) /\
    length (ranges out) = Z.to_nat (gx grid * gy grid) /\
    (forall (t i : nat) (r : uint2) (v : Z),
        ranges out !! t = Some r -> ux r <= Z.of_nat i < uy r ->
        point_list out !! i = Some v ->
        exists (idx : nat) (g : gaussian) (y x : Z),
          v = Z.of_nat idx /\ geom !! idx = Some g /\
          (y, x) ∈ instances grid g /\ y * gx grid + x = Z.of_nat t) /\
    (forall (idx : nat) (g : gaussian) (y x : Z),
        geom !! idx = Some g -> (y, x) ∈ instances grid g ->
        exists (r : uint2) (i : nat),
          ranges out !! Z.to_nat (y * gx grid + x) = Some r /\
          ux r <= Z.of_nat i < uy r /\
          point_list out !! i = Some (Z.of_nat idx) /\
          point_list_keys out !! i = Some (pack_key grid (g_depth g) y x)).
Proof.
  intros Hconfig Hcall grid.
  eexists. split; [apply forward_completes; assumption|].
  unfold forward_result. cbn [point_list point_list_keys ranges].
  rewrite (forward_binned width height geom garbage Hcall).
  cbn [gaussian_keys_unsorted gaussian_values_unsorted]. fold grid.
  set (R := Z.of_nat (instance_count grid geom)).
  set (sorted := SortPairs (all_keys grid geom) (all_values grid geom) R 0
                   (sort_end_bit grid)).
  destruct (sorted_pairs width height geom) as (Hperm & Hlk & Hlv).
  fold grid R sorted in Hperm, Hlk, Hlv.
  pose proof (length_table width height geom) as Hlt.
  pose proof (table_member width height geom Hcall) as Hmember.
  fold grid R sorted in Hlt, Hmember. cbv zeta in Hlt, Hmember.
  set (table := if 0 <? R then _ else _) in *.
  destruct Hcall as (Hne & Himg & Hpre & Hfit & Htyped).
  pose proof (tile_grid_ok width height Himg) as Hgrid. cbv zeta in Hgrid.
  fold grid in Hgrid. destruct Hgrid as (Hx & Hy & Hxy & Hn).
  unfold INT_MAX in Hxy.
  assert (Hcell : forall (g : gaussian) (y x : Z),
            g ∈ geom -> (y, x) ∈ instances grid g ->
            0 <= y * gx grid + x < gx grid * gy grid /\
            key_tile (pack_key grid (g_depth g) y x) = y * gx grid + x).
  { intros g y x Hg Hin.
    destruct (instances_in_grid grid g y x ltac:(lia) ltac:(lia) Hin) as [Hy' Hx'].
    unfold depths_typed in Htyped. rewrite Forall_forall in Htyped.
    destruct (pack_key_fields grid (g_depth g) y x) as (Ht & _);
      [nia|lia|nia|apply Htyped, Hg|].
    split; [nia|exact Ht]. }
  split; [congruence|]. split; [rewrite Hlt, Hn; reflexivity|]. split.
  - intros t i r v Hr Hi Hv.
    destruct (lookup_lt_is_Some_2 (fst sorted) i) as [k Hk];
      [rewrite Hlk, <- Hlv; eapply lookup_lt_Some, Hv|].
    assert (Hin : (k, v) ∈ all_pairs grid geom).
    { rewrite <- Hperm. apply list_elem_of_lookup. exists i.
      apply lookup_zip_with_Some. exists k, v. auto. }
    apply elem_of_all_pairs in Hin as (idx & g & y & x & Hg & Hyx & -> & ->).
    exists idx, g, y, x. repeat split; try assumption.
    destruct (Hcell g y x) as [Hrange Htile]; [eapply list_elem_of_lookup_2, Hg|exact Hyx|].
    apply (Hmember t i r _ Hr Hk) in Hi. unfold tile_of in Hi. lia.
  - intros idx g y x Hg Hyx.
    destruct (Hcell g y x) as [Hrange Htile]; [eapply list_elem_of_lookup_2, Hg|exact Hyx|].
    assert (Hin : (pack_key grid (g_depth g) y x, Z.of_nat idx) ∈ all_pairs grid geom).
    { apply elem_of_all_pairs. exists idx, g, y, x. auto. }
    rewrite <- Hperm in Hin. apply list_elem_of_lookup in Hin as (i & Hi).
    apply lookup_zip_with_Some in Hi as (k & v & [= <- <-] & Hk & Hv).
    destruct (lookup_lt_is_Some_2 table (Z.to_nat (y * gx grid + x))) as [r Hr];
      [rewrite Hlt, Hn; lia|].
    exists r, i. repeat split; try assumption;
      apply (Hmember _ i r _ Hr Hk); unfold tile_of; rewrite Htile; reflexivity.
Qed.

(** X11.  Each tile is handed its primitives front to back.  In a
    well-formed call, within the range of any tile the depth bits of the
    primitives that [point_list] names do not decrease; when the depths
    are non-negative, neither do the depths themselves. *)
Theorem forward_tile_front_to_back (scan_temp_bytes sort_temp_bytes : Z -> Z)
    (NUM_CHANNELS : Z) (alpha_of : Z -> Z -> Z -> Q)
    (width height : Z) (background : list Q)
    (colors_precomp : option (Z -> list Q)) (rgb : Z -> list Q)
    (geom : list gaussian) (garbage : nat -> Z) :
  config_ok NUM_CHANNELS colors_precomp ->
  well_formed_call width height geom ->
  exists out,
    snd (forward scan_temp_bytes sort_temp_bytes NUM_CHANNELS alpha_of
           width height background colors_precomp rgb geom garbage []) = inr out /\
    forall (t i j : nat) (r : uint2) (vi vj : Z),
      ranges out !! t = Some r ->
      ux r <= Z.of_nat i -> (i <= j)%nat -> Z.of_nat j < uy r ->
      point_list out !! i = Some vi -> point_list out !! j = Some vj ->
      exists gi gj : gaussian,
        geom !! Z.to_nat vi = Some gi /\ geom !! Z.to_nat vj = Some gj /\
        g_depth gi <= g_depth gj /\
        (f32_nonneg (g_depth gi) -> f32_nonneg (g_depth gj) ->
         (f32_value (g_depth gi) <= f32_value (g_depth gj))%Q).
Proof.
  intros Hconfig Hcall.
  eexists. split; [apply forward_completes; assumption|].
  unfold forward_result. cbn [point_list ranges].
  rewrite (forward_binned width height geom garbage Hcall).
  cbn [gaussian_keys_unsorted gaussian_values_unsorted].
  set (grid := tile_grid width height).
  set (R := Z.of_nat (instance_count grid geom)).
  set (sorted := SortPairs (all_keys grid geom) (all_values grid geom) R 0
                   (sort_end_bit grid)).
  destruct (sorted_pairs width height geom) as (Hperm & Hlk & Hlv).
  fold grid R sorted in Hperm, Hlk, Hlv.
  pose proof (table_member width height geom Hcall) as Hmember.
  pose proof (sorted_keys_order width height geom Hcall) as Horder.
  fold grid R sorted in Hmember, Horder. cbv zeta in Hmember.
  set (table := if 0 <? R then _ else _) in *.
  destruct Hcall as (Hne & Himg & Hpre & Hfit & Htyped).
  pose proof (tile_grid_ok width height Himg) as Hgrid. cbv zeta in Hgrid.
  fold grid in Hgrid. destruct Hgrid as (Hx & Hy & Hxy & Hn).
  unfold INT_MAX in Hxy.
  assert (Hentry : forall (i : nat) (v : Z),
            snd sorted !! i = Some v ->
            exists (k : Z) (g : gaussian),
              fst sorted !! i = Some k /\ geom !! Z.to_nat v = Some g /\
              key_depth k = g_depth g).
  { intros i v Hv.
    destruct (lookup_lt_is_Some_2 (fst sorted) i) as [k Hk];
      [rewrite Hlk, <- Hlv; eapply lookup_lt_Some, Hv|].
    assert (Hin : (k, v) ∈ all_pairs grid geom).
    { rewrite <- Hperm. apply list_elem_of_lookup. exists i.
      apply lookup_zip_with_Some. exists k, v. auto. }
    apply elem_of_all_pairs in Hin as (idx & g & y & x & Hg & Hyx & -> & ->).
    exists (pack_key grid (g_depth g) y x), g. rewrite Nat2Z.id.
    split; [exact Hk|]. split; [exact Hg|].
    destruct (instances_in_grid grid g y x ltac:(lia) ltac:(lia) Hyx) as [Hy' Hx'].
    destruct (cell_tile_range grid (gy grid) y x Hy' Hx' ltac:(lia)) as [Ht1 Ht2].
    unfold depths_typed in Htyped. rewrite Forall_forall in Htyped.
    destruct (pack_key_fields grid (g_depth g) y x) as (_ & Hd & _);
      [lia|lia|lia|eapply Htyped, list_elem_of_lookup_2, Hg|exact Hd]. }
  intros t i j r vi vj Hr Hlo Hij Hhi Hvi Hvj.
  destruct (Hentry i vi Hvi) as (ki & gi & Hki & Hgi & Hdi).
  destruct (Hentry j vj Hvj) as (kj & gj & Hkj & Hgj & Hdj).
  exists gi, gj. split; [exact Hgi|]. split; [exact Hgj|].
  assert (Hti : tile_of ki = t) by (apply (Hmember t i r ki Hr Hki); lia).
  assert (Htj : tile_of kj = t) by (apply (Hmember t j r kj Hr Hkj); lia).
  destruct (Horder i j ki kj Hij Hki Hkj) as [_ Hdepth].
  assert (Hle : g_depth gi <= g_depth gj).
  { rewrite <- Hdi, <- Hdj. apply Hdepth. unfold tile_of in Hti, Htj.
    pose proof (key_tile_nonneg ki). pose proof (key_tile_nonneg kj). lia. }
  split; [exact Hle|]. intros Hni Hnj. apply f32_value_monotone; assumption.
Qed.

(** ** [forward]: the order of the dispatches *)

Lemma forward_run (scan_temp_bytes sort_temp_bytes : Z -> Z)
    (NUM_CHANNELS : Z) (alpha_of : Z -> Z -> Z -> Q)
    (width height : Z) (background : list Q)
    (colors_precomp : option (Z -> list Q)) (rgb : Z -> list Q)
    (geom : list gaussian) (garbage : nat -> Z) :
  config_ok NUM_CHANNELS colors_precomp ->
  well_formed_call width height geom ->
  let R := Z.of_nat (instance_count (tile_grid width height) geom) in
  forward scan_temp_bytes sort_temp_bytes NUM_CHANNELS alpha_of
    width height background colors_precomp rgb geom garbage []
  = (forward_trace scan_temp_bytes sort_temp_bytes width height
       (Z.of_nat (length geom)) R,
     inr (forward_result alpha_of width height background colors_precomp rgb geom
            garbage R)).
Proof.
  intros Hconfig Hcall R.
  pose proof (forward_tiles_in_range width height geom Hcall) as Htiles.
  pose proof (forward_binned width height geom garbage Hcall) as Hbinned.
  destruct Hcall as (Hne & Himg & Hpre & Hfit & Htyped).
  pose proof (readback_total _ geom Hne Hpre Hfit) as Hread.
  pose proof (stores_in_range_ok _ geom Hpre Hfit) as Hstores.
  fold R in Htiles, Hbinned, Hread, Hstores.
  unfold forward_result, forward_trace.
  unfold forward, check, bind, dispatch, throw, ret. cbn [app].
  rewrite (config_test_passes _ _ Hconfig). cbn [app].
  rewrite Hread, Hstores. cbn [app]. rewrite Hbinned.
  cbn [gaussian_keys_unsorted gaussian_values_unsorted].
  destruct (0 <? R); cbn [app]; [rewrite Htiles|]; reflexivity.
Qed.

(** X12.  A well-formed call of [forward] dispatches, in this order: the
    resizer of the geometry state for [P] primitives and that of the
    image state for [width * height] pixels; the projection stage, the
    prefix sum and the read-back of the instance count [R]; only then the
    resizer of the binning state, for [R] instances; the expansion, the
    sort on [32 + bit] bits and the memset of the ranges; the range
    resolver, when and only when [R > 0]; and the blend stage last.  Each
    of the three resizers is called exactly once. *)
Theorem forward_dispatch_order (scan_temp_bytes sort_temp_bytes : Z -> Z)
    (NUM_CHANNELS : Z) (alpha_of : Z -> Z -> Z -> Q)
    (width height : Z) (background : list Q)
    (colors_precomp : option (Z -> list Q)) (rgb : Z -> list Q)
    (geom : list gaussian) (garbage : nat -> Z) :
  config_ok NUM_CHANNELS colors_precomp ->
  well_formed_call width height geom ->
  let run := forward scan_temp_bytes sort_temp_bytes NUM_CHANNELS alpha_of
               width height background colors_precomp rgb geom garbage [] in
  let P := Z.of_nat (length geom) in
  let R := Zsum (map g_tiles_touched geom) in
  let bytes := required scan_temp_bytes sort_temp_bytes in
  fst run
  = [Call_geometryBuffer (bytes Geometry (size_t_of_int P));
     Call_imageBuffer (bytes Image (size_t_of_int (width * height)));
     Launch_FORWARD_preprocess; Launch_InclusiveSum; Memcpy_num_rendered;
     Call_binningBuffer (bytes Binning (size_t_of_int R));
     Launch_duplicateWithKeys;
     Launch_SortPairs (sort_end_bit (tile_grid width height));
     Memset_ranges]
    ++ (if 0 <? R then [Launch_identifyTileRanges] else [])
    ++ [Launch_FORWARD_render] /\
  List.filter (fun e => negb (device_work e)) (fst run)
  = [Call_geometryBuffer (bytes Geometry (size_t_of_int P));
     Call_imageBuffer (bytes Image (size_t_of_int (width * height)));
     Call_binningBuffer (bytes Binning (size_t_of_int R))] /\
  (In Launch_identifyTileRanges (fst run) <-> 0 < R).
Proof.
  intros Hconfig Hcall run P R bytes. subst run.
  rewrite (forward_run _ _ _ _ _ _ _ _ _ _ garbage Hconfig Hcall). cbn [fst].
  destruct Hcall as (Hne & Himg & Hpre & Hfit & Htyped).
  rewrite <- (Zsum_tiles_touched _ geom Hpre). fold R.
  unfold forward_trace. fold P bytes.
  destruct (Z.ltb_spec 0 R) as [Hpos|Hzero]; cbn [app].
  - split; [reflexivity|]. split; [reflexivity|].
    split; [intros _; exact Hpos|]. intros _. cbn [In]. tauto.
  - split; [reflexivity|]. split; [reflexivity|].
    split; [|lia]. cbn [In]. intros H.
    repeat (destruct H as [H|H]; [discriminate H|]). destruct H.
Qed.

(** X13.  A well-formed call of [forward] never shows what the freshly
    carved binning arrays held: the expansion overwrites every entry of
    the unsorted key and value arrays before the sort reads them, so
    that two calls that differ only in the stale contents of these
    arrays dispatch the same events and return the same counts, lists,
    ranges and image. *)
Theorem forward_ignores_stale_binning (scan_temp_bytes sort_temp_bytes : Z -> Z)
    (NUM_CHANNELS : Z) (alpha_of : Z -> Z -> Z -> Q)
    (width height : Z) (background : list Q)
    (colors_precomp : option (Z -> list Q)) (rgb : Z -> list Q)
    (geom : list gaussian) (garbage1 garbage2 : nat -> Z) :
  config_ok NUM_CHANNELS colors_precomp ->
  well_formed_call width height geom ->
  forward scan_temp_bytes sort_temp_bytes NUM_CHANNELS alpha_of
    width height background colors_precomp rgb geom garbage1 []
  = forward scan_temp_bytes sort_temp_bytes NUM_CHANNELS alpha_of
      width height background colors_precomp rgb geom garbage2 [] /\
  exists out,
    snd (forward scan_temp_bytes sort_temp_bytes NUM_CHANNELS alpha_of
           width height background colors_precomp rgb geom garbage1 []) = inr out /\
    point_list_keys_unsorted out = all_keys (tile_grid width height) geom /\
    forall key, key ∈ point_list_keys out -> key ∈ all_keys (tile_grid width height) geom.
Proof.
  intros Hconfig Hcall.
  pose proof (forward_binned width height geom garbage1 Hcall) as H1.
  pose proof (forward_binned width height geom garbage2 Hcall) as H2.
  rewrite !(forward_run _ _ _ _ _ _ _ _ _ _ _ Hconfig Hcall). cbn [snd].
  split.
  - f_equal. f_equal. unfold forward_result. rewrite H1, H2. reflexivity.
  - eexists. split; [reflexivity|].
    unfold forward_result. cbn [point_list_keys_unsorted point_list_keys].
    rewrite H1. cbn [gaussian_keys_unsorted gaussian_values_unsorted].
    split; [reflexivity|]. intros key Hin.
    destruct (forward_sorted_perm width height geom) as [Hperm _].
    rewrite <- Hperm. exact Hin.
Qed.

(** ** The bits the sort looks at *)

Lemma getHigherMsb_zero : getHigherMsb 0 = 1.
Proof. reflexivity. Qed.

Lemma getHigherMsb_range (n : Z) :
  0 <= n < 2 ^ 32 -> 1 <= getHigherMsb n <= 32 /\ n < 2 ^ getHigherMsb n.
Proof.
  intros Hn. destruct (Z.eq_dec n 0) as [->|Hpos].
  - rewrite getHigherMsb_zero. split; lia.
  - rewrite getHigherMsb_bit_length by lia.
    pose proof (Z.log2_nonneg n).
    assert (Z.log2 n < 32) by (apply Z.log2_lt_pow2; lia).
    destruct (Z.log2_spec n ltac:(lia)) as [_ Hhi].
    replace (Z.succ (Z.log2 n)) with (Z.log2 n + 1) in Hhi by lia.
    split; lia.
Qed.

(** X14.  [getHigherMsb] on the [unsigned] values: the result is between
    1 and 32, it does not decrease when the argument grows, and [n] is
    below [2^getHigherMsb(n)].  So the end bit [32 + bit] that [forward]
    hands to the sort is between 33 and 64, a valid bit count for 64-bit
    keys, and on a grid whose tile count fits an [unsigned] it leaves no
    set bit of a key out: every key packed for a cell of the grid and for
    32 depth bits is below [2^(32 + bit)]. *)
Theorem sort_end_bit_covers_keys (grid : dim3) (n m depth y x : Z) :
  0 <= n <= m -> m < 2 ^ 32 ->
  gx grid * gy grid < 2 ^ 32 ->
  0 <= y < gy grid -> 0 <= x < gx grid -> 0 <= depth < 2 ^ 32 ->
  1 <= getHigherMsb n <= getHigherMsb m /\ getHigherMsb m <= 32 /\
  n < 2 ^ getHigherMsb n /\
  33 <= sort_end_bit grid <= 64 /\
  0 <= pack_key grid depth y x < 2 ^ sort_end_bit grid.
Proof.
  intros Hnm Hm Hfit Hy Hx Hd.
  destruct (getHigherMsb_range n ltac:(lia)) as [Hn1 Hn2].
  destruct (getHigherMsb_range m ltac:(lia)) as [Hm1 Hm2].
  assert (Hmono : getHigherMsb n <= getHigherMsb m).
  { destruct (Z.eq_dec n 0) as [->|Hpos]; [rewrite getHigherMsb_zero; lia|].
    rewrite !getHigherMsb_bit_length by lia.
    pose proof (Z.log2_le_mono n m ltac:(lia)). lia. }
  pose proof (sort_end_bit_bounds grid) as Hbits.
  split; [lia|]. split; [lia|]. split; [exact Hn2|]. split; [lia|].
  destruct (cell_tile_range grid (gy grid) y x Hy Hx ltac:(lia)) as [Ht1 Ht2].
  destruct (pack_key_fields grid depth y x) as (_ & _ & Hkey); try lia.
  split; [lia|].
  assert (Hcount : tile_count grid = gx grid * gy grid)
    by (apply wrap32_small; lia).
  destruct (getHigherMsb_range (tile_count grid) (tile_count_range grid)) as [Hbit Hcover].
  unfold sort_end_bit. rewrite Z.pow_add_r by lia. rewrite Hcount in *.
  set (bound := 2 ^ getHigherMsb (gx grid * gy grid)) in *.
  assert (Hle : (y * gx grid + x + 1) * 2 ^ 32 <= bound * 2 ^ 32)
    by (apply Z.mul_le_mono_nonneg_r; lia).
  lia.
Qed.

(** ** The tile grid *)

(** X15.  The tile grid of a non-empty image whose sides fit an [int]
    with room for the rounding, [width + BLOCK_X - 1] and
    [height + BLOCK_Y - 1] being at most [INT_MAX] so that the two sums
    of the source do not overflow: it has [ceil(width / 16)] columns and
    [ceil(height / 16)] rows, so that the tiles cover the image with less
    than one tile to spare on each axis, and every pixel lies in a tile
    of the grid whose index [row * grid.x + column] is below the tile
    count. *)
Theorem tile_grid_covers_image (width height px py : Z) :
  image_ok width height ->
  width + BLOCK_X - 1 <= INT_MAX -> height + BLOCK_Y - 1 <= INT_MAX ->
  0 <= px < width -> 0 <= py < height ->
  let grid := tile_grid width height in
  BLOCK_X * (gx grid - 1) < width <= BLOCK_X * gx grid /\
  BLOCK_Y * (gy grid - 1) < height <= BLOCK_Y * gy grid /\
  0 <= px / BLOCK_X < gx grid /\ 0 <= py / BLOCK_Y < gy grid /\
  0 <= py / BLOCK_Y * gx grid + px / BLOCK_X < tile_count grid /\
  tile_count grid = gx grid * gy grid.
Proof.
  intros Himg Hwide Hhigh Hpx Hpy grid.
  destruct (tile_grid_ok width height Himg) as (Hx & Hy & Hxy & Hn).
  fold grid in Hx, Hy, Hxy, Hn.
  destruct Himg as (Hw & Hh & Hwh). unfold INT_MAX in *.
  assert (Hw' : width <= 2 ^ 31 - 1).
  { assert (width * 1 <= width * height) by (apply Z.mul_le_mono_nonneg_l; lia). lia. }
  assert (Hh' : height <= 2 ^ 31 - 1).
  { assert (1 * height <= width * height) by (apply Z.mul_le_mono_nonneg_r; lia). lia. }
  assert (Egx : gx grid = (width + 15) / 16).
  { subst grid. unfold tile_grid, BLOCK_X. cbn [gx].
    rewrite Z.quot_div_nonneg by lia.
    replace (width + 16 - 1) with (width + 15) by lia.
    apply wrap32_small. split; [apply Z.div_pos; lia|apply Z.div_lt_upper_bound; lia]. }
  assert (Egy : gy grid = (height + 15) / 16).
  { subst grid. unfold tile_grid, BLOCK_Y. cbn [gy].
    rewrite Z.quot_div_nonneg by lia.
    replace (height + 16 - 1) with (height + 15) by lia.
    apply wrap32_small. split; [apply Z.div_pos; lia|apply Z.div_lt_upper_bound; lia]. }
  unfold BLOCK_X, BLOCK_Y.
  pose proof (Z.div_mod (width + 15) 16 ltac:(lia)).
  pose proof (Z.mod_pos_bound (width + 15) 16 ltac:(lia)).
  pose proof (Z.div_mod (height + 15) 16 ltac:(lia)).
  pose proof (Z.mod_pos_bound (height + 15) 16 ltac:(lia)).
  pose proof (Z.div_mod px 16 ltac:(lia)).
  pose proof (Z.mod_pos_bound px 16 ltac:(lia)).
  pose proof (Z.div_mod py 16 ltac:(lia)).
  pose proof (Z.mod_pos_bound py 16 ltac:(lia)).
  assert (Hcol : 0 <= px / 16 < gx grid) by lia.
  assert (Hrow : 0 <= py / 16 < gy grid) by lia.
  destruct (cell_tile_range grid (gy grid) (py / 16) (px / 16) Hrow Hcol ltac:(lia))
    as [Ht1 Ht2].
  repeat split; try lia; rewrite ?Hn; lia.
Qed.

(** ** Depths with the sign bit set *)

(** The fields of a pattern with the sign bit set are those of the
    pattern without it. *)
Lemma f32_negative_fields (m : Z) :
  0 <= m < 2 ^ 31 ->
  f32_sign (2 ^ 31 + m) = 1 /\
  f32_exponent (2 ^ 31 + m) = f32_exponent m /\
  f32_mantissa (2 ^ 31 + m) = f32_mantissa m.
Proof.
  intros Hm. unfold f32_sign, f32_exponent, f32_mantissa.
  rewrite !Z.shiftr_div_pow2, !Z.land_ones by lia.
  change 255 with (Z.ones 8). rewrite !Z.land_ones by lia.
  replace (2 ^ 31 + m) with (m + 1 * 2 ^ 31) by lia.
  split; [|split].
  - rewrite Z.div_add by lia. rewrite Z.div_small by lia. reflexivity.
  - replace (m + 1 * 2 ^ 31) with (m + 2 ^ 8 * 2 ^ 23) by lia.
    rewrite Z.div_add by lia.
    replace (m / 2 ^ 23 + 2 ^ 8) with (m / 2 ^ 23 + 1 * 2 ^ 8) by lia.
    apply Z_mod_plus_full.
  - replace (m + 1 * 2 ^ 31) with (m + 2 ^ 8 * 2 ^ 23) by lia.
    apply Z_mod_plus_full.
Qed.

Lemma f32_magnitude_nonneg (b : Z) : 0 <= f32_magnitude b.
Proof.
  unfold f32_magnitude, f32_mantissa. rewrite Z.land_ones by lia.
  pose proof (Z.mod_pos_bound b (2 ^ 23) ltac:(lia)).
  destruct (f32_exponent b =? 0); [lia|].
  apply Z.mul_nonneg_nonneg; [lia|]. apply Z.pow_nonneg. lia.
Qed.

(** X16.  Depths with the sign bit set: the key takes the four bytes of
    the [float] as they are, as an [unsigned].  In the same tile, the key of
    a depth with the sign bit set is above the key of every depth without
    it, although the number it stands for is not above: in the sorted
    list a primitive behind the camera plane comes after all those in
    front.  And among the negative depths that are not NaN the order of
    the keys is the reverse of the order of the numbers. *)
Theorem negative_depth_keys (grid : dim3) (y x a b c : Z) :
  gx grid * gy grid <= 2 ^ 32 -> 0 <= y < gy grid -> 0 <= x < gx grid ->
  f32_nonneg a ->
  2 ^ 31 <= b <= c -> c <= 2 ^ 31 + 255 * 2 ^ 23 ->
  f32_sign b = 1 /\ f32_is_nan b = false /\
  pack_key grid a y x < pack_key grid b y x /\
  (f32_value b <= f32_value a)%Q /\
  pack_key grid b y x <= pack_key grid c y x /\
  (f32_value c <= f32_value b)%Q.
Proof.
  intros Hfit Hy Hx Ha Hbc Hc.
  destruct (cell_tile_range grid (gy grid) y x Hy Hx ltac:(lia)) as [Ht1 Ht2].
  assert (Hka : pack_key grid a y x = (y * gx grid + x) * 2 ^ 32 + a)
    by (apply pack_key_sum; unfold f32_nonneg in Ha; lia).
  assert (Hkb : pack_key grid b y x = (y * gx grid + x) * 2 ^ 32 + b)
    by (apply pack_key_sum; lia).
  assert (Hkc : pack_key grid c y x = (y * gx grid + x) * 2 ^ 32 + c)
    by (apply pack_key_sum; lia).
  set (mb := b - 2 ^ 31). set (mc := c - 2 ^ 31).
  assert (Hmb : f32_nonneg mb) by (unfold f32_nonneg; subst mb; lia).
  assert (Hmc : f32_nonneg mc) by (unfold f32_nonneg; subst mc; lia).
  destruct (f32_negative_fields mb) as (Hsb & Heb & Hfb); [subst mb; lia|].
  destruct (f32_negative_fields mc) as (Hsc & Hec & Hfc); [subst mc; lia|].
  replace (2 ^ 31 + mb) with b in * by (subst mb; lia).
  replace (2 ^ 31 + mc) with c in * by (subst mc; lia).
  assert (Hmagb : f32_magnitude b = f32_magnitude mb)
    by (unfold f32_magnitude; rewrite Heb, Hfb; reflexivity).
  assert (Hmagc : f32_magnitude c = f32_magnitude mc)
    by (unfold f32_magnitude; rewrite Hec, Hfc; reflexivity).
  pose proof (f32_magnitude_monotone mb mc Hmb Hmc ltac:(subst mb mc; lia)) as Hmono.
  pose proof (f32_magnitude_nonneg a) as Hpa.
  pose proof (f32_magnitude_nonneg mb) as Hpb.
  destruct (f32_nonneg_fields a Ha) as (Hsa & _).
  split; [exact Hsb|]. split.
  - unfold f32_is_nan. rewrite Heb, Hfb. apply (f32_nonneg_not_nan mb Hmb).
  - split; [unfold f32_nonneg in Ha; lia|]. split; [|split; [lia|]].
    + unfold f32_value. rewrite Hsa, Hsb, Hmagb. cbn [Z.eqb].
      unfold Qle. cbn [Qnum Qden]. apply Z.mul_le_mono_nonneg_r; lia.
    + unfold f32_value. rewrite Hsb, Hsc, Hmagb, Hmagc. cbn [Z.eqb].
      unfold Qle. cbn [Qnum Qden]. apply Z.mul_le_mono_nonneg_r; lia.
Qed.

(** ** An instance count that does not fit an [int] *)

Lemma forward_asks_binning (scan_temp_bytes sort_temp_bytes : Z -> Z)
    (NUM_CHANNELS : Z) (alpha_of : Z -> Z -> Z -> Q)
    (width height : Z) (background : list Q)
    (colors_precomp : option (Z -> list Q)) (rgb : Z -> list Q)
    (geom : list gaussian) (garbage : nat -> Z) (R : Z) :
  config_ok NUM_CHANNELS colors_precomp ->
  memcpy_int (InclusiveSum (map g_tiles_touched geom)) (Z.of_nat (length geom) - 1)
  = Some R ->
  let run := forward scan_temp_bytes sort_temp_bytes NUM_CHANNELS alpha_of
               width height background colors_precomp rgb geom garbage [] in
  In (Call_binningBuffer
        (required scan_temp_bytes sort_temp_bytes Binning (size_t_of_int R))) (fst run) /\
  (0 < R \/ ~ In Launch_identifyTileRanges (fst run)).
Proof.
  intros Hconfig Hread run. subst run.
  unfold forward, check, bind, dispatch, throw, ret. cbn [app].
  rewrite (config_test_passes _ _ Hconfig). cbn [app]. rewrite Hread. cbn [app].
  destruct (stores_in_range _ _ _ _); cbn [app fst].
  - destruct (Z.ltb_spec 0 R) as [Hpos|Hneg]; cbn [app fst].
    + destruct (tiles_in_range _ _); cbn [app fst]; (split; [|left; exact Hpos]);
        cbn [In]; tauto.
    + split; [cbn [In]; tauto|]. right. cbn [In]. intros H.
      repeat (destruct H as [H|H]; [discriminate H|]). destruct H.
  - split; [cbn [In]; tauto|]. right. cbn [In]. intros H.
    repeat (destruct H as [H|H]; [discriminate H|]). destruct H.
Qed.

(** X17.  The instance count is read back as an [int] and handed on as a
    [size_t].  When the tile-touch-counts add up to [2^31] or more, and
    to less than [2^32] so that the prefix sum itself does not wrap,
    [forward] reads the negative number [total - 2^32]; it then asks the
    resizer of the binning state for room for [2^64 + total - 2^32]
    instances, it never launches the range resolver, and if it returns,
    the count it returns is that negative number. *)
Theorem forward_count_above_int (scan_temp_bytes sort_temp_bytes : Z -> Z)
    (NUM_CHANNELS : Z) (alpha_of : Z -> Z -> Z -> Q)
    (width height : Z) (background : list Q)
    (colors_precomp : option (Z -> list Q)) (rgb : Z -> list Q)
    (geom : list gaussian) (garbage : nat -> Z) :
  config_ok NUM_CHANNELS colors_precomp ->
  Forall (fun c => 0 <= c) (map g_tiles_touched geom) ->
  let total := Zsum (map g_tiles_touched geom) in
  INT_MAX < total < 2 ^ 32 ->
  let run := forward scan_temp_bytes sort_temp_bytes NUM_CHANNELS alpha_of
               width height background colors_precomp rgb geom garbage [] in
  memcpy_int (InclusiveSum (map g_tiles_touched geom)) (Z.of_nat (length geom) - 1)
  = Some (total - 2 ^ 32) /\
  In (Call_binningBuffer
        (required scan_temp_bytes sort_temp_bytes Binning (2 ^ 64 + total - 2 ^ 32)))
     (fst run) /\
  ~ In Launch_identifyTileRanges (fst run) /\
  (forall out, snd run = inr out -> num_rendered out = total - 2 ^ 32).
Proof.
  intros Hconfig Hpos total Htotal run. unfold INT_MAX in Htotal.
  assert (Hne : map g_tiles_touched geom <> []).
  { intros E. subst total. rewrite E in Htotal. cbn in Htotal. lia. }
  assert (Hlen : (0 < length geom)%nat).
  { destruct geom; [contradiction Hne; reflexivity|cbn; lia]. }
  assert (Hread : memcpy_int (InclusiveSum (map g_tiles_touched geom))
                    (Z.of_nat (length geom) - 1) = Some (total - 2 ^ 32)).
  { unfold memcpy_int. destruct (Z.ltb_spec (Z.of_nat (length geom) - 1) 0); [lia|].
    replace (Z.to_nat (Z.of_nat (length geom) - 1)) with (length geom - 1)%nat by lia.
    rewrite InclusiveSum_lookup by (try assumption; try (rewrite length_map); lia).
    cbn [fmap option_fmap option_map]. f_equal.
    rewrite take_ge by (rewrite length_map; lia). fold total.
    unfold as_int. destruct (Z.ltb_spec total (2 ^ 31)); [lia|reflexivity]. }
  destruct (forward_asks_binning scan_temp_bytes sort_temp_bytes NUM_CHANNELS alpha_of
              width height background colors_precomp rgb geom garbage _ Hconfig Hread)
    as [Hask Hnever].
  fold run in Hask, Hnever.
  split; [exact Hread|]. split; [|split].
  - replace (2 ^ 64 + total - 2 ^ 32) with (size_t_of_int (total - 2 ^ 32)); [exact Hask|].
    unfold size_t_of_int, wrap64.
    replace (total - 2 ^ 32) with (2 ^ 64 + total - 2 ^ 32 + (-1) * 2 ^ 64) by lia.
    rewrite Z_mod_plus_full. apply Z.mod_small. lia.
  - destruct Hnever as [Hpositive|Hnever]; [lia|exact Hnever].
  - intros out Hout. subst run.
    apply forward_returns_inv in Hout as (R & Hread' & ->).
    rewrite Hread in Hread'. injection Hread' as <-. reflexivity.
Qed.

(** ** The fields of a state do not overlap *)

Lemma carve_obtain_all (scan_temp_bytes sort_temp_bytes : Z -> Z) (T : state_type)
    (chunk n : Z) :
  carve scan_temp_bytes sort_temp_bytes T chunk n
  = obtain_all chunk (layout scan_temp_bytes sort_temp_bytes T n).
Proof.
  destruct T; unfold carve, GeometryState.fromChunk, ImageState.fromChunk,
    BinningState.fromChunk, layout; cbn [obtain_all]; cbv zeta;
    repeat name_obtain; reflexivity.
Qed.

Lemma obtain_all_extents (fields : list (Z * Z)) :
  Forall (fun f => 0 <= fst f * snd f) fields ->
  forall chunk : Z,
    let ptrs := fst (obtain_all chunk fields) in
    let stop := snd (obtain_all chunk fields) in
    length ptrs = length fields /\ chunk <= stop /\
    (forall (i : nat) (p : Z), ptrs !! i = Some p -> p mod 128 = 0 /\ chunk <= p) /\
    (forall (i : nat) (p : Z) (f : Z * Z),
        ptrs !! i = Some p -> fields !! i = Some f ->
        p + fst f * snd f <= stop /\
        forall (j : nat) (q : Z), (i < j)%nat -> ptrs !! j = Some q ->
                                  p + fst f * snd f <= q).
Proof.
  induction 1 as [|[count elt_size] rest Hbytes _ IH]; intros chunk.
  - cbn. split; [reflexivity|]. split; [lia|]. split; intros i p; discriminate.
  - cbn [obtain_all]. rewrite obtain_128.
    destruct (align128_bounds chunk) as [Hle Haligned].
    specialize (IH (align128 chunk + count * elt_size)). cbv zeta in IH.
    destruct (obtain_all (align128 chunk + count * elt_size) rest) as [ptrs stop].
    cbn [fst snd] in *. destruct IH as (Hlen & Hstop & Hptrs & Hext).
    split; [cbn; lia|]. split; [lia|]. split.
    + intros [|i] p Hp; cbn in Hp.
      * injection Hp as <-. split; [exact Haligned|lia].
      * destruct (Hptrs i p Hp). split; [assumption|lia].
    + intros [|i] p f Hp Hf; cbn in Hp, Hf.
      * injection Hp as <-. injection Hf as <-. cbn [fst snd]. split; [lia|].
        intros [|j] q Hij Hq; [lia|]. cbn in Hq. destruct (Hptrs j q Hq). lia.
      * destruct (Hext i p f Hp Hf) as [Hend Hnext]. split; [exact Hend|].
        intros [|j] q Hij Hq; [lia|]. cbn in Hq. apply (Hnext j q); [lia|exact Hq].
Qed.

Lemma layout_typed (scan_temp_bytes sort_temp_bytes : Z -> Z) (T : state_type) (n : Z) :
  0 <= n -> 0 <= scan_temp_bytes n -> 0 <= sort_temp_bytes n ->
  Forall (fun f => 0 <= fst f /\ 1 <= snd f)
         (layout scan_temp_bytes sort_temp_bytes T n).
Proof.
  intros Hn Hscan Hsort.
  destruct T; unfold layout, sizeof_float, sizeof_bool, sizeof_int, sizeof_float2,
    sizeof_float4, sizeof_uint32_t, sizeof_uint64_t, sizeof_uint2, sizeof_char;
    repeat constructor; cbn [fst snd]; lia.
Qed.

(** X18.  The layout [fromChunk] carves, for every state type, for
    non-negative element counts and scratch sizes, and for a chunk
    pointer from which the final cursor stays below [2^64], so that the
    64-bit counts and cursor of the source do not wrap: one pointer per
    field, in the order of the source; every pointer is a multiple of 128
    at or after the chunk pointer; every count, every pointer rounded up
    and every end of a field is below [2^64]; and the bytes of a field
    end before the pointer of every later field and before the final
    cursor, so that no two fields overlap and all of them lie between the
    chunk pointer and the final cursor. *)
Theorem fromChunk_fields_disjoint (scan_temp_bytes sort_temp_bytes : Z -> Z)
    (T : state_type) (chunk n : Z) :
  0 <= n -> 0 <= scan_temp_bytes n -> 0 <= sort_temp_bytes n ->
  0 <= chunk ->
  snd (carve scan_temp_bytes sort_temp_bytes T chunk n) < 2 ^ 64 ->
  let ptrs := fst (carve scan_temp_bytes sort_temp_bytes T chunk n) in
  let stop := snd (carve scan_temp_bytes sort_temp_bytes T chunk n) in
  let fields := layout scan_temp_bytes sort_temp_bytes T n in
  length ptrs = length fields /\ chunk <= stop /\
  (forall (i : nat) (p : Z), ptrs !! i = Some p -> p mod 128 = 0 /\ chunk <= p) /\
  (forall (i : nat) (p : Z) (f : Z * Z),
      ptrs !! i = Some p -> fields !! i = Some f ->
      0 <= fst f < 2 ^ 64 /\ 0 <= fst f * snd f /\
      p + 128 <= 2 ^ 64 /\ p + fst f * snd f < 2 ^ 64) /\
  (forall (i : nat) (p : Z) (f : Z * Z),
      ptrs !! i = Some p -> fields !! i = Some f ->
      p + fst f * snd f <= stop /\
      forall (j : nat) (q : Z), (i < j)%nat -> ptrs !! j = Some q ->
                                p + fst f * snd f <= q).
Proof.
  intros Hn Hscan Hsort Hchunk Hstop ptrs stop fields.
  pose proof (layout_typed scan_temp_bytes sort_temp_bytes T n Hn Hscan Hsort) as Htyped.
  fold fields in Htyped.
  assert (Hbytes : Forall (fun f => 0 <= fst f * snd f) fields).
  { eapply Forall_impl; [exact Htyped|]. intros f [Hc Hs]. cbn beta.
    apply Z.mul_nonneg_nonneg; lia. }
  pose proof (obtain_all_extents fields Hbytes chunk) as Hext. cbv zeta in Hext.
  subst fields. rewrite <- carve_obtain_all in Hext. fold ptrs stop in Hext.
  fold stop in Hstop.
  destruct Hext as (Hlen & Hle & Hptrs & Hends).
  split; [exact Hlen|]. split; [exact Hle|]. split; [exact Hptrs|].
  split; [|exact Hends].
  intros i p f Hp Hf.
  destruct (Hptrs i p Hp) as [Haligned Hfrom].
  destruct (Hends i p f Hp Hf) as [Hend _].
  rewrite Forall_lookup in Htyped. destruct (Htyped i f Hf) as [Hcount Hsize].
  assert (Hprod : 0 <= fst f * snd f) by (apply Z.mul_nonneg_nonneg; lia).
  assert (Hge : fst f * 1 <= fst f * snd f) by (apply Z.mul_le_mono_nonneg_l; lia).
  pose proof (Z.div_mod p 128 ltac:(lia)) as Hdiv. rewrite Haligned in Hdiv.
  repeat split; lia.
Qed.

(** ** The theorems at the sample inputs *)

Lemma two_splats_well_formed : well_formed_call 16 16 two_splats.
Proof.
  unfold well_formed_call, image_ok, depths_typed, preprocess_ok, INT_MAX.
  split; [discriminate|]. split; [lia|]. split; [repeat constructor|].
  split; [vm_compute; discriminate|].
  repeat constructor; vm_compute; congruence.
Qed.


(** C4 at the two sample splats: two instances. *)
Lemma forward_instance_count_witness :
  exists out,
    snd (forward no_temp no_temp 3 half_alpha 16 16 black None grey two_splats stale [])
    = inr out /\
    num_rendered out = 2.
Proof.
  destruct (forward_instance_count no_temp no_temp 3 half_alpha 16 16 black None grey
              two_splats stale)
    as [Hsum Hruns].
  - discriminate.
  - repeat constructor; discriminate.
  - discriminate.
  - destruct (Hruns (or_introl eq_refl) two_splats_well_formed) as [out Hrun].
    exists out. split; [exact Hrun|].
    destruct (Hsum out Hrun) as (_ & _ & _ & ->). reflexivity.
Defined.

(** C7 at the culled splat: one zero range and a black image. *)
Lemma forward_nothing_rendered_witness :
  exists out,
    snd (forward no_temp no_temp 3 half_alpha 16 16 black None grey culled_splat stale [])
    = inr out /\
    ranges out = [Uint2 0 0] /\
    Forall (fun pixel => pixel = black) (out_color out).
Proof.
  destruct (forward_nothing_rendered no_temp no_temp 3 half_alpha 16 16 black None grey
              culled_splat stale)
    as (out & Hrun & _ & _ & Hlen & Hzero & _ & Himage).
  - left. reflexivity.
  - discriminate.
  - repeat constructor.
  - reflexivity.
  - exists out. split; [exact Hrun|]. split; [|exact Himage].
    destruct (ranges out) as [|r [|r' rest]]; try discriminate Hlen.
    apply Forall_cons in Hzero as [-> _]. reflexivity.
Defined.

(** C8 with four channels and no precomputed colours. *)
Lemma forward_config_error_first_witness :
  snd (forward no_temp no_temp 4 half_alpha 16 16 black None grey two_splats stale [])
  = inl (runtime_error "For non-RGB, provide precomputed Gaussian colors!").
Proof.
  apply (forward_config_error_first no_temp no_temp 4 half_alpha 16 16 black None grey
           two_splats stale); [discriminate|reflexivity].
Defined.


(** C3 for the second sample splat, whose pair goes to offset 1. *)
Lemma duplicateWithKeys_thread_spec_witness :
  duplicateWithKeys_thread two_splats [1; 2] (tile_grid 16 16)
    (Unsorted [5; 5] [9; 9]) 1
  = Unsorted [5; bits_of_1_0] [9; 1].
Proof.
  assert (Hfit : gx (tile_grid 16 16) * gy (tile_grid 16 16) < 2 ^ 32) by reflexivity.
  assert (Hx : 0 <= gx (tile_grid 16 16) <= INT_MAX) by (split; discriminate).
  assert (Hy : 0 <= gy (tile_grid 16 16) <= INT_MAX) by (split; discriminate).
  pose proof (duplicateWithKeys_thread_spec two_splats [1; 2] (tile_grid 16 16)
                (Unsorted [5; 5] [9; 9]) 1 (Gaussian (Float2 8 8) bits_of_1_0 1 1)
                eq_refl Hx Hy Hfit) as (_ & _ & _ & H).
  destruct H as (_ & _ & _ & _ & H); [reflexivity|].
  rewrite H; [reflexivity|discriminate|discriminate|reflexivity|reflexivity].
Defined.

(** C2 on three keys, two of tile 0 and one of tile 1. *)
Lemma identifyTileRanges_partition_witness :
  identifyTileRanges 3 [bits_of_1_0; bits_of_2_0; 2 ^ 32 + bits_of_1_0]
                     (replicate 2 (Uint2 0 0))
  = [Uint2 0 2; Uint2 2 3] /\
  forall i : Z, 0 <= i < 3 ->
    exists (t : nat) (r : uint2),
      identifyTileRanges 3 [bits_of_1_0; bits_of_2_0; 2 ^ 32 + bits_of_1_0]
                         (replicate 2 (Uint2 0 0)) !! t = Some r /\
      ux r <= i < uy r.
Proof.
  split; [reflexivity|].
  apply (identifyTileRanges_partition
           [bits_of_1_0; bits_of_2_0; 2 ^ 32 + bits_of_1_0] 3 2).
  - reflexivity.
  - vm_compute. discriminate.
  - intros i j ki kj Hij Hi Hj.
    destruct i as [|[|[|i]]]; destruct j as [|[|[|j]]]; try discriminate; try lia;
      cbn in Hi, Hj; injection Hi as <-; injection Hj as <-; vm_compute; discriminate.
  - intros key Hin. apply list_elem_of_In in Hin. cbn in Hin.
    destruct Hin as [<-|[<-|[<-|[]]]]; vm_compute; reflexivity.
Defined.

Lemma sample_keys_sorted : tile_sorted sample_keys.
Proof.
  intros i j ki kj Hij Hi Hj.
  destruct i as [|[|[|i]]]; destruct j as [|[|[|j]]]; try discriminate; try lia;
    cbn in Hi, Hj; injection Hi as <-; injection Hj as <-; vm_compute; discriminate.
Qed.

Lemma two_splats_preprocess_ok : preprocess_ok (tile_grid 16 16) two_splats.
Proof. repeat constructor. Qed.

(** X1 on two primitives: one block of 256 threads, two of which run. *)
Lemma launch_runs_every_rank_once_witness :
  launch_guarded 2 (duplicateWithKeys_thread two_splats [1; 2] (tile_grid 16 16))
                 (Unsorted [5; 5] [9; 9])
  = duplicateWithKeys 2 two_splats [1; 2] (Unsorted [5; 5] [9; 9]) (tile_grid 16 16).
Proof.
  assert (H : 0 <= 2 <= INT_MAX - 255) by (split; discriminate).
  exact (proj1 (proj2 (proj2 (launch_runs_every_rank_once 2 2 two_splats [1; 2]
                                (Unsorted [5; 5] [9; 9]) (tile_grid 16 16)
                                sample_keys [] H H)))).
Defined.

(** X2 on three primitives and four flags: the flag of rank 1. *)
Lemma markVisible_flags_witness :
  markVisible (list Z) unit even_rank 3 [] tt tt [false; false; false; true] !! 1%nat
  = Some false.
Proof.
  assert (HP : 0 <= 3 <= INT_MAX - 255) by (split; discriminate).
  assert (Hlen : 3 <= Z.of_nat (length [false; false; false; true])) by discriminate.
  exact (proj1 (proj2 (markVisible_flags (list Z) unit even_rank 3 [] tt tt
                         [false; false; false; true] HP Hlen)) 1%nat eq_refl).
Defined.

(** X3 on the last cell of a grid of 2 x 2 tiles. *)
Lemma pack_key_round_trip_witness : key_tile (pack_key (Dim3 2 2 1) 5 1 1) = 3.
Proof.
  assert (Hfit : gx (Dim3 2 2 1) * gy (Dim3 2 2 1) <= 2 ^ 32) by discriminate.
  assert (Hy : 0 <= 1 < gy (Dim3 2 2 1)) by (split; [discriminate|reflexivity]).
  assert (Hx : 0 <= 1 < gx (Dim3 2 2 1)) by (split; [discriminate|reflexivity]).
  assert (Hd : 0 <= 5 < 2 ^ 32) by (split; [discriminate|reflexivity]).
  exact (proj1 (proj2 (proj2 (pack_key_round_trip (Dim3 2 2 1) 5 1 1 5 1 1
                                Hfit Hy Hx Hd Hy Hx Hd)))).
Defined.

(** X4 on a key of tile 0 and a key of tile 1. *)
Lemma key_order_lexicographic_witness :
  key_tile 5 < key_tile (2 ^ 32 + 1) \/
  (key_tile 5 = key_tile (2 ^ 32 + 1) /\ key_depth 5 <= key_depth (2 ^ 32 + 1)).
Proof.
  assert (H1 : 0 <= 5 < 2 ^ 64) by (split; [discriminate|reflexivity]).
  assert (H2 : 0 <= 2 ^ 32 + 1 < 2 ^ 64) by (split; [discriminate|reflexivity]).
  assert (Hle : 5 <= 2 ^ 32 + 1) by discriminate.
  exact (proj1 (proj1 (key_order_lexicographic 5 (2 ^ 32 + 1) H1 H2)) Hle).
Defined.

(** X5 on the counts of the source's own example. *)
Lemma start_offset_exclusive_sum_witness :
  start_offset (InclusiveSum [2; 3; 0; 2; 1]) 3 = 5.
Proof.
  assert (Hpos : Forall (fun c => 0 <= c) [2; 3; 0; 2; 1])
    by (repeat constructor; discriminate).
  assert (Hfit : Zsum [2; 3; 0; 2; 1] < 2 ^ 32) by reflexivity.
  assert (Hidx : (3 <= length [2; 3; 0; 2; 1])%nat) by (cbn; lia).
  exact (proj1 (proj2 (start_offset_exclusive_sum [2; 3; 0; 2; 1] Hpos Hfit)) 3%nat Hidx).
Defined.

(** X6 on the two sample splats, the second thread first. *)
Lemma duplicateWithKeys_any_order_witness :
  foldl (duplicateWithKeys_thread two_splats [1; 2] (tile_grid 16 16))
        (Unsorted [5; 5] [9; 9]) [1; 0]%nat
  = duplicateWithKeys 2 two_splats [1; 2] (Unsorted [5; 5] [9; 9]) (tile_grid 16 16).
Proof.
  assert (Hfit : Z.of_nat (instance_count (tile_grid 16 16) two_splats) < 2 ^ 32)
    by (vm_compute; reflexivity).
  assert (Hperm : Permutation [1; 0]%nat (seq 0 (length two_splats)))
    by apply perm_swap.
  exact (proj2 (duplicateWithKeys_any_order (tile_grid 16 16) two_splats
                  (Unsorted [5; 5] [9; 9]) [1; 0]%nat two_splats_preprocess_ok Hfit
                  eq_refl eq_refl Hperm)).
Defined.

(** X7 on the two sample splats: the slot of the second one. *)
Lemma duplicateWithKeys_expansion_witness :
  gaussian_values_unsorted
    (duplicateWithKeys 2 two_splats [1; 2] (Unsorted [5; 5] [9; 9]) (tile_grid 16 16))
    !! 1%nat = Some 1.
Proof.
  assert (Hfit : Z.of_nat (instance_count (tile_grid 16 16) two_splats) < 2 ^ 32)
    by (vm_compute; reflexivity).
  pose proof (duplicateWithKeys_expansion (tile_grid 16 16) two_splats
                (Unsorted [5; 5] [9; 9]) two_splats_preprocess_ok Hfit eq_refl eq_refl)
    as (_ & _ & Hslot & _).
  exact (proj2 (Hslot 1%nat 0%nat (Gaussian (Float2 8 8) bits_of_1_0 1 1) (0, 0)
                  eq_refl eq_refl)).
Defined.

(** X9 on the three sample keys, the last thread first. *)
Lemma identifyTileRanges_any_order_witness :
  foldl (identifyTileRanges_thread 3 sample_keys) (replicate 2 (Uint2 0 0)) [2; 0; 1]%nat
  = identifyTileRanges 3 sample_keys (replicate 2 (Uint2 0 0)).
Proof.
  assert (Hint : 3 <= INT_MAX) by discriminate.
  assert (Hperm : Permutation [2; 0; 1]%nat (seq 0 (length sample_keys)))
    by (apply (Permutation_cons_app [0; 1]%nat []); apply Permutation_refl).
  exact (proj2 (identifyTileRanges_any_order sample_keys 3 (replicate 2 (Uint2 0 0))
                  [2; 0; 1]%nat eq_refl Hint sample_keys_sorted Hperm)).
Defined.

(** X10 at the two sample splats: both are in the range of tile 0. *)
Lemma forward_tile_lists_witness :
  exists out,
    snd (forward no_temp no_temp 3 half_alpha 16 16 black None grey two_splats stale [])
    = inr out /\
    exists (r : uint2) (i : nat),
      ranges out !! 0%nat = Some r /\ ux r <= Z.of_nat i < uy r /\
      point_list out !! i = Some 1.
Proof.
  destruct (forward_tile_lists no_temp no_temp 3 half_alpha 16 16 black None grey
              two_splats stale (or_introl eq_refl) two_splats_well_formed)
    as (out & Hrun & _ & _ & _ & Hcells).
  exists out. split; [exact Hrun|].
  destruct (Hcells 1%nat (Gaussian (Float2 8 8) bits_of_1_0 1 1) 0 0 eq_refl)
    as (r & i & Hr & Hi & Hv & _).
  - vm_compute. left.
  - exists r, i. auto.
Defined.

(** X11 at the two sample splats. *)
Lemma forward_tile_front_to_back_witness :
  exists out,
    snd (forward no_temp no_temp 3 half_alpha 16 16 black None grey two_splats stale [])
    = inr out.
Proof.
  destruct (forward_tile_front_to_back no_temp no_temp 3 half_alpha 16 16 black None grey
              two_splats stale (or_introl eq_refl) two_splats_well_formed)
    as (out & Hrun & _).
  exists out. exact Hrun.
Defined.

(** X12 at the two sample splats: the range resolver is launched. *)
Lemma forward_dispatch_order_witness :
  In Launch_identifyTileRanges
     (fst (forward no_temp no_temp 3 half_alpha 16 16 black None grey two_splats stale [])).
Proof.
  apply (proj2 (proj2 (forward_dispatch_order no_temp no_temp 3 half_alpha 16 16 black
                         None grey two_splats stale (or_introl eq_refl)
                         two_splats_well_formed))).
  reflexivity.
Defined.

(** X13 at the two sample splats, with two stale contents. *)
Lemma forward_ignores_stale_binning_witness :
  forward no_temp no_temp 3 half_alpha 16 16 black None grey two_splats stale []
  = forward no_temp no_temp 3 half_alpha 16 16 black None grey two_splats (fun _ => 0) [].
Proof.
  exact (proj1 (forward_ignores_stale_binning no_temp no_temp 3 half_alpha 16 16 black
                  None grey two_splats stale (fun _ => 0) (or_introl eq_refl)
                  two_splats_well_formed)).
Defined.

(** X14 on the grid of one tile. *)
Lemma sort_end_bit_covers_keys_witness :
  0 <= pack_key (tile_grid 16 16) 5 0 0 < 2 ^ sort_end_bit (tile_grid 16 16).
Proof.
  assert (Hnm : 0 <= 1 <= 2) by (split; discriminate).
  assert (Hm : 2 < 2 ^ 32) by reflexivity.
  assert (Hfit : gx (tile_grid 16 16) * gy (tile_grid 16 16) < 2 ^ 32) by reflexivity.
  assert (Hy : 0 <= 0 < gy (tile_grid 16 16)) by (split; [discriminate|reflexivity]).
  assert (Hx : 0 <= 0 < gx (tile_grid 16 16)) by (split; [discriminate|reflexivity]).
  assert (Hd : 0 <= 5 < 2 ^ 32) by (split; [discriminate|reflexivity]).
  exact (proj2 (proj2 (proj2 (proj2 (sort_end_bit_covers_keys (tile_grid 16 16) 1 2 5 0 0
                                       Hnm Hm Hfit Hy Hx Hd))))).
Defined.

(** X15 on an image of one tile. *)
Lemma tile_grid_covers_image_witness :
  tile_count (tile_grid 16 16) = gx (tile_grid 16 16) * gy (tile_grid 16 16).
Proof.
  assert (Himg : image_ok 16 16)
    by (split; [reflexivity|split; [reflexivity|discriminate]]).
  assert (Hwide : 16 + BLOCK_X - 1 <= INT_MAX) by discriminate.
  assert (Hhigh : 16 + BLOCK_Y - 1 <= INT_MAX) by discriminate.
  assert (Hpx : 0 <= 3 < 16) by (split; [discriminate|reflexivity]).
  assert (Hpy : 0 <= 4 < 16) by (split; [discriminate|reflexivity]).
  exact (proj2 (proj2 (proj2 (proj2 (proj2 (tile_grid_covers_image 16 16 3 4
                                              Himg Hwide Hhigh Hpx Hpy)))))).
Defined.

(** X16 on the depths 1.0, -1.0 and -2.0. *)
Lemma negative_depth_keys_witness :
  pack_key (Dim3 1 1 1) bits_of_1_0 0 0 < pack_key (Dim3 1 1 1) (2 ^ 31 + bits_of_1_0) 0 0.
Proof.
  assert (Hfit : gx (Dim3 1 1 1) * gy (Dim3 1 1 1) <= 2 ^ 32) by discriminate.
  assert (Hy : 0 <= 0 < gy (Dim3 1 1 1)) by (split; [discriminate|reflexivity]).
  assert (Hx : 0 <= 0 < gx (Dim3 1 1 1)) by (split; [discriminate|reflexivity]).
  assert (Ha : f32_nonneg bits_of_1_0) by (split; discriminate).
  assert (Hbc : 2 ^ 31 <= 2 ^ 31 + bits_of_1_0 <= 2 ^ 31 + bits_of_2_0)
    by (split; discriminate).
  assert (Hc : 2 ^ 31 + bits_of_2_0 <= 2 ^ 31 + 255 * 2 ^ 23) by discriminate.
  exact (proj1 (proj2 (proj2 (negative_depth_keys (Dim3 1 1 1) 0 0 bits_of_1_0
                                (2 ^ 31 + bits_of_1_0) (2 ^ 31 + bits_of_2_0)
                                Hfit Hy Hx Ha Hbc Hc)))).
Defined.

(** X17 on a count of [2^31]. *)
Lemma forward_count_above_int_witness :
  memcpy_int (InclusiveSum (map g_tiles_touched overcounted_splat))
             (Z.of_nat (length overcounted_splat) - 1)
  = Some (- 2 ^ 31).
Proof.
  assert (Hpos : Forall (fun c => 0 <= c) (map g_tiles_touched overcounted_splat))
    by (repeat constructor; discriminate).
  assert (Htotal : INT_MAX < Zsum (map g_tiles_touched overcounted_splat) < 2 ^ 32)
    by (split; reflexivity).
  exact (proj1 (forward_count_above_int no_temp no_temp 3 half_alpha 16 16 black None grey
                  overcounted_splat stale (or_introl eq_refl) Hpos Htotal)).
Defined.

(** X18 on the image state of one pixel carved at address 64. *)
Lemma fromChunk_fields_disjoint_witness :
  length (fst (carve no_temp no_temp Image 64 1))
  = length (layout no_temp no_temp Image 1).
Proof.
  assert (Hn : 0 <= 1) by discriminate.
  assert (Ht : 0 <= no_temp 1) by discriminate.
  assert (Hchunk : 0 <= 64) by discriminate.
  assert (Hstop : snd (carve no_temp no_temp Image 64 1) < 2 ^ 64) by reflexivity.
  exact (proj1 (fromChunk_fields_disjoint no_temp no_temp Image 64 1 Hn Ht Ht
                  Hchunk Hstop)).
Defined.
